(** * redis-om-node: the JSON transcoder and the hash write path

    A shallow embedding of [lib/transformer/json-transformer] (the functions
    [toRedisJson] and [fromRedisJson] and their helpers) and of
    [lib/redis/redis-shim.ts] (the method [hsetall]).

    The transcoder clones its argument and then rewrites the clone in
    place through the [parent]/[parentProperty] pairs that JSONPath hands
    back.  The embedding keeps that shape: JavaScript objects live in a heap
    indexed by locations, a value is a primitive or a reference, and every
    function is a computation over the heap that either returns, throws, or
    has no answer within the recursion budget. *)

From stdpp Require Import gmap strings list pretty.
From Stdlib Require Import Ascii.

Set Default Proof Using "Type".
Set Warnings "-register-all".

Open Scope string_scope.
Open Scope list_scope.

(** ** JavaScript values and the object heap *)

Definition loc := positive.

(** A value is a primitive or a reference to a heap object.  The type of
    numbers is a parameter: the transcoder never computes with numbers
    itself, it only hands them to the helpers of [transformer-common]. *)
Inductive val_ (number : Type) : Type :=
  | VUndefined
  | VNull
  | VBool (b : bool)
  | VNumber (n : number)
  | VString (s : string)
  | VRef (l : loc).
Arguments VUndefined {number}.
Arguments VNull {number}.
Arguments VBool {number} b.
Arguments VNumber {number} n.
Arguments VString {number} s.
Arguments VRef {number} l.

(** Heap objects: plain objects (string keyed maps), arrays, and [Date]
    instances carrying their time value. *)
Inductive obj_ (number : Type) : Type :=
  | OObject (props : gmap string (val_ number))
  | OArray (elems : list (val_ number))
  | ODate (time : number).
Arguments OObject {number} props.
Arguments OArray {number} elems.
Arguments ODate {number} time.

(** What a function can throw: the transcoder throws both bare strings
    ([throw `...`]) and [Error] objects; the runtime throws [TypeError]
    when a property of [null] or [undefined] is touched. *)
Inductive exn : Type :=
  | ThrownString (s : string)
  | ThrownError (message : string)
  | ThrownTypeError.

Inductive outcome (A : Type) : Type :=
  | Ok (a : A)
  | Throw (e : exn)
  | Stuck.
Arguments Ok {A} a.
Arguments Throw {A} e.
Arguments Stuck {A}.

(** ** The helpers of [transformer-common]

    Modelled from the spec: the module [./transformer-common] is imported by
    the transcoder but its text is not part of the sources at hand.  The
    helpers whose result depends on number formatting, date arithmetic or
    the point syntax are kept abstract, so every theorem below holds for
    any implementation of them; the type guards are defined further down
    from the words of the specification. *)
Class TransformerCommon : Type := {
  number : Type;
  (** [Number.prototype.toString] *)
  numberToString : number -> string;
  (** [convertDateToEpoch], on the time value of the [Date] *)
  convertDateToEpoch : number -> number;
  (** [convertIsoDateToEpoch] *)
  convertIsoDateToEpoch : string -> number;
  (** [convertEpochToDate], giving the time value of the new [Date] *)
  convertEpochToDate : number -> number;
  (** [isPoint], on the properties of the object *)
  isPointObject : gmap string (val_ number) -> bool;
  (** [convertPointToString], on the properties of the point *)
  pointObjectToString : gmap string (val_ number) -> string;
  (** [isPointString], on strings *)
  isPointString : string -> bool;
  (** [convertStringToPoint]: longitude and latitude of the new point *)
  convertStringToPoint : string -> number * number;
  (** [toString] of an object, an array or a [Date] *)
  objectToString : gmap loc (obj_ number) -> loc -> string;
  (** [stringifyError] *)
  stringifyError : gmap loc (obj_ number) -> val_ number -> string
}.

Abbreviation val := (val_ number).
Abbreviation obj := (obj_ number).
Abbreviation heap := (gmap loc (obj_ number)).

(** The double quote, for the messages that quote a path. *)
Definition quote : string := String (ascii_of_nat 34) EmptyString.

(** ** Computations over the heap *)

(** A computation takes the heap and gives an outcome together with the
    heap it leaves behind; what was written before a [throw] stays
    written. *)
Definition M `{TransformerCommon} (A : Type) : Type := heap -> outcome A * heap.

Section Monad.
Context `{TransformerCommon}.

Definition ret {A} (a : A) : M A := fun h => (Ok a, h).

Definition bind {A B} (m : M A) (k : A -> M B) : M B :=
  fun h =>
    match m h with
    | (Ok a, h') => k a h'
    | (Throw e, h') => (Throw e, h')
    | (Stuck, h') => (Stuck, h')
    end.

Definition throw {A} (e : exn) : M A := fun h => (Throw e, h).
Definition stuck {A} : M A := fun h => (Stuck, h).

(** Pure helpers that read the heap. *)
Definition reads {A} (f : heap -> A) : M A := fun h => (Ok (f h), h).

(** [new]: the object is stored at a location not yet in use. *)
Definition alloc (o : obj) : M loc :=
  fun h => let l := fresh (dom h) in (Ok l, <[l := o]> h).

Definition getObj (l : loc) : M obj :=
  fun h => match h !! l with Some o => (Ok o, h) | None => (Stuck, h) end.
End Monad.

Notation "x <- m ;; k" := (bind m (fun x => k))
  (at level 100, m at next level, right associativity,
   format "'[v' x  <-  m  ;;  '/' k ']'").
Notation "m ;;; k" := (bind m (fun _ => k))
  (at level 100, right associativity).

(** ** Type guards

    Modelled from the spec: the guards [isNull] ... [isObject] of
    [transformer-common].  The specification has the cleanup pass "recurse
    into nested objects" and "leave arrays and scalars alone" while a date
    is encoded, so [isObject] holds of plain objects only. *)
Section Guards.
Context `{TransformerCommon}.

Definition isNull (v : val) : bool :=
  match v with VNull => true | _ => false end.
Definition isUndefined (v : val) : bool :=
  match v with VUndefined => true | _ => false end.
Definition isDefined (v : val) : bool := negb (isUndefined v).
Definition isBoolean (v : val) : bool :=
  match v with VBool _ => true | _ => false end.
Definition isNumber (v : val) : bool :=
  match v with VNumber _ => true | _ => false end.
Definition isString (v : val) : bool :=
  match v with VString _ => true | _ => false end.

Definition isDate (h : heap) (v : val) : bool :=
  match v with
  | VRef l => match h !! l with Some (ODate _) => true | _ => false end
  | _ => false
  end.
Definition isArray (h : heap) (v : val) : bool :=
  match v with
  | VRef l => match h !! l with Some (OArray _) => true | _ => false end
  | _ => false
  end.
Definition isObject (h : heap) (v : val) : bool :=
  match v with
  | VRef l => match h !! l with Some (OObject _) => true | _ => false end
  | _ => false
  end.

Definition booleanToString (b : bool) : string :=
  if b then "true" else "false".

(** Whether the conversion to a string returns for an element that
    [Array.prototype.join] comes upon.  [undefined] and [null] give the
    empty string there.  A plain object is converted by its [toString],
    the one of [Object.prototype] unless the object has a property of its
    own under that name; no value of a document is a function, so a
    property of its own cannot be called and the conversion ends in a
    [TypeError].  An array is joined in its turn: [fuel] bounds the depth,
    and an array that is met again on the way down gives the empty
    string.  A [Date] has the [toString] of [Date.prototype]. *)
Fixpoint joins (fuel : nat) (h : heap) (v : val) : bool :=
  match v with
  | VRef l =>
      match h !! l with
      | Some (OObject props) => bool_decide (props !! "toString" = None)
      | Some (OArray elems) =>
          match fuel with
          | O => true
          | S n => forallb (joins n h) elems
          end
      | Some (ODate _) => true
      | None => false
      end
  | _ => true
  end.

(** [value.toString()]: a [TypeError] on [null] and [undefined], and on
    an object when there is no [toString] to call or when the elements of
    an array cannot be joined.  No chain of arrays without a repetition
    is longer than the heap has objects. *)
Definition toString (v : val) : M string :=
  match v with
  | VUndefined | VNull => throw ThrownTypeError
  | VBool b => ret (booleanToString b)
  | VNumber n => ret (numberToString n)
  | VString s => ret s
  | VRef l =>
      fun h =>
        match h !! l with
        | None => (Stuck, h)
        | Some _ =>
            if joins (S (size h)) h v then (Ok (objectToString h l), h)
            else (Throw ThrownTypeError, h)
        end
  end.
End Guards.

(** ** Properties: reading, writing, deleting *)

(** A property key is a name (of an object) or an index (of an array). *)
Inductive propKey : Type :=
  | KName (name : string)
  | KIndex (i : nat).

#[export] Instance propKey_eq_dec : EqDecision propKey.
Proof. solve_decision. Defined.

Section Properties.
Context `{TransformerCommon}.

(** [array[i] = x]: in range the slot is overwritten, past the end the
    array grows and the slots in between read as [undefined]. *)
Definition arraySet (elems : list val) (i : nat) (x : val) : list val :=
  if decide (i < length elems) then <[i := x]> elems
  else elems ++ replicate (i - length elems) VUndefined ++ [x].

(** [target[key] = x] on a heap object.  JSONPath pairs a name with a
    plain object and an index with an array; the other pairings do not
    arise and have no answer here. *)
Definition setProp (l : loc) (key : propKey) (x : val) : M unit :=
  fun h =>
    match h !! l, key with
    | Some (OObject props), KName k => (Ok tt, <[l := OObject (<[k := x]> props)]> h)
    | Some (OArray elems), KIndex i => (Ok tt, <[l := OArray (arraySet elems i x)]> h)
    | _, _ => (Stuck, h)
    end.

(** [parent[parentProperty] = x]: a [TypeError] when [parent] is [null]
    (the match is the root) and, in strict mode, when it is a primitive. *)
Definition assign (parent : val) (key : propKey) (x : val) : M unit :=
  match parent with
  | VRef l => setProp l key x
  | _ => throw ThrownTypeError
  end.

(** [delete target[key]]: the property goes away; an array keeps its
    length and the slot reads as [undefined]. *)
Definition deleteProp (l : loc) (key : propKey) : M unit :=
  fun h =>
    match h !! l, key with
    | Some (OObject props), KName k => (Ok tt, <[l := OObject (delete k props)]> h)
    | Some (OArray elems), KIndex i => (Ok tt, <[l := OArray (<[i := VUndefined]> elems)]> h)
    | _, _ => (Stuck, h)
    end.

(** [Object.entries(target)]: a snapshot of the keys and values.  The
    keys of an object come in the order of the finite map, which does not
    record the order in which they were added. *)
Definition entriesOf (o : obj) : list (propKey * val) :=
  match o with
  | OObject props => prod_map KName id <$> map_to_list props
  | OArray elems => imap (fun i v => (KIndex i, v)) elems
  | ODate _ => []
  end.

Definition objectEntries (l : loc) : M (list (propKey * val)) :=
  o <- getObj l ;; ret (entriesOf o).

(** [list.forEach(f)] *)
Fixpoint forEach {A} (f : A -> M unit) (l : list A) : M unit :=
  match l with
  | [] => ret tt
  | a :: l' => f a ;;; forEach f l'
  end.

(** [list.map(f)], the callback run on the elements in order. *)
Fixpoint mapM_ {A B} (f : A -> M B) (l : list A) : M (list B) :=
  match l with
  | [] => ret []
  | a :: l' => b <- f a ;; bs <- mapM_ f l' ;; ret (b :: bs)
  end.
End Properties.

(** ** JSONPath

    The transcoder calls [JSONPath({ resultType: 'all', path, json })] of
    the library jsonpath-plus.  The fragment embedded here is the one the
    specification names: the root [$], property access [.name], [[n]] and
    the wildcard [[*]] / [.*].  A path outside the fragment has no
    matches here. *)
Inductive step : Type :=
  | SChild (name : string)
  | SWildcard.

Definition isDigit (c : ascii) : bool :=
  let n := nat_of_ascii c in (48 <=? n)%nat && (n <=? 57)%nat.

Definition isNameChar (c : ascii) : bool :=
  let n := nat_of_ascii c in
  isDigit c
  || ((65 <=? n)%nat && (n <=? 90)%nat)
  || ((97 <=? n)%nat && (n <=? 122)%nat)
  || (n =? 95)%nat || (n =? 45)%nat.

Fixpoint allChars (p : ascii -> bool) (s : string) : bool :=
  match s with
  | EmptyString => true
  | String c s' => p c && allChars p s'
  end.

Definition isEmpty (s : string) : bool :=
  match s with EmptyString => true | _ => false end.

(** What stands after a dot. *)
Definition classifyName (acc : string) : option step :=
  if String.eqb acc "*" then Some SWildcard
  else if negb (isEmpty acc) && allChars isNameChar acc then Some (SChild acc)
  else None.

(** What stands between brackets. *)
Definition classifyBracket (acc : string) : option step :=
  if String.eqb acc "*" then Some SWildcard
  else if negb (isEmpty acc) && allChars isDigit acc then Some (SChild acc)
  else None.

Inductive mode : Type :=
  | Idle
  | InName (acc : string)
  | InBracket (acc : string).

Definition snoc (acc : string) (c : ascii) : string :=
  acc +:+ String c EmptyString.

Fixpoint segments (m : mode) (s : string) : option (list step) :=
  match s with
  | EmptyString =>
      match m with
      | Idle => Some []
      | InName acc => st ← classifyName acc; Some [st]
      | InBracket _ => None
      end
  | String c rest =>
      if Ascii.eqb c "." then
        match m with
        | Idle => segments (InName EmptyString) rest
        | InName acc =>
            st ← classifyName acc; (st ::.) <$> segments (InName EmptyString) rest
        | InBracket _ => None
        end
      else if Ascii.eqb c "[" then
        match m with
        | Idle => segments (InBracket EmptyString) rest
        | InName acc =>
            st ← classifyName acc; (st ::.) <$> segments (InBracket EmptyString) rest
        | InBracket _ => None
        end
      else if Ascii.eqb c "]" then
        match m with
        | InBracket acc =>
            st ← classifyBracket acc; (st ::.) <$> segments Idle rest
        | _ => None
        end
      else
        match m with
        | Idle => None
        | InName acc => segments (InName (snoc acc c)) rest
        | InBracket acc => segments (InBracket (snoc acc c)) rest
        end
  end.

Definition toPathArray (path : string) : option (list step) :=
  match path with
  | String "$" rest => segments Idle rest
  | _ => None
  end.

(** The index a property name denotes on an array: canonical decimal. *)
Fixpoint digitsValue (acc : nat) (s : string) : option nat :=
  match s with
  | EmptyString => Some acc
  | String c s' =>
      if isDigit c then digitsValue (10 * acc + (nat_of_ascii c - 48)) s'
      else None
  end.

Definition parseIndex (name : string) : option nat :=
  match name with
  | EmptyString => None
  | String "0" EmptyString => Some 0
  | String "0" _ => None
  | _ => digitsValue 0 name
  end.

(** One match: the value, the object that holds it and the key under
    which it is held.  At the root [parent] is [null]; the library also
    gives [null] for [parentProperty] there, read as the key ["null"]
    by an assignment. *)
Record PathResult_ (number : Type) : Type := {
  value : val_ number;
  parent : val_ number;
  parentProperty : propKey
}.
Arguments value {number} _.
Arguments parent {number} _.
Arguments parentProperty {number} _.

Abbreviation PathResult := (PathResult_ number).

Section JSONPath.
Context `{TransformerCommon}.

Fixpoint trace (h : heap) (expr : list step) (v : val)
    (par : val) (prop : propKey) : list PathResult :=
  match expr with
  | [] => [ {| value := v; parent := par; parentProperty := prop |} ]
  | SChild name :: x =>
      match v with
      | VRef l =>
          match h !! l with
          | Some (OObject props) =>
              match props !! name with
              | Some v' => trace h x v' v (KName name)
              | None => []
              end
          | Some (OArray elems) =>
              match parseIndex name with
              | Some i =>
                  match elems !! i with
                  | Some v' => trace h x v' v (KIndex i)
                  | None => []
                  end
              | None => []
              end
          | _ => []
          end
      | _ => []
      end
  | SWildcard :: x =>
      match v with
      | VRef l =>
          match h !! l with
          | Some o =>
              flat_map (fun kv => trace h x kv.2 v kv.1) (entriesOf o)
          | None => []
          end
      | _ => []
      end
  end.

(** The matches of a path in the document [json], as the heap stands. *)
Definition resolve (h : heap) (path : string) (json : loc)
    : list PathResult :=
  match toPathArray path with
  | Some expr => trace h expr (VRef json) VNull (KName "null")
  | None => []
  end.

Definition JSONPath (path : string) (json : loc) : M (list PathResult) :=
  reads (fun h => resolve h path json).
End JSONPath.

(** ** Schemas *)

Inductive FieldType : Type :=
  | TBoolean | TNumber | TDate | TPoint | TString | TText | TStringArray.

Record FieldDefinition : Type := {
  type : FieldType;
  path : option string
}.

(** [Object.entries(schemaDef)] lists the fields in the order in which
    they were declared. *)
Definition SchemaDefinition : Type := list (string * FieldDefinition).

Record Schema : Type := { definition : SchemaDefinition }.

(** [fieldDef.path ?? `$.${fieldName}`] *)
Definition pathOf (fieldName : string) (fieldDef : FieldDefinition) : string :=
  match path fieldDef with
  | Some p => p
  | None => "$." +:+ fieldName
  end.

(** ** The transcoder *)

Section Transcoder.
Context `{TransformerCommon}.

(** [clone] of the library just-clone: a deep copy.  Objects and arrays
    are copied member by member, a [Date] is built anew from its time
    value, primitives are shared. *)
Definition cloneValue (recur : loc -> M loc) (v : val) : M val :=
  match v with
  | VRef l => l' <- recur l ;; ret (VRef l')
  | _ => ret v
  end.

Definition cloneEntry (recur : loc -> M loc) (kv : string * val)
    : M (string * val) :=
  v' <- cloneValue recur kv.2 ;; ret (kv.1, v').

Fixpoint clone (fuel : nat) (l : loc) : M loc :=
  match fuel with
  | O => stuck
  | S n =>
      o <- getObj l ;;
      match o with
      | OObject props =>
          kvs <- mapM_ (cloneEntry (clone n)) (map_to_list props) ;;
          alloc (OObject (list_to_map kvs))
      | OArray elems =>
          elems' <- mapM_ (cloneValue (clone n)) elems ;;
          alloc (OArray elems')
      | ODate t => alloc (ODate t)
      end
  end.

Definition convertKnownValueToString (value : val) : M val :=
  if isBoolean value then s <- toString value ;; ret (VString s)
  else if isNumber value then s <- toString value ;; ret (VString s)
  else if isString value then ret value
  else
    msg <- reads (fun h => stringifyError h value) ;;
    throw (ThrownError ("Expected a string but received: " +:+ msg)).

(** The callback of [convertFromJsonArrayToStringArray]. *)
Definition elementFromJson (arr : val) (value : val) : M val :=
  if isNull value then
    msg <- reads (fun h => stringifyError h arr) ;;
    throw (ThrownString
      ("Expected a string[] from RedisJSON but received an array containing null: "
         +:+ msg))
  else s <- toString value ;; ret (VString s).

(** [array.map(...)] builds a new array. *)
Definition convertFromJsonArrayToStringArray (arr : val) (elems : list val)
    : M val :=
  strs <- mapM_ (elementFromJson arr) elems ;;
  l <- alloc (OArray strs) ;;
  ret (VRef l).

(** The callback of [convertArrayToStringArray]. *)
Definition elementToJson (arr : val) (value : val) : M val :=
  if isNull value then
    msg <- reads (fun h => stringifyError h arr) ;;
    throw (ThrownString
      ("Expected a string[] but received an array containing null: "
         +:+ msg))
  else if isUndefined value then
    msg <- reads (fun h => stringifyError h arr) ;;
    throw (ThrownString
      ("Expected a string[] but received an array containing undefined: "
         +:+ msg))
  else s <- toString value ;; ret (VString s).

Definition convertArrayToStringArray (arr : val) (elems : list val)
    : M val :=
  strs <- mapM_ (elementToJson arr) elems ;;
  l <- alloc (OArray strs) ;;
  ret (VRef l).

(** The elements of the array a value refers to. *)
Definition arrayElems (h : heap) (v : val) : option (list val) :=
  match v with
  | VRef l => match h !! l with Some (OArray elems) => Some elems | _ => None end
  | _ => None
  end.

(** The properties of the plain object a value refers to. *)
Definition objectProps (h : heap) (v : val) : option (gmap string val) :=
  match v with
  | VRef l => match h !! l with Some (OObject props) => Some props | _ => None end
  | _ => None
  end.

(** [isPoint(value)] looks at [value.longitude], [value.latitude] and
    the keys of [value]; it fails on whatever is not a plain object. *)
Definition isPoint (h : heap) (v : val) : bool :=
  match objectProps h v with
  | Some props => isPointObject props
  | None => false
  end.

Definition convertPointToString (h : heap) (v : val) : string :=
  match objectProps h v with
  | Some props => pointObjectToString props
  | None => EmptyString
  end.

(** The time value of the [Date] a value refers to. *)
Definition dateTime (h : heap) (v : val) : option number :=
  match v with
  | VRef l => match h !! l with Some (ODate t) => Some t | _ => None end
  | _ => None
  end.

Definition expected (what : string) (value : val) : M val :=
  msg <- reads (fun h => stringifyError h value) ;;
  throw (ThrownError ("Expected " +:+ what +:+ " but received: " +:+ msg)).

Definition convertKnownValueToJson (fieldType : FieldType) (value : val)
    : M val :=
  if isNull value then ret value
  else
    match fieldType with
    | TBoolean =>
        if isBoolean value then ret value else expected "a boolean" value
    | TNumber =>
        if isNumber value then ret value else expected "a number" value
    | TDate =>
        t <- reads (fun h => dateTime h value) ;;
        match t with
        | Some t => ret (VNumber (convertDateToEpoch t))
        | None =>
            match value with
            | VString s => ret (VNumber (convertIsoDateToEpoch s))
            | VNumber _ => ret value
            | _ => expected "a date" value
            end
        end
    | TPoint =>
        b <- reads (fun h => isPoint h value) ;;
        if b : bool then
          s <- reads (fun h => convertPointToString h value) ;;
          ret (VString s)
        else expected "a point" value
    | TString | TText => convertKnownValueToString value
    | TStringArray =>
        a <- reads (fun h => arrayElems h value) ;;
        match a with
        | Some elems => convertArrayToStringArray value elems
        | None => expected "a string[]" value
        end
    end.

Definition convertUnknownValueToJson (value : val) : M val :=
  t <- reads (fun h => dateTime h value) ;;
  match t with
  | Some t => ret (VNumber (convertDateToEpoch t))
  | None => ret value
  end.

Definition convertKnownResultToJson (fieldType : FieldType)
    (result : PathResult) : M unit :=
  if isDefined (value result) then
    v' <- convertKnownValueToJson fieldType (value result) ;;
    assign (parent result) (parentProperty result) v'
  else ret tt.

(** The callback run on the matches of a [string[]] field with many
    matches. *)
Definition knownStringToJson (result : PathResult) : M unit :=
  if isNull (value result) then
    msg <- reads (fun h => stringifyError h (parent result)) ;;
    throw (ThrownString
      ("Expected a string[] but received an array or object containing null: "
         +:+ msg))
  else
    isArr <- reads (fun h => isArray h (parent result)) ;;
    if isUndefined (value result) && isArr then
      msg <- reads (fun h => stringifyError h (parent result)) ;;
      throw (ThrownString
        ("Expected a string[] but received an array containing undefined: "
           +:+ msg))
    else if isDefined (value result) then
      v' <- convertKnownValueToString (value result) ;;
      assign (parent result) (parentProperty result) v'
    else ret tt.

Definition convertKnownResultsToJson (fieldType : FieldType) (path : string)
    (results : list PathResult) : M unit :=
  match fieldType with
  | TStringArray => forEach knownStringToJson results
  | _ =>
      throw (ThrownError
        ("Expected path to point to a single value but found many: "
           +:+ quote +:+ path +:+ quote))
  end.

(** The callback of [convertToRedisJsonKnown], run on every field. *)
Definition knownFieldToJson (json : loc) (field : string * FieldDefinition)
    : M unit :=
  let '(fieldName, fieldDef) := field in
  let type := type fieldDef in
  let path := pathOf fieldName fieldDef in
  results <- JSONPath path json ;;
  match results with
  | [] => ret tt
  | [result] => convertKnownResultToJson type result
  | _ => convertKnownResultsToJson type path results
  end.

Definition convertToRedisJsonKnown (schemaDef : SchemaDefinition)
    (json : loc) : M unit :=
  forEach (knownFieldToJson json) schemaDef.

(** The callback of [convertToRedisJsonUnknown], run on every entry. *)
Definition unknownEntryToJson (recur : loc -> M loc) (json : loc)
    (entry : propKey * val) : M unit :=
  let '(key, value) := entry in
  if isUndefined value then deleteProp json key
  else
    isObj <- reads (fun h => isObject h value) ;;
    match isObj, value with
    | true, VRef l =>
        l' <- recur l ;;
        setProp json key (VRef l')
    | _, _ =>
        v' <- convertUnknownValueToJson value ;;
        setProp json key v'
    end.

Fixpoint convertToRedisJsonUnknown (fuel : nat) (json : loc) : M loc :=
  match fuel with
  | O => stuck
  | S n =>
      entries <- objectEntries json ;;
      forEach (unknownEntryToJson (convertToRedisJsonUnknown n) json)
              entries ;;;
      ret json
  end.

Definition toRedisJson (fuel : nat) (schema : Schema) (data : loc) : M loc :=
  json <- clone fuel data ;;
  convertToRedisJsonKnown (definition schema) json ;;;
  convertToRedisJsonUnknown fuel json.

(** [new Date(time)] *)
Definition newDate (time : number) : M val :=
  l <- alloc (ODate time) ;; ret (VRef l).

(** The object literal [{ longitude, latitude }]. *)
Definition pointProps (p : number * number) : gmap string val :=
  <["longitude" := VNumber p.1]> (<["latitude" := VNumber p.2]> ∅).

Definition newPoint (p : number * number) : M val :=
  l <- alloc (OObject (pointProps p)) ;;
  ret (VRef l).

Definition convertKnownValueFromJson (fieldDef : FieldDefinition)
    (value : val) : M val :=
  if isNull value then ret value
  else
    match type fieldDef with
    | TBoolean =>
        if isBoolean value then ret value
        else expected
               "a value of true, false, or null from RedisJSON for a boolean"
               value
    | TNumber =>
        if isNumber value then ret value
        else expected "a number from RedisJSON" value
    | TDate =>
        match value with
        | VNumber n => newDate (convertEpochToDate n)
        | _ => expected
                 "a number containing a epoch date from RedisJSON" value
        end
    | TPoint =>
        match value with
        | VString s =>
            if isPointString s then newPoint (convertStringToPoint s)
            else expected "a point string from RedisJSON" value
        | _ => expected "a point string from RedisJSON" value
        end
    | TString | TText =>
        if isString value then ret value
        else if isBoolean value then s <- toString value ;; ret (VString s)
        else if isNumber value then s <- toString value ;; ret (VString s)
        else expected "a string from RedisJSON" value
    | TStringArray =>
        a <- reads (fun h => arrayElems h value) ;;
        match a with
        | Some elems => convertFromJsonArrayToStringArray value elems
        | None => expected "a string[] from RedisJSON" value
        end
    end.

(** The callback run on the matches of a [string[]] field with many
    matches. *)
Definition knownStringFromJson (result : PathResult) : M unit :=
  if isNull (value result) then
    msg <- reads (fun h => stringifyError h (parent result)) ;;
    throw (ThrownString
      ("Expected a string[] from RedisJSON but received an array or object containing null: "
         +:+ msg))
  else
    v' <- convertKnownValueToString (value result) ;;
    assign (parent result) (parentProperty result) v'.

(** The callback of [convertFromRedisJsonKnown], run on every field. *)
Definition knownFieldFromJson (data : loc) (field : string * FieldDefinition)
    : M unit :=
  let '(fieldName, fieldDef) := field in
  let path := pathOf fieldName fieldDef in
  results <- JSONPath path data ;;
  match results with
  | [] => ret tt
  | [result] =>
      v' <- convertKnownValueFromJson fieldDef (value result) ;;
      assign (parent result) (parentProperty result) v'
  | _ =>
      match type fieldDef with
      | TStringArray => forEach knownStringFromJson results
      | _ => ret tt
      end
  end.

Definition convertFromRedisJsonKnown (schemaDef : SchemaDefinition)
    (data : loc) : M unit :=
  forEach (knownFieldFromJson data) schemaDef.

Definition fromRedisJson (fuel : nat) (schema : Schema) (json : loc)
    : M loc :=
  data <- clone fuel json ;;
  convertFromRedisJsonKnown (definition schema) data ;;;
  ret data.
End Transcoder.

(** ** A stand-in for [transformer-common]

    Modelled from the spec: an implementation of the absent helpers over
    whole numbers, used to run the transcoder on examples.  A date is its
    time in milliseconds and is stored as "epoch value (seconds)", a point
    is stored as ["<lon>,<lat>"], booleans and numbers are "stringified".
    Fractions of a second and ISO dates are beyond this stand-in. *)
Module Sample.

Definition splitAtComma (s : string) : option (string * string) :=
  (fix go (acc s : string) : option (string * string) :=
     match s with
     | EmptyString => None
     | String c s' =>
         if Ascii.eqb c "," then Some (acc, s') else go (snoc acc c) s'
     end) EmptyString s.

Definition parseZ (s : string) : option Z :=
  match s with
  | EmptyString => None
  | String "-" EmptyString => None
  | String "-" s' => (fun n => (- Z.of_nat n)%Z) <$> digitsValue 0 s'
  | _ => Z.of_nat <$> digitsValue 0 s
  end.

Definition parsePoint (s : string) : option (Z * Z) :=
  '(a, b) ← splitAtComma s;
  lon ← parseZ a;
  lat ← parseZ b;
  Some (lon, lat).

Definition hasPointShape (props : gmap string (val_ Z)) : bool :=
  match props !! "longitude", props !! "latitude" with
  | Some (VNumber _), Some (VNumber _) => bool_decide (size props = 2)
  | _, _ => false
  end.

Definition pointToString (props : gmap string (val_ Z)) : string :=
  match props !! "longitude", props !! "latitude" with
  | Some (VNumber lon), Some (VNumber lat) =>
      pretty lon +:+ "," +:+ pretty lat
  | _, _ => EmptyString
  end.

Definition primitiveText (v : val_ Z) : string :=
  match v with
  | VUndefined => "undefined"
  | VNull => "null"
  | VBool b => if b then "true" else "false"
  | VNumber n => pretty n
  | VString s => quote +:+ s +:+ quote
  | VRef _ => "{...}"
  end.

Definition describe (h : gmap loc (obj_ Z)) (v : val_ Z) : string :=
  match v with
  | VRef l =>
      match h !! l with
      | Some (OArray elems) =>
          "[" +:+ String.concat "," (primitiveText <$> elems) +:+ "]"
      | Some (OObject props) =>
          "{" +:+ String.concat ","
                    ((fun kv => kv.1 +:+ ":" +:+ primitiveText kv.2)
                       <$> map_to_list props) +:+ "}"
      | Some (ODate t) => pretty t
      | None => EmptyString
      end
  | _ => primitiveText v
  end.

#[export] Instance helpers : TransformerCommon := {|
  number := Z;
  numberToString := pretty;
  convertDateToEpoch := fun t => (t / 1000)%Z;
  convertIsoDateToEpoch := fun _ => 0%Z;
  convertEpochToDate := fun s => (s * 1000)%Z;
  isPointObject := hasPointShape;
  pointObjectToString := pointToString;
  isPointString := fun s => bool_decide (is_Some (parsePoint s));
  convertStringToPoint := fun s => default (0%Z, 0%Z) (parsePoint s);
  objectToString := fun h l => describe h (VRef l);
  stringifyError := describe
|}.

(** Heaps for the examples: the objects at locations 1, 2, ... *)
Definition heapOf (objs : list (obj_ Z)) : gmap loc (obj_ Z) :=
  list_to_map (imap (fun i o => (Pos.of_succ_nat i, o)) objs).

Definition object (kvs : list (string * val_ Z)) : obj_ Z :=
  OObject (list_to_map kvs).

Definition field (name : string) (ty : FieldType) : string * FieldDefinition :=
  (name, {| type := ty; path := None |}).

Definition fieldAt (name : string) (ty : FieldType) (p : string)
    : string * FieldDefinition :=
  (name, {| type := ty; path := Some p |}).

(** What an observer sees of a value: the tree it unfolds to. *)
Inductive tree : Type :=
  | TUndefined | TNull | TBool (b : bool) | TNum (n : Z) | TStr (s : string)
  | TDateOf (t : Z)
  | TArr (elems : list tree)
  | TObj (props : list (string * tree))
  | TCut.

Fixpoint view (fuel : nat) (h : gmap loc (obj_ Z)) (v : val_ Z) : tree :=
  match fuel with
  | O => TCut
  | S n =>
      match v with
      | VUndefined => TUndefined
      | VNull => TNull
      | VBool b => TBool b
      | VNumber k => TNum k
      | VString s => TStr s
      | VRef l =>
          match h !! l with
          | Some (OObject props) =>
              TObj ((fun kv => (kv.1, view n h kv.2)) <$> map_to_list props)
          | Some (OArray elems) => TArr (view n h <$> elems)
          | Some (ODate t) => TDateOf t
          | None => TCut
          end
      end
  end.

(** Run a computation and look at what it returned. *)
Definition observe (m : M loc) (h : gmap loc (obj_ Z)) : outcome tree :=
  match m h with
  | (Ok l, h') => Ok (view 8 h' (VRef l))
  | (Throw e, _) => Throw e
  | (Stuck, _) => Stuck
  end.
End Sample.

(** ** The Redis shim: [hsetall]

    [hsetall] talks to the server through the client library node-redis.
    The embedding has the server as a store of hashes, the calling process
    as the list of requests it puts on the wire, and the rest of the world
    as a schedule: at every [await] other sessions get their commands in
    first and the awaited request is served, or it is rejected before it
    gets to the server, or it is served and rejected all the same because
    its reply does not come back. *)
Module RedisShim.

(** What node-redis throws: an [Error] with a [name]. *)
Record libError : Type := { name : string; message : string }.

(** What [hsetall] throws: the repository's own [RedisError] or the
    caught error as it came. *)
Inductive shimError : Type :=
  | RedisError (message : string)
  | Rethrown (error : libError).

Inductive command : Type :=
  | UNLINK (key : string)
  | HSET (key : string) (data : gmap string string).

Inductive request : Type :=
  | WATCH (key : string)
  | MULTI
  | QUEUED (c : command)
  | EXEC.

Inductive event : Type :=
  | Others (cs : list command)
  | Failure (e : libError)
  | Unanswered (cs : list command) (e : libError).

Record world : Type := {
  hashes : gmap string (gmap string string);
  (** keys watched by the isolated session *)
  watched : gset string;
  (** a watched key was written by another session *)
  dirty : bool;
  (** the requests sent so far, each with the session that sent it *)
  wire : list (nat * request);
  nextSession : nat;
  (** what happens at the awaits to come *)
  schedule : list event;
  (** the error with which a transaction is rejected when the server
      refused one of its commands *)
  refusal : libError
}.

Definition keyOf (c : command) : string :=
  match c with UNLINK k => k | HSET k _ => k end.

(** [HSET] without a field is rejected by the server. *)
Definition wellFormed (c : command) : bool :=
  match c with
  | UNLINK _ => true
  | HSET _ data => negb (bool_decide (data = ∅))
  end.

(** The effect of one command on the hashes: [UNLINK] removes the key,
    [HSET] sets the given fields and keeps the others. *)
Definition apply (c : command) (hs : gmap string (gmap string string))
    : gmap string (gmap string string) :=
  match c with
  | UNLINK k => delete k hs
  | HSET k data =>
      if wellFormed c then <[k := data ∪ default ∅ (hs !! k)]> hs else hs
  end.

Definition applyAll (cs : list command)
    (hs : gmap string (gmap string string))
    : gmap string (gmap string string) :=
  foldl (fun hs c => apply c hs) hs cs.

(** Whether a command changes what is at its key: [UNLINK] when there
    is a hash to remove, [HSET] when the server takes it. *)
Definition modifies (c : command) (hs : gmap string (gmap string string))
    : bool :=
  match c with
  | UNLINK k => bool_decide (is_Some (hs !! k))
  | HSET _ _ => wellFormed c
  end.

(** Whether one of the commands, run in order, changes a key of [ws]. *)
Fixpoint disturbs (ws : gset string) (cs : list command)
    (hs : gmap string (gmap string string)) : bool :=
  match cs with
  | [] => false
  | c :: cs' =>
      (bool_decide (keyOf c ∈ ws) && modifies c hs)
      || disturbs ws cs' (apply c hs)
  end.

(** The commands of other sessions: they take effect, and a watched key
    that one of them changes is from then on dirty. *)
Definition others (cs : list command) (w : world) : world :=
  {| hashes := applyAll cs (hashes w);
     watched := watched w;
     dirty := dirty w || disturbs (watched w) cs (hashes w);
     wire := wire w;
     nextSession := nextSession w;
     schedule := schedule w;
     refusal := refusal w |}.

Definition send (session : nat) (rs : list request) (w : world) : world :=
  {| hashes := hashes w;
     watched := watched w;
     dirty := dirty w;
     wire := wire w ++ ((fun r => (session, r)) <$> rs);
     nextSession := nextSession w;
     schedule := schedule w;
     refusal := refusal w |}.

Definition Client (A : Type) : Type := world -> (A + libError) * world.

(** Sequencing: a rejected [await] ends the [async] function. *)
Definition andThen {A B} (m : Client A) (k : A -> Client B) : Client B :=
  fun w =>
    match m w with
    | (inl a, w') => k a w'
    | (inr e, w') => (inr e, w')
    end.

(** [await request]: the next event of the schedule happens.  When the
    schedule is at its end the request is served and nothing else
    happens.  A request whose reply does not come back is served like any
    other, and what it did stays done. *)
Definition await {A} (request : Client A) : Client A := fun w =>
  let w' := {| hashes := hashes w; watched := watched w;
               dirty := dirty w; wire := wire w;
               nextSession := nextSession w;
               schedule := tail (schedule w);
               refusal := refusal w |} in
  match head (schedule w) with
  | None => request w'
  | Some (Others cs) => request (others cs w')
  | Some (Failure e) => (inr e, w')
  | Some (Unanswered cs e) => (inr e, (request (others cs w')).2)
  end.

(** [isolatedClient.watch(key)] *)
Definition watch (session : nat) (key : string) : Client unit :=
  await (fun w =>
    let w1 := send session [WATCH key] w in
    (inl tt,
     {| hashes := hashes w1; watched := {[key]} ∪ watched w1;
        dirty := dirty w1; wire := wire w1;
        nextSession := nextSession w1; schedule := schedule w1;
        refusal := refusal w1 |})).

(** The error of an aborted transaction: the library's [WatchError], a
    subclass of [Error] that gives itself no name of its own, so that its
    [name] is the one it inherits. *)
Definition watchError : libError :=
  {| name := "Error";
     message := "One (or more) of the watched keys has been changed" |}.

(** [multi()] and the commands chained on it build the queue; nothing
    is sent before [exec()]. *)
Definition multi : list command := [].
Definition unlink (key : string) (queue : list command) : list command :=
  queue ++ [UNLINK key].
Definition hSet (key : string) (data : gmap string string)
    (queue : list command) : list command :=
  queue ++ [HSET key data].

(** [exec()]: [MULTI], the queue and [EXEC] go out together.  The server
    runs the queue in one piece unless it refused a queued command or a
    watched key is dirty; either way the watches are gone afterwards. *)
Definition exec (session : nat) (queue : list command) : Client unit :=
  await (fun w =>
    let w1 := send session (MULTI :: (QUEUED <$> queue) ++ [EXEC]) w in
    let after (hs : gmap string (gmap string string)) : world :=
      {| hashes := hs; watched := ∅; dirty := false; wire := wire w1;
         nextSession := nextSession w1; schedule := schedule w1;
         refusal := refusal w1 |} in
    if forallb wellFormed queue
    then
      if dirty w1 then (inr watchError, after (hashes w1))
      else (inl tt, after (applyAll queue (hashes w1)))
    else (inr (refusal w1), after (hashes w1))).

(** [this.redis.executeIsolated(fn)]: [fn] runs on a session of its own. *)
Definition executeIsolated {A} (fn : nat -> Client A) : Client A :=
  fun w =>
    let session := nextSession w in
    fn session
      {| hashes := hashes w; watched := ∅; dirty := false; wire := wire w;
         nextSession := S session; schedule := schedule w;
         refusal := refusal w |}.

Definition hsetall (key : string) (data : gmap string string)
    (w : world) : (unit + shimError) * world :=
  match
    executeIsolated (fun isolatedClient =>
      andThen (watch isolatedClient key) (fun _ =>
      exec isolatedClient (hSet key data (unlink key multi)))) w
  with
  | (inl tt, w') => (inl tt, w')
  | (inr error, w') =>
      if String.eqb (name error) "WatchError"
      then (inr (RedisError "Watch error when setting HASH."), w')
      else (inr (Rethrown error), w')
  end.
End RedisShim.

(** ** The Redis shim: [unlink] and [hgetall]

    These two methods hand one command to the shared connection
    [this.redis], outside any transaction.  As at the awaits of
    [hsetall], what other sessions sent before gets to the server first,
    or the request is rejected; the command is seen by what it does to
    the hashes, respectively by what it reads from them. *)
Module SharedClient.
Import RedisShim.

(** [await this.redis.unlink(key)] *)
Definition unlink (key : string) : Client unit :=
  await (fun w =>
    (inl tt,
     {| hashes := apply (UNLINK key) (hashes w); watched := watched w;
        dirty := dirty w || disturbs (watched w) [UNLINK key] (hashes w);
        wire := wire w; nextSession := nextSession w;
        schedule := schedule w; refusal := refusal w |})).

(** [this.redis.hGetAll(key)]: the fields of the hash, none when there
    is no hash at the key. *)
Definition hgetall (key : string) : Client (gmap string string) :=
  await (fun w => (inl (default ∅ (hashes w !! key)), w)).
End SharedClient.

(** ** Documents and schemas for the examples *)
Module Examples.
Import Sample.

(** [{ a: [1, 2] }] and a field at [$.a[*]]. *)
Definition manyHeap : gmap loc (obj_ Z) :=
  heapOf [object [("a", VRef 2%positive)]; OArray [VNumber 1%Z; VNumber 2%Z]].

Definition manyField (ty : FieldType) : FieldDefinition :=
  {| type := ty; path := Some "$.a[*]" |}.

Definition manySchema (ty : FieldType) : Schema :=
  {| definition := [("f", manyField ty)] |}.

(** [{ a: [1, null] }] *)
Definition nullMatchHeap : gmap loc (obj_ Z) :=
  heapOf [object [("a", VRef 2%positive)]; OArray [VNumber 1%Z; VNull]].

(** [{ tags: null }], [{ tags: ["x", null] }] and [{ tags: [undefined, null] }]
    with the field [tags: string[]]. *)
Definition tagsField : FieldDefinition :=
  {| type := TStringArray; path := None |}.

Definition tagsSchema : Schema := {| definition := [("tags", tagsField)] |}.

Definition nullTagsHeap : gmap loc (obj_ Z) :=
  heapOf [object [("tags", VNull)]].

Definition nullElementHeap : gmap loc (obj_ Z) :=
  heapOf [object [("tags", VRef 2%positive)]; OArray [VString "x"; VNull]].

Definition undefinedElementHeap : gmap loc (obj_ Z) :=
  heapOf [object [("tags", VRef 2%positive)]; OArray [VUndefined; VNull]].

(** [{ f: new Date(1704067200000), g: undefined, n: 42 }] with the
    fields [f: date] and [n: string]. *)
Definition mixedHeap : gmap loc (obj_ Z) :=
  heapOf [object [("f", VRef 2%positive); ("g", VUndefined);
                  ("n", VNumber 42%Z)];
          ODate 1704067200000%Z].

Definition mixedSchema : Schema :=
  {| definition := [field "f" TDate; field "n" TString] |}.

(** [{ f: new Date(1704067200000) }], with the field [f: date] and a
    second field [g: date] whose path is that of [f]. *)
Definition dateHeap : gmap loc (obj_ Z) :=
  heapOf [object [("f", VRef 2%positive)]; ODate 1704067200000%Z].

Definition sharedSchema : Schema :=
  {| definition := [field "f" TDate; fieldAt "g" TDate "$.f"] |}.

(** [{ "a.b": new Date(1704067200000) }] with the field [a.b: date]. *)
Definition dottedHeap : gmap loc (obj_ Z) :=
  heapOf [object [("a.b", VRef 2%positive)]; ODate 1704067200000%Z].

Definition dottedSchema : Schema := {| definition := [field "a.b" TDate] |}.

Definition dateSchema : Schema := {| definition := [field "f" TDate] |}.

(** [{ f: 42 }] with the field [f: string]. *)
Definition numberHeap : gmap loc (obj_ Z) :=
  heapOf [object [("f", VNumber 42%Z)]].

Definition stringSchema : Schema := {| definition := [field "f" TString] |}.

(** Encode, then decode what came out. *)
Definition roundTrip (fuel : nat) (schema : Schema) (data : loc) : M loc :=
  json <- toRedisJson fuel schema data ;; fromRedisJson fuel schema json.

(** A server that holds the hash [{ old: "1", name: "a" }] at ["k"], and
    what a caller wants to put there. *)
Definition stored : gmap string string :=
  <["old" := "1"]> (<["name" := "a"]> ∅).

Definition fresher : gmap string string := <["name" := "b"]> ∅.

(** What the server of the examples says to a command it cannot take. *)
Definition refused : RedisShim.libError :=
  {| RedisShim.name := "ReplyError";
     RedisShim.message := "ERR wrong number of arguments" |}.

Definition server (events : list RedisShim.event) : RedisShim.world :=
  {| RedisShim.hashes := <["k" := stored]> ∅;
     RedisShim.watched := ∅;
     RedisShim.dirty := false;
     RedisShim.wire := [];
     RedisShim.nextSession := 1;
     RedisShim.schedule := events;
     RedisShim.refusal := refused |}.

Definition connectionLost : RedisShim.libError :=
  {| RedisShim.name := "SocketClosedUnexpectedlyError";
     RedisShim.message := "Socket closed unexpectedly" |}.
End Examples.

(** ** Documents and schemas for further examples *)
Module Cases.
Import Sample.

(** [{ f: 42 }] is taken for a boolean. *)
Definition booleanSchema : Schema := {| definition := [field "f" TBoolean] |}.

(** [{ tags: [1, undefined] }] and [{ tags: [1, true, "a"] }]. *)
Definition undefinedTagHeap : gmap loc (obj_ Z) :=
  heapOf [object [("tags", VRef 2%positive)];
          OArray [VNumber 1%Z; VUndefined]].

Definition mixedTagsHeap : gmap loc (obj_ Z) :=
  heapOf [object [("tags", VRef 2%positive)];
          OArray [VNumber 1%Z; VBool true; VString "a"]].

(** [{ f: undefined }] *)
Definition undefinedHeap : gmap loc (obj_ Z) :=
  heapOf [object [("f", VUndefined)]].

(** [{ a: [new Date(1704067200000), undefined] }] *)
Definition dateArrayHeap : gmap loc (obj_ Z) :=
  heapOf [object [("a", VRef 2%positive)];
          OArray [VRef 3%positive; VUndefined];
          ODate 1704067200000%Z].

(** [{ n: 7, a: { d: new Date(1704067200000), u: undefined } }] with the
    field [n: number]: the keys of [a] are not declared. *)
Definition nestedHeap : gmap loc (obj_ Z) :=
  heapOf [object [("n", VNumber 7%Z); ("a", VRef 2%positive)];
          object [("d", VRef 3%positive); ("u", VUndefined)];
          ODate 1704067200000%Z].

Definition numberSchema : Schema := {| definition := [field "n" TNumber] |}.

(** A server on which the key ["k"] has just been written and another
    session writes ["other"] next. *)
Definition busy : RedisShim.world :=
  {| RedisShim.hashes := <["k" := Examples.stored]> ∅;
     RedisShim.watched := ∅;
     RedisShim.dirty := false;
     RedisShim.wire := [];
     RedisShim.nextSession := 1;
     RedisShim.schedule :=
       [RedisShim.Others []; RedisShim.Others [];
        RedisShim.Others [RedisShim.HSET "other" Examples.stored]];
     RedisShim.refusal := Examples.refused |}.
End Cases.

(** * The vocabulary of the statements *)

Section Vocabulary.
Context `{TransformerCommon}.

(** ** Matches and messages *)

Definition manyMatchesMessage (path : string) : string :=
"Expected path to point to a single value but found many: "
  +:+ quote +:+ path +:+ quote.

(** The value held by [parent] under [key]. *)
Definition slot (h : heap) (parent : val) (key : propKey) : option val :=
match parent, key with
| VRef l, KName k =>
    match h !! l with Some (OObject props) => props !! k | _ => None end
| VRef l, KIndex i =>
    match h !! l with Some (OArray elems) => elems !! i | _ => None end
| _, _ => None
end.

(** A match is located when its parent holds its value under its key. *)
Definition located (h : heap) (r : PathResult) : Prop :=
slot h (parent r) (parentProperty r) = Some (value r).

(** An element whose [toString()] returns: it is neither [null] nor
  [undefined], and when it is an object there is a [toString] to call on
  it and on whatever is joined along with it. *)
Definition stringifiable (h : heap) (v : val) : Prop :=
match v with
| VUndefined | VNull => False
| VRef l => joins (S (size h)) h v = true
| _ => True
end.

(** ** Invariants of computations *)

(** A computation respects the invariant [inv] of the heap and, when it
  returns, returns something that satisfies [P]. *)
Definition respects {A} (inv : heap -> Prop) (P : A -> Prop) (m : M A) : Prop :=
forall h out h', inv h -> m h = (out, h') ->
  inv h' /\ forall a, out = Ok a -> P a.

(** ** Old and new objects *)

(** The values an object holds. *)
Definition holds (o : obj) (v : val) : Prop :=
match o with
| OObject props => exists k, props !! k = Some v
| OArray elems => v ∈ elems
| ODate _ => False
end.

(** What can be reached from a value by following references. *)
Inductive reachable (h : heap) : val -> loc -> Prop :=
| reachable_here l : reachable h (VRef l) l
| reachable_step l o v l' :
    h !! l = Some o -> holds o v -> reachable h v l' ->
    reachable h (VRef l) l'.

(** With [h0] the heap at the time of a call: the locations, values and
  objects that came after. *)
Definition isNew (h0 : heap) (l : loc) : Prop := h0 !! l = None.

Definition newVal (h0 : heap) (v : val) : Prop :=
match v with VRef l => isNew h0 l | _ => True end.

Definition newObj (h0 : heap) (o : obj) : Prop :=
forall v, holds o v -> newVal h0 v.

(** The invariant of a call: the objects of [h0] are as they were, and
  the objects made since refer to objects made since only. *)
Record inv (h0 h : heap) : Prop := {
inv_old : forall l o, h0 !! l = Some o -> h !! l = Some o;
inv_new : forall l o, isNew h0 l -> h !! l = Some o -> newObj h0 o
}.

(** Every object of [h] is in [h'] as it was. *)
Definition unchanged (h h' : heap) : Prop :=
forall l o, h !! l = Some o -> h' !! l = Some o.

(** The object [result] of [h'] and all it leads to did not exist in
  [h]. *)
Definition madeAnew (h h' : heap) (result : loc) : Prop :=
h !! result = None
/\ forall l, reachable h' (VRef result) l -> h !! l = None.

(** ** One key of one document *)

(** The document [root] is a plain object and what it has under [k]
  satisfies [Φ]. *)
Definition slotIs (root : loc) (k : string) (Φ : option val -> Prop)
  (h : heap) : Prop :=
exists props, h !! root = Some (OObject props) /\ Φ (props !! k).

(** The key [key] of [l] is not the key [k] of [root]. *)
Definition elsewhere (root : loc) (k : string) (l : loc) (key : propKey)
  : Prop :=
l = root -> key <> KName k.

(** A match that sits at the key [k] of [root] is [undefined]. *)
Definition harmless (root : loc) (k : string) (r : PathResult) : Prop :=
forall l, parent r = VRef l -> ~ elsewhere root k l (parentProperty r) ->
          value r = VUndefined.

(** The three states of the key. *)
Definition isUndefinedKey (root : loc) (k : string) : heap -> Prop :=
slotIs root k (fun o => o = Some VUndefined).
Definition isFadingKey (root : loc) (k : string) : heap -> Prop :=
slotIs root k (fun o => o = Some VUndefined \/ o = None).
Definition isAbsentKey (root : loc) (k : string) : heap -> Prop :=
slotIs root k (fun o => o = None).

(** ** The cleanup pass *)

(** What the cleanup pass may do to a key: leave it, take it away when
  it is [undefined], put the epoch in the place of a [Date]. *)
Definition cleaned (h : heap) (o o' : option val) : Prop :=
o' = o
\/ (o = Some VUndefined /\ o' = None)
\/ (exists v t, o = Some v /\ dateTime h v = Some t
               /\ o' = Some (VNumber (convertDateToEpoch t))).

(** What the cleanup pass makes of a key: an [undefined] is taken away,
  the epoch is put in the place of a [Date], anything else stays. *)
Definition cleanedKey (h : heap) (o : option val) : option val :=
match o with
| None | Some VUndefined => None
| Some v =>
    match dateTime h v with
    | Some t => Some (VNumber (convertDateToEpoch t))
    | None => Some v
    end
end.

Definition cleanedObject (h : heap) (o o' : obj) : Prop :=
match o, o' with
| OObject props, OObject props' =>
    forall k, cleaned h (props !! k) (props' !! k)
| OArray _, OArray _ => True
| ODate t, ODate t' => t = t'
| _, _ => False
end.

(** [h'] is [h] with some cleaning done. *)
Definition refines (h h' : heap) : Prop :=
forall l,
  match h !! l, h' !! l with
  | Some o, Some o' => cleanedObject h o o'
  | None, None => True
  | _, _ => False
  end.

(** An entry taken from the document when the pass began, seen at a
  later moment: the key has the value of the entry or what the pass
  makes of it. *)
Definition pending (h : heap) (json : loc) (key : propKey) (v : val) : Prop :=
match key with
| KName k =>
    exists props, h !! json = Some (OObject props)
                  /\ cleaned h (Some v) (props !! k)
| KIndex _ => True
end.

(** What the recursive call is known to do. *)
Definition tidy (recur : loc -> M loc) : Prop :=
forall l h out h', recur l h = (out, h') ->
  refines h h' /\ forall r, out = Ok r -> r = l.

(** A value that the pass leaves as it is: neither [undefined] nor a
  [Date]. *)
Definition cleanValue (h : heap) (v : val) : Prop :=
isUndefined v = false /\ dateTime h v = None.

(** A plain object all of whose keys have clean values. *)
Definition cleanObject (h : heap) (l : loc) : Prop :=
forall props k v,
  h !! l = Some (OObject props) -> props !! k = Some v -> cleanValue h v.

(** The objects reached from an object through keys whose values are
  plain objects. *)
Inductive objReachable (h : heap) : loc -> loc -> Prop :=
| objReachable_here l : objReachable h l l
| objReachable_step l props k l' l'' :
    h !! l = Some (OObject props) ->
    props !! k = Some (VRef l') ->
    isObject h (VRef l') = true ->
    objReachable h l' l'' ->
    objReachable h l l''.

Definition deepClean (h : heap) (l : loc) : Prop :=
forall l', objReachable h l l' -> cleanObject h l'.

(** The key [k] of the document is done with. *)
Definition settled (h : heap) (json : loc) (k : string) : Prop :=
forall props v,
  h !! json = Some (OObject props) -> props !! k = Some v ->
  cleanValue h v
  /\ forall c, v = VRef c -> isObject h v = true -> deepClean h c.

(** What the recursive call is known to leave behind. *)
Definition thorough (recur : loc -> M loc) : Prop :=
forall l h r h', recur l h = (Ok r, h') -> deepClean h' l.

(** ** The round trip *)

(** A plain property name: what may stand after [$.] in a path. *)
Definition plainName (f : string) : bool :=
  negb (isEmpty f) && allChars isNameChar f.

(** A field that does not bear on the key [f]: no path of its own, a plain
    name, and not [f]. *)
Definition unrelated (f : string) (field : string * FieldDefinition) : Prop :=
  path field.2 = None /\ plainName field.1 = true /\ field.1 <> f.

(** The path of the field finds, in a document whose one key is [f],
    that key and nothing else. *)
Definition findsKey (f : string) (field : string * FieldDefinition) : Prop :=
  forall (h : heap) json v,
    h !! json = Some (OObject {[f := v]}) ->
    resolve h (pathOf field.1 field.2) json
      = [ {| value := v; parent := VRef json; parentProperty := KName f |} ].

(** The path of the field finds nothing in a document whose one key is
    [f]. *)
Definition findsNothing (f : string) (field : string * FieldDefinition)
    : Prop :=
  forall (h : heap) json v,
    h !! json = Some (OObject {[f := v]}) ->
    resolve h (pathOf field.1 field.2) json = [].

(** The values of each declared type: a boolean, a number, a string, an
    array of strings, a [Date], a point that [isPoint] accepts. *)
Inductive applicationValue (h : heap) : FieldType -> val -> Prop :=
  | av_boolean b : applicationValue h TBoolean (VBool b)
  | av_number n : applicationValue h TNumber (VNumber n)
  | av_string s : applicationValue h TString (VString s)
  | av_text s : applicationValue h TText (VString s)
  | av_array a ss :
      h !! a = Some (OArray (VString <$> ss)) ->
      applicationValue h TStringArray (VRef a)
  | av_date d t :
      h !! d = Some (ODate t) ->
      applicationValue h TDate (VRef d)
  | av_point q lon lat :
      h !! q = Some (OObject (pointProps (lon, lat))) ->
      isPointObject (pointProps (lon, lat)) = true ->
      applicationValue h TPoint (VRef q).

(** Modelled from the spec: the helpers of [transformer-common] are not
    among the sources, and the spec has the stored form of a date keep it
    to the second and the stored form of a point keep its longitude and
    its latitude.  [storeKeeps h ty v] says so of the value [v]: the
    epoch of the date made from the epoch of a date is that epoch, and the
    string made of a point is a point string from which its longitude and
    latitude come back. *)
Definition storeKeeps (h : heap) (ty : FieldType) (v : val) : Prop :=
  match ty with
  | TDate =>
      forall t, dateTime h v = Some t ->
        convertDateToEpoch (convertEpochToDate (convertDateToEpoch t))
          = convertDateToEpoch t
  | TPoint =>
      forall lon lat, objectProps h v = Some (pointProps (lon, lat)) ->
        isPointString (pointObjectToString (pointProps (lon, lat))) = true
        /\ convertStringToPoint (pointObjectToString (pointProps (lon, lat)))
             = (lon, lat)
  | _ => True
  end.

(** [v'] in [h'] is observably [v] in [h]: the same boolean, number or
    string, an array of the same strings, a date of the same epoch, which
    is the date to the second, a point of the same longitude and
    latitude. *)
Inductive roundTripped (h h' : heap) : FieldType -> val -> val -> Prop :=
  | rt_boolean b : roundTripped h h' TBoolean (VBool b) (VBool b)
  | rt_number n : roundTripped h h' TNumber (VNumber n) (VNumber n)
  | rt_string s : roundTripped h h' TString (VString s) (VString s)
  | rt_text s : roundTripped h h' TText (VString s) (VString s)
  | rt_array a a' ss :
      h !! a = Some (OArray (VString <$> ss)) ->
      h' !! a' = Some (OArray (VString <$> ss)) ->
      roundTripped h h' TStringArray (VRef a) (VRef a')
  | rt_date d d' t t' :
      h !! d = Some (ODate t) ->
      h' !! d' = Some (ODate t') ->
      convertDateToEpoch t' = convertDateToEpoch t ->
      roundTripped h h' TDate (VRef d) (VRef d')
  | rt_point q q' lon lat :
      h !! q = Some (OObject (pointProps (lon, lat))) ->
      h' !! q' = Some (OObject (pointProps (lon, lat))) ->
      roundTripped h h' TPoint (VRef q) (VRef q').
End Vocabulary.

(** ** The wire *)

(** The five requests of [hsetall], all of one session. *)
Definition protocol (session : nat) (key : string) (data : gmap string string)
    : list (nat * RedisShim.request) :=
  [ (session, RedisShim.WATCH key); (session, RedisShim.MULTI);
    (session, RedisShim.QUEUED (RedisShim.UNLINK key));
    (session, RedisShim.QUEUED (RedisShim.HSET key data));
    (session, RedisShim.EXEC) ].

Definition isDelivery (ev : RedisShim.event) : bool :=
  match ev with RedisShim.Others _ => true | _ => false end.

(** The error an event rejects the awaited request with. *)
Definition rejection (ev : RedisShim.event) : option RedisShim.libError :=
  match ev with
  | RedisShim.Others _ => None
  | RedisShim.Failure e | RedisShim.Unanswered _ e => Some e
  end.

(** No request is rejected at the two awaits of [hsetall]. *)
Definition undisturbed (w : RedisShim.world) : Prop :=
  forallb isDelivery (take 2 (RedisShim.schedule w)) = true.

(** The commands of other sessions that get to the server while a call
    of [hsetall] is under way: those ahead of the watch and, unless the
    watch was rejected, those ahead of the transaction. *)
Definition delivered (w : RedisShim.world) : list RedisShim.command :=
  match RedisShim.schedule w with
  | RedisShim.Others cs1 :: RedisShim.Others cs2 :: _
  | RedisShim.Others cs1 :: RedisShim.Unanswered cs2 _ :: _ => cs1 ++ cs2
  | RedisShim.Others cs1 :: _ => cs1
  | RedisShim.Unanswered cs1 _ :: _ => cs1
  | _ => []
  end.

(** The commands of other sessions that come between the watch and the
    transaction. *)
Definition overtaking (w : RedisShim.world) : list RedisShim.command :=
  match RedisShim.schedule w with
  | _ :: RedisShim.Others cs2 :: _ => cs2
  | _ => []
  end.

(** The commands of other sessions that are ahead of the next request. *)
Definition ahead (w : RedisShim.world) : list RedisShim.command :=
  match RedisShim.schedule w with
  | RedisShim.Others cs :: _ => cs
  | _ => []
  end.

(** ** Shapes *)

Section Shapes.
Context `{TransformerCommon}.

(** The shapes other than [null] that [convertKnownValueToJson] takes
    for a field of each type. *)
Definition encoderAccepts (h : heap) (ty : FieldType) (v : val) : bool :=
  match ty with
  | TBoolean => isBoolean v
  | TNumber => isNumber v
  | TDate => isDate h v || isString v || isNumber v
  | TPoint => isPoint h v
  | TString | TText => isBoolean v || isNumber v || isString v
  | TStringArray => isArray h v
  end.

(** The head of the message of its type error. *)
Definition encoderMessage (ty : FieldType) : string :=
  match ty with
  | TBoolean => "Expected a boolean but received: "
  | TNumber => "Expected a number but received: "
  | TDate => "Expected a date but received: "
  | TPoint => "Expected a point but received: "
  | TString | TText => "Expected a string but received: "
  | TStringArray => "Expected a string[] but received: "
  end.

(** The shapes other than [null] that [convertKnownValueFromJson] takes. *)
Definition decoderAccepts (h : heap) (ty : FieldType) (v : val) : bool :=
  match ty with
  | TBoolean => isBoolean v
  | TNumber => isNumber v
  | TDate => isNumber v
  | TPoint => match v with VString s => isPointString s | _ => false end
  | TString | TText => isString v || isBoolean v || isNumber v
  | TStringArray => isArray h v
  end.

Definition decoderMessage (ty : FieldType) : string :=
  match ty with
  | TBoolean =>
      "Expected a value of true, false, or null from RedisJSON for a boolean but received: "
  | TNumber => "Expected a number from RedisJSON but received: "
  | TDate =>
      "Expected a number containing a epoch date from RedisJSON but received: "
  | TPoint => "Expected a point string from RedisJSON but received: "
  | TString | TText => "Expected a string from RedisJSON but received: "
  | TStringArray => "Expected a string[] from RedisJSON but received: "
  end.

(** What [value.toString()] returns; on [null] and [undefined] it does
    not return. *)
Definition stringOf (h : heap) (v : val) : string :=
  match v with
  | VBool b => booleanToString b
  | VNumber n => numberToString n
  | VString s => s
  | VRef l => objectToString h l
  | VUndefined | VNull => EmptyString
  end.

(** A boolean, a number or a string. *)
Definition isScalar (v : val) : bool :=
  isBoolean v || isNumber v || isString v.

(** The matches of a path that ends in the wildcard of the array [a]:
    the elements, each with the array as its parent and its index as its
    key. *)
Definition elementMatches (a : loc) (elems : list val) : list PathResult :=
  imap (fun i v => {| value := v; parent := VRef a;
                      parentProperty := KIndex i |}) elems.
End Shapes.

(** * Properties of the transcoder *)

Section TranscoderFacts.
Context `{TransformerCommon}.

(** ** Sequencing *)

Lemma bind_ok {A B} (m : M A) (k : A -> M B) (h h' : heap) a :
  m h = (Ok a, h') -> bind m k h = k a h'.
Proof. intros Hm. unfold bind. by rewrite Hm. Qed.

Lemma bind_throw {A B} (m : M A) (k : A -> M B) (h h' : heap) e :
  m h = (Throw e, h') -> bind m k h = (Throw e, h').
Proof. intros Hm. unfold bind. by rewrite Hm. Qed.

Lemma bind_stuck {A B} (m : M A) (k : A -> M B) (h h' : heap) :
  m h = (Stuck, h') -> bind m k h = (Stuck, h').
Proof. intros Hm. unfold bind. by rewrite Hm. Qed.

Lemma bind_ret {A B} (a : A) (k : A -> M B) (h : heap) :
  bind (ret a) k h = k a h.
Proof. done. Qed.

Lemma bind_reads {A B} (f : heap -> A) (k : A -> M B) (h : heap) :
  bind (reads f) k h = k (f h) h.
Proof. done. Qed.

(** The outcome of a sequence is [Ok] only if its first part is. *)
Lemma bind_inv_ok {A B} (m : M A) (k : A -> M B) (h h2 : heap) b :
  bind m k h = (Ok b, h2) ->
  exists a h1, m h = (Ok a, h1) /\ k a h1 = (Ok b, h2).
Proof.
  unfold bind. destruct (m h) as [[a|e|] h1]; try done. by exists a, h1.
Qed.

Lemma forEach_app {A} (f : A -> M unit) (l1 l2 : list A) (h : heap) :
  forEach f (l1 ++ l2) h =
    match forEach f l1 h with
    | (Ok _, h1) => forEach f l2 h1
    | other => other
    end.
Proof.
  revert h. induction l1 as [|a l1 IH]; intros h; simpl.
  - unfold ret. by destruct (forEach f l2 h).
  - unfold bind. destruct (f a h) as [[[]|e|] h']; auto.
Qed.

Lemma forEach_cons_ok {A} (f : A -> M unit) a l (h h1 : heap) :
  f a h = (Ok tt, h1) -> forEach f (a :: l) h = forEach f l h1.
Proof. intros Hf. simpl. unfold bind. by rewrite Hf. Qed.

Lemma forEach_cons_throw {A} (f : A -> M unit) a l (h h1 : heap) e :
  f a h = (Throw e, h1) -> forEach f (a :: l) h = (Throw e, h1).
Proof. intros Hf. simpl. unfold bind. by rewrite Hf. Qed.

Lemma forEach_cons_stuck {A} (f : A -> M unit) a l (h h1 : heap) :
  f a h = (Stuck, h1) -> forEach f (a :: l) h = (Stuck, h1).
Proof. intros Hf. simpl. unfold bind. by rewrite Hf. Qed.

(** ** What JSONPath hands back *)



Lemma entriesOf_slot (h : heap) l o key v :
  h !! l = Some o -> (key, v) ∈ entriesOf o -> slot h (VRef l) key = Some v.
Proof.
  intros Hl Hin. destruct o as [props|elems|t]; simpl in Hin.
  - apply list_elem_of_fmap in Hin as [[k v'] [Heq Hin]].
    simpl in Heq. injection Heq as -> ->.
    apply elem_of_map_to_list in Hin. simpl. by rewrite Hl.
  - apply elem_of_lookup_imap in Hin as (i & v' & Heq & Hi).
    injection Heq as -> ->. simpl. by rewrite Hl.
  - by apply elem_of_nil in Hin.
Qed.

Lemma trace_located (h : heap) expr v par prop r :
  slot h par prop = Some v ->
  r ∈ trace h expr v par prop -> located h r.
Proof.
  revert v par prop. induction expr as [|st x IH]; intros v par prop Hslot Hin.
  - simpl in Hin. apply list_elem_of_singleton in Hin as ->. done.
  - destruct st as [name|]; simpl in Hin.
    + destruct v as [| | | | |l]; try by apply elem_of_nil in Hin.
      destruct (h !! l) as [[props|elems|t]|] eqn:Hl;
        try by apply elem_of_nil in Hin.
      * destruct (props !! name) as [v'|] eqn:Hk;
          [|by apply elem_of_nil in Hin].
        eapply IH; [|done]. simpl. by rewrite Hl.
      * destruct (parseIndex name) as [i|]; [|by apply elem_of_nil in Hin].
        destruct (elems !! i) as [v'|] eqn:Hi;
          [|by apply elem_of_nil in Hin].
        eapply IH; [|done]. simpl. by rewrite Hl.
    + destruct v as [| | | | |l]; try by apply elem_of_nil in Hin.
      destruct (h !! l) as [o|] eqn:Hl; [|by apply elem_of_nil in Hin].
      apply list_elem_of_In, in_flat_map in Hin as [[key v'] [Hkv Hin]].
      apply list_elem_of_In in Hkv, Hin.
      eapply IH; [|done]. by eapply entriesOf_slot.
Qed.

(** Every match but the root itself is located. *)
Lemma resolve_located (h : heap) path json r :
  r ∈ resolve h path json ->
  located h r \/ (value r = VRef json /\ parent r = VNull).
Proof.
  unfold resolve. destruct (toPathArray path) as [expr|];
    [|by intros ?%elem_of_nil].
  destruct expr as [|st x].
  - simpl. intros ->%list_elem_of_singleton. by right.
  - intros Hin. left. destruct st as [name|]; simpl in Hin.
    + destruct (h !! json) as [[props|elems|t]|] eqn:Hl;
        try by apply elem_of_nil in Hin.
      * destruct (props !! name) as [v'|] eqn:Hk;
          [|by apply elem_of_nil in Hin].
        eapply trace_located; [|done]. simpl. by rewrite Hl.
      * destruct (parseIndex name) as [i|]; [|by apply elem_of_nil in Hin].
        destruct (elems !! i) as [v'|] eqn:Hi;
          [|by apply elem_of_nil in Hin].
        eapply trace_located; [|done]. simpl. by rewrite Hl.
    + destruct (h !! json) as [o|] eqn:Hl; [|by apply elem_of_nil in Hin].
      apply list_elem_of_In, in_flat_map in Hin as [[key v'] [Hkv Hin]].
      apply list_elem_of_In in Hkv, Hin.
      eapply trace_located; [|done]. by eapply entriesOf_slot.
Qed.

(** Writing back what is already there changes nothing. *)
Lemma assign_same (h : heap) par key v :
  slot h par key = Some v -> assign par key v h = (Ok tt, h).
Proof.
  destruct par as [| | | | |l]; try done. destruct key as [k|i]; simpl.
  - unfold setProp. destruct (h !! l) as [[props|elems|t]|] eqn:Hl; try done.
    intros Hk. by rewrite (insert_id props), (insert_id h).
  - unfold setProp. destruct (h !! l) as [[props|elems|t]|] eqn:Hl; try done.
    intros Hi. unfold arraySet.
    rewrite decide_True by (by eapply lookup_lt_Some).
    by rewrite list_insert_id, (insert_id h).
Qed.

(** ** Many matches for a field that is not a [string[]] *)


Lemma knownFieldToJson_many json fieldName fieldDef h r1 r2 rest :
  type fieldDef <> TStringArray ->
  resolve h (pathOf fieldName fieldDef) json = r1 :: r2 :: rest ->
  knownFieldToJson json (fieldName, fieldDef) h =
    (Throw (ThrownError (manyMatchesMessage (pathOf fieldName fieldDef))), h).
Proof.
  intros Hty Hres. unfold knownFieldToJson, JSONPath, reads, bind.
  rewrite Hres. unfold convertKnownResultsToJson.
  by destruct (type fieldDef).
Qed.

Lemma knownFieldFromJson_many data fieldName fieldDef h r1 r2 rest :
  type fieldDef <> TStringArray ->
  resolve h (pathOf fieldName fieldDef) data = r1 :: r2 :: rest ->
  knownFieldFromJson data (fieldName, fieldDef) h = (Ok tt, h).
Proof.
  intros Hty Hres. unfold knownFieldFromJson, JSONPath, reads, bind.
  rewrite Hres. by destruct (type fieldDef).
Qed.

(** C3.  Encoding stops at the first field that is not a [string[]] and
    whose path has more than one match when its turn comes: once the
    clone is made and the fields declared before it are converted,
    [toRedisJson] throws the error that quotes the path of the field, and
    returns no document. *)
Theorem toRedisJson_many_matches
    fuel schema data h fieldsBefore fieldName fieldDef fieldsAfter
    json h1 h2 r1 r2 rest :
  definition schema = fieldsBefore ++ (fieldName, fieldDef) :: fieldsAfter ->
  type fieldDef <> TStringArray ->
  clone fuel data h = (Ok json, h1) ->
  convertToRedisJsonKnown fieldsBefore json h1 = (Ok tt, h2) ->
  resolve h2 (pathOf fieldName fieldDef) json = r1 :: r2 :: rest ->
  toRedisJson fuel schema data h =
    (Throw (ThrownError (manyMatchesMessage (pathOf fieldName fieldDef))), h2).
Proof.
  intros Hdef Hty Hclone Hbefore Hres.
  unfold toRedisJson, bind. rewrite Hclone.
  unfold convertToRedisJsonKnown in *. rewrite Hdef, forEach_app, Hbefore.
  erewrite forEach_cons_throw; [done|].
  by eapply knownFieldToJson_many.
Qed.

(** C2 (amended).  Decoding skips a field that is not a [string[]] and
    whose path has more than one match when its turn comes: no error is
    raised, no match is rewritten, and decoding goes on with the fields
    declared after it on the document as it was. *)
Theorem fromRedisJson_many_matches_skipped
    data h fieldsBefore fieldName fieldDef fieldsAfter h1 r1 r2 rest :
  type fieldDef <> TStringArray ->
  convertFromRedisJsonKnown fieldsBefore data h = (Ok tt, h1) ->
  resolve h1 (pathOf fieldName fieldDef) data = r1 :: r2 :: rest ->
  knownFieldFromJson data (fieldName, fieldDef) h1 = (Ok tt, h1)
  /\ convertFromRedisJsonKnown
       (fieldsBefore ++ (fieldName, fieldDef) :: fieldsAfter) data h
     = convertFromRedisJsonKnown fieldsAfter data h1.
Proof.
  intros Hty Hbefore Hres.
  pose proof (knownFieldFromJson_many _ _ _ _ _ _ _ Hty Hres) as Hskip.
  split; [done|].
  unfold convertFromRedisJsonKnown in *.
  rewrite forEach_app, Hbefore. by erewrite forEach_cons_ok.
Qed.

(** ** [null] *)

Lemma convertKnownValueToJson_null fieldType (h : heap) :
  convertKnownValueToJson fieldType VNull h = (Ok VNull, h).
Proof. done. Qed.

Lemma convertKnownValueFromJson_null fieldDef (h : heap) :
  convertKnownValueFromJson fieldDef VNull h = (Ok VNull, h).
Proof. done. Qed.

(** C8.  A field of any type whose path has the single match [null]:
    the value conversion gives back [null] in both directions, encoding
    and decoding the field raise no error and leave the document as it
    is, with [null] still at the place of the match; the cleanup pass of
    the encoder leaves an entry that is [null] alone as well. *)
Theorem null_passes_through json fieldName fieldDef (h : heap) r :
  resolve h (pathOf fieldName fieldDef) json = [r] ->
  value r = VNull ->
  convertKnownValueToJson (type fieldDef) (value r) h = (Ok VNull, h)
  /\ convertKnownValueFromJson fieldDef (value r) h = (Ok VNull, h)
  /\ knownFieldToJson json (fieldName, fieldDef) h = (Ok tt, h)
  /\ knownFieldFromJson json (fieldName, fieldDef) h = (Ok tt, h)
  /\ slot h (parent r) (parentProperty r) = Some VNull
  /\ (forall recur owner,
        parent r = VRef owner ->
        unknownEntryToJson recur owner (parentProperty r, value r) h
          = (Ok tt, h)).
Proof.
  intros Hres Hnull.
  assert (located h r) as Hloc.
  { destruct (resolve_located h (pathOf fieldName fieldDef) json r) as [?|[Hv _]];
      [rewrite Hres; by apply list_elem_of_singleton|done|congruence]. }
  unfold located in Hloc. rewrite Hnull in *.
  split_and!; try done.
  - unfold knownFieldToJson, JSONPath, reads, bind. rewrite Hres.
    unfold convertKnownResultToJson. rewrite Hnull. simpl.
    by apply assign_same.
  - unfold knownFieldFromJson, JSONPath, reads, bind. rewrite Hres, Hnull.
    simpl. by apply assign_same.
  - intros recur owner Hpar. rewrite Hpar in Hloc.
    unfold unknownEntryToJson. simpl. unfold bind, reads. simpl.
    unfold convertUnknownValueToJson, bind, reads. simpl.
    by apply (assign_same h (VRef owner)).
Qed.

(** ** [null] where a [string[]] is expected *)

Lemma mapM__app_throw {A B} (f : A -> M B) pre x post (h h1 h2 : heap) bs e :
  mapM_ f pre h = (Ok bs, h1) ->
  f x h1 = (Throw e, h2) ->
  mapM_ f (pre ++ x :: post) h = (Throw e, h2).
Proof.
  revert h bs. induction pre as [|a pre IH]; intros h bs; simpl.
  - intros [= _ ->] Hx. by erewrite bind_throw.
  - intros (b & h' & Hfa & (bs' & h'' & Hpre & [= _ ->])%bind_inv_ok)%bind_inv_ok Hx.
    erewrite bind_ok by done. erewrite bind_throw; [done|]. by eapply IH.
Qed.

Lemma forEach_app_throw {A} (f : A -> M unit) pre x post (h h1 h2 : heap) e :
  forEach f pre h = (Ok tt, h1) ->
  f x h1 = (Throw e, h2) ->
  forEach f (pre ++ x :: post) h = (Throw e, h2).
Proof.
  intros Hpre Hx. rewrite forEach_app, Hpre. by erewrite forEach_cons_throw.
Qed.


(** [toString] reads the heap and leaves it as it is. *)
Lemma toString_heap v (h h' : heap) out :
  toString v h = (out, h') -> h' = h.
Proof.
  destruct v as [| | | | |l]; try by intros [= _ <-].
  unfold toString. destruct (h !! l); [|by intros [= _ <-]].
  destruct (joins (S (size h)) h (VRef l)); by intros [= _ <-].
Qed.

Lemma joins_lookup fuel (h : heap) l :
  joins fuel h (VRef l) = true -> is_Some (h !! l).
Proof. destruct fuel; simpl; by destruct (h !! l). Qed.

Lemma stringifiable_defined (h : heap) v :
  stringifiable h v -> isNull v = false /\ isUndefined v = false.
Proof. by destruct v. Qed.

Lemma toString_stringifiable v (h : heap) :
  stringifiable h v -> exists s, toString v h = (Ok s, h).
Proof.
  destruct v as [| | | | |l]; try done; try (by eexists).
  intros Hv. unfold toString.
  destruct (joins_lookup _ _ _ Hv) as [o ->].
  unfold stringifiable in Hv. rewrite Hv. by eexists.
Qed.

Lemma elementToJson_stringifiable arr pre (h : heap) :
  Forall (stringifiable h) pre ->
  exists strs, mapM_ (elementToJson arr) pre h = (Ok strs, h).
Proof.
  induction 1 as [|v pre Hv _ [strs IH]]; [by eexists|].
  destruct (toString_stringifiable v h Hv) as [s Hs].
  exists (VString s :: strs). simpl.
  erewrite bind_ok; [by erewrite bind_ok|].
  unfold elementToJson.
  destruct (stringifiable_defined h v Hv) as [-> ->]. by erewrite bind_ok.
Qed.

Lemma elementFromJson_stringifiable arr pre (h : heap) :
  Forall (stringifiable h) pre ->
  exists strs, mapM_ (elementFromJson arr) pre h = (Ok strs, h).
Proof.
  induction 1 as [|v pre Hv _ [strs IH]]; [by eexists|].
  destruct (toString_stringifiable v h Hv) as [s Hs].
  exists (VString s :: strs). simpl.
  erewrite bind_ok; [by erewrite bind_ok|].
  unfold elementFromJson.
  destruct (stringifiable_defined h v Hv) as [-> _]. by erewrite bind_ok.
Qed.

Lemma convertArrayToStringArray_null arr pre post (h : heap) :
  Forall (stringifiable h) pre ->
  convertArrayToStringArray arr (pre ++ VNull :: post) h =
    (Throw (ThrownString
       ("Expected a string[] but received an array containing null: "
          +:+ stringifyError h arr)), h).
Proof.
  intros Hpre. destruct (elementToJson_stringifiable arr pre h Hpre) as [strs Hs].
  unfold convertArrayToStringArray.
  erewrite bind_throw; [done|]. by eapply mapM__app_throw.
Qed.

Lemma convertFromJsonArrayToStringArray_null arr pre post (h : heap) :
  Forall (stringifiable h) pre ->
  convertFromJsonArrayToStringArray arr (pre ++ VNull :: post) h =
    (Throw (ThrownString
       ("Expected a string[] from RedisJSON but received an array containing null: "
          +:+ stringifyError h arr)), h).
Proof.
  intros Hpre. destruct (elementFromJson_stringifiable arr pre h Hpre) as [strs Hs].
  unfold convertFromJsonArrayToStringArray.
  erewrite bind_throw; [done|]. by eapply mapM__app_throw.
Qed.

(** A loop that ends well has run its callback well on every element. *)
Lemma forEach_ok_inv {A} (f : A -> M unit) l (h h' : heap) x :
  forEach f l h = (Ok tt, h') -> x ∈ l ->
  exists h1 h2, f x h1 = (Ok tt, h2).
Proof.
  revert h. induction l as [|a l IH]; intros h Hrun Hin;
    [by apply elem_of_nil in Hin|].
  simpl in Hrun. apply bind_inv_ok in Hrun as ([] & h1 & Ha & Hl).
  apply elem_of_cons in Hin as [->|Hin]; eauto.
Qed.

Lemma mapM__ok_inv {A B} (f : A -> M B) l (h h' : heap) bs x :
  mapM_ f l h = (Ok bs, h') -> x ∈ l ->
  exists h1 h2 b, f x h1 = (Ok b, h2).
Proof.
  revert h h' bs. induction l as [|a l IH]; intros h h' bs Hrun Hin;
    [by apply elem_of_nil in Hin|].
  simpl in Hrun. apply bind_inv_ok in Hrun as (b & h1 & Ha & Hl).
  apply bind_inv_ok in Hl as (bs' & h2 & Hl & _).
  apply elem_of_cons in Hin as [->|Hin]; [by eexists _, _, _|by eapply IH].
Qed.

Lemma convertArrayToStringArray_no_result arr elems (h h' : heap) v :
  VNull ∈ elems -> convertArrayToStringArray arr elems h <> (Ok v, h').
Proof.
  intros Hin Hrun. unfold convertArrayToStringArray in Hrun.
  apply bind_inv_ok in Hrun as (strs & h1 & Hrun & _).
  by destruct (mapM__ok_inv _ _ _ _ _ _ Hrun Hin) as (? & ? & ? & ?).
Qed.

Lemma convertFromJsonArrayToStringArray_no_result arr elems (h h' : heap) v :
  VNull ∈ elems -> convertFromJsonArrayToStringArray arr elems h <> (Ok v, h').
Proof.
  intros Hin Hrun. unfold convertFromJsonArrayToStringArray in Hrun.
  apply bind_inv_ok in Hrun as (strs & h1 & Hrun & _).
  by destruct (mapM__ok_inv _ _ _ _ _ _ Hrun Hin) as (? & ? & ? & ?).
Qed.

Lemma knownStringToJson_no_result results r (h h' : heap) :
  r ∈ results -> value r = VNull ->
  forEach knownStringToJson results h <> (Ok tt, h').
Proof.
  intros Hin Hnull Hrun.
  destruct (forEach_ok_inv _ _ _ _ _ Hrun Hin) as (h1 & h2 & Hr).
  unfold knownStringToJson in Hr. by rewrite Hnull in Hr.
Qed.

Lemma knownStringFromJson_no_result results r (h h' : heap) :
  r ∈ results -> value r = VNull ->
  forEach knownStringFromJson results h <> (Ok tt, h').
Proof.
  intros Hin Hnull Hrun.
  destruct (forEach_ok_inv _ _ _ _ _ Hrun Hin) as (h1 & h2 & Hr).
  unfold knownStringFromJson in Hr. by rewrite Hnull in Hr.
Qed.

(** C7 (amended).  A [string[]] field whose path has a single match that
    is an array with a [null] element, or more than one match with
    [null] among them, is converted in neither direction.  When all that
    stands before the first [null] converts, the error thrown is the one
    for [null], and it carries the rendering of the array, respectively of
    the parent of the match. *)
Theorem string_array_null_aborts json fieldName fieldDef (h : heap) :
  type fieldDef = TStringArray ->
  (forall r pre post,
      resolve h (pathOf fieldName fieldDef) json = [r] ->
      arrayElems h (value r) = Some (pre ++ VNull :: post) ->
      Forall (stringifiable h) pre ->
      knownFieldToJson json (fieldName, fieldDef) h =
        (Throw (ThrownString
           ("Expected a string[] but received an array containing null: "
              +:+ stringifyError h (value r))), h)
      /\ knownFieldFromJson json (fieldName, fieldDef) h =
        (Throw (ThrownString
           ("Expected a string[] from RedisJSON but received an array containing null: "
              +:+ stringifyError h (value r))), h))
  /\ (forall pre r post h1,
      resolve h (pathOf fieldName fieldDef) json = pre ++ r :: post ->
      1 < length (pre ++ r :: post) ->
      value r = VNull ->
      forEach knownStringToJson pre h = (Ok tt, h1) ->
      knownFieldToJson json (fieldName, fieldDef) h =
        (Throw (ThrownString
           ("Expected a string[] but received an array or object containing null: "
              +:+ stringifyError h1 (parent r))), h1))
  /\ (forall pre r post h1,
      resolve h (pathOf fieldName fieldDef) json = pre ++ r :: post ->
      1 < length (pre ++ r :: post) ->
      value r = VNull ->
      forEach knownStringFromJson pre h = (Ok tt, h1) ->
      knownFieldFromJson json (fieldName, fieldDef) h =
        (Throw (ThrownString
           ("Expected a string[] from RedisJSON but received an array or object containing null: "
              +:+ stringifyError h1 (parent r))), h1))
  /\ (forall r elems h',
      resolve h (pathOf fieldName fieldDef) json = [r] ->
      arrayElems h (value r) = Some elems ->
      VNull ∈ elems ->
      knownFieldToJson json (fieldName, fieldDef) h <> (Ok tt, h')
      /\ knownFieldFromJson json (fieldName, fieldDef) h <> (Ok tt, h'))
  /\ (forall r h',
      1 < length (resolve h (pathOf fieldName fieldDef) json) ->
      r ∈ resolve h (pathOf fieldName fieldDef) json ->
      value r = VNull ->
      knownFieldToJson json (fieldName, fieldDef) h <> (Ok tt, h')
      /\ knownFieldFromJson json (fieldName, fieldDef) h <> (Ok tt, h')).
Proof.
  intros Hty. split_and!.
  - intros r pre post Hres Helems Hpre.
    assert (isNull (value r) = false /\ isDefined (value r) = true) as [Hnn Hdef].
    { destruct (value r); done. }
    unfold knownFieldToJson, knownFieldFromJson, JSONPath.
    rewrite !bind_reads, Hres. split.
    + unfold convertKnownResultToJson. rewrite Hdef.
      erewrite bind_throw; [done|].
      unfold convertKnownValueToJson. rewrite Hnn, Hty, bind_reads, Helems.
      by apply convertArrayToStringArray_null.
    + erewrite bind_throw; [done|].
      unfold convertKnownValueFromJson. rewrite Hnn, Hty, bind_reads, Helems.
      by apply convertFromJsonArrayToStringArray_null.
  - intros pre r post h1 Hres Hlen Hnull Hpre.
    unfold knownFieldToJson, JSONPath. rewrite bind_reads, Hres.
    destruct (pre ++ r :: post) as [|r1 [|r2 rest]] eqn:Heq;
      [simpl in Hlen; lia..|].
    rewrite <- Heq. unfold convertKnownResultsToJson. rewrite Hty.
    eapply forEach_app_throw; [done|].
    unfold knownStringToJson. by rewrite Hnull.
  - intros pre r post h1 Hres Hlen Hnull Hpre.
    unfold knownFieldFromJson, JSONPath. rewrite bind_reads, Hres.
    destruct (pre ++ r :: post) as [|r1 [|r2 rest]] eqn:Heq;
      [simpl in Hlen; lia..|].
    rewrite <- Heq, Hty.
    eapply forEach_app_throw; [done|].
    unfold knownStringFromJson. by rewrite Hnull.
  - intros r elems h' Hres Helems Hin.
    assert (isNull (value r) = false /\ isDefined (value r) = true) as [Hnn Hdef].
    { destruct (value r); done. }
    unfold knownFieldToJson, knownFieldFromJson, JSONPath.
    rewrite !bind_reads, Hres. split.
    + unfold convertKnownResultToJson. rewrite Hdef.
      intros (v & h1 & Hrun & _)%bind_inv_ok. revert Hrun.
      unfold convertKnownValueToJson. rewrite Hnn, Hty, bind_reads, Helems.
      by apply convertArrayToStringArray_no_result.
    + intros (v & h1 & Hrun & _)%bind_inv_ok. revert Hrun.
      unfold convertKnownValueFromJson. rewrite Hnn, Hty, bind_reads, Helems.
      by apply convertFromJsonArrayToStringArray_no_result.
  - intros r h' Hlen Hin Hnull.
    unfold knownFieldToJson, knownFieldFromJson, JSONPath.
    rewrite !bind_reads.
    destruct (resolve h (pathOf fieldName fieldDef) json)
      as [|r1 [|r2 rest]] eqn:Heq; [simpl in Hlen; lia..|].
    unfold convertKnownResultsToJson. rewrite Hty. split.
    + by eapply knownStringToJson_no_result.
    + by eapply knownStringFromJson_no_result.
Qed.
End TranscoderFacts.

(** * Invariants of computations *)

Section Invariants.
Context `{TransformerCommon}.

(** A property of the heap that is to hold all along. *)
Variable inv : heap -> Prop.


Lemma respects_ret {A} (P : A -> Prop) a : P a -> respects inv P (ret a).
Proof. intros HP h out h' Hinv [= <- <-]. split; [done|]. by intros ? [= <-]. Qed.

Lemma respects_throw {A} (P : A -> Prop) e : respects inv P (throw e).
Proof. intros h out h' Hinv [= <- <-]. by split. Qed.

Lemma respects_stuck {A} (P : A -> Prop) : respects inv P stuck.
Proof. intros h out h' Hinv [= <- <-]. by split. Qed.

Lemma respects_reads {A} (P : A -> Prop) (f : heap -> A) :
  (forall h, inv h -> P (f h)) -> respects inv P (reads f).
Proof.
  intros HP h out h' Hinv [= <- <-]. split; [done|].
  intros ? [= <-]. by apply HP.
Qed.

Lemma respects_bind {A B} (P : A -> Prop) (Q : B -> Prop) m (k : A -> M B) :
  respects inv P m -> (forall a, P a -> respects inv Q (k a)) -> respects inv Q (bind m k).
Proof.
  intros Hm Hk h out h' Hinv. unfold bind.
  destruct (m h) as [[a|e|] h1] eqn:Hrun;
    destruct (Hm _ _ _ Hinv Hrun) as [Hinv1 HP].
  - intros Hka. eapply Hk; eauto.
  - intros [= <- <-]. by split.
  - intros [= <- <-]. by split.
Qed.

Lemma respects_weaken {A} (P Q : A -> Prop) m :
  respects inv P m -> (forall a, P a -> Q a) -> respects inv Q m.
Proof.
  intros Hm HPQ h out h' Hinv Hrun.
  destruct (Hm _ _ _ Hinv Hrun) as [? HP]. split; [done|]. eauto.
Qed.

Lemma respects_forEach {A} (f : A -> M unit) l :
  (forall a, a ∈ l -> respects inv (fun _ => True) (f a)) ->
  respects inv (fun _ => True) (forEach f l).
Proof.
  induction l as [|a l IH]; intros Hf; simpl.
  - by apply respects_ret.
  - eapply respects_bind; [apply Hf; by left|].
    intros _ _. apply IH. intros b Hb. apply Hf. by right.
Qed.

Lemma respects_mapM_ {A B} (P : B -> Prop) (f : A -> M B) l :
  (forall a, a ∈ l -> respects inv P (f a)) ->
  respects inv (Forall P) (mapM_ f l).
Proof.
  induction l as [|a l IH]; intros Hf; simpl.
  - by apply respects_ret.
  - eapply respects_bind; [apply Hf; by left|].
    intros b Hb. eapply respects_bind.
    + apply IH. intros c Hc. apply Hf. by right.
    + intros bs Hbs. apply respects_ret. by constructor.
Qed.
End Invariants.

(** * The caller's document is left alone *)

Section Frame.
Context `{TransformerCommon}.



(** [h0] is the heap at the time of the call. *)
Variable h0 : heap.





Lemma inv_start : (inv h0) h0.
Proof. split; [done|]. unfold isNew. congruence. Qed.

(** *** The primitive operations *)

Lemma inv_fresh h : (inv h0) h -> (isNew h0) (fresh (dom h)) /\ h !! fresh (dom h) = None.
Proof.
  intros Hinv. assert (h !! fresh (dom h) = None) as Hnone.
  { apply not_elem_of_dom, is_fresh. }
  split; [|done]. unfold isNew.
  destruct (h0 !! fresh (dom h)) as [o|] eqn:Hold; [|done].
  apply (inv_old _ _ Hinv) in Hold. congruence.
Qed.

Lemma respects_alloc o : (newObj h0) o -> respects (inv h0) (isNew h0) (alloc o).
Proof.
  intros Ho h out h' Hinv [= <- <-].
  destruct (inv_fresh h Hinv) as [Hnew Hnone]. split.
  - split.
    + intros l o' Hl. rewrite lookup_insert_ne; [by apply (inv_old _ _ Hinv)|].
      intros <-. unfold isNew in Hnew. congruence.
    + intros l o' Hl. rewrite lookup_insert. case_decide as Heq.
      * by intros [= <-].
      * by apply (inv_new _ _ Hinv).
  - by intros ? [= <-].
Qed.

Lemma respects_getObj l : (isNew h0) l -> respects (inv h0) (newObj h0) (getObj l).
Proof.
  intros Hl h out h' Hinv. unfold getObj.
  destruct (h !! l) as [o|] eqn:Hlook; intros [= <- <-]; (split; [done|]);
    intros ? [= <-]. by eapply (inv_new _ _ Hinv).
Qed.

(** Reading an object of any age. *)
Lemma respects_getObj_any l : respects (inv h0) (fun _ => True) (getObj l).
Proof.
  intros h out h' Hinv. unfold getObj.
  destruct (h !! l) as [o|]; intros [= <- <-]; by split.
Qed.

Lemma inv_update (h : heap) l o :
  (inv h0) h -> (isNew h0) l -> (newObj h0) o -> (inv h0) (<[l := o]> h).
Proof.
  intros Hinv Hl Ho. split.
  - intros l' o' Hl'. rewrite lookup_insert_ne; [by apply (inv_old _ _ Hinv)|].
    intros <-. unfold isNew in Hl. congruence.
  - intros l' o' Hl'. rewrite lookup_insert. case_decide.
    + by intros [= <-].
    + by apply (inv_new _ _ Hinv).
Qed.

Lemma holds_arraySet elems i x v :
  holds (OArray (arraySet elems i x)) v ->
  v = x \/ v = VUndefined \/ holds (OArray elems) v.
Proof.
  unfold arraySet. simpl. case_decide.
  - intros (j & Hj)%list_elem_of_lookup.
    destruct (decide (i = j)) as [<-|Hne].
    + rewrite list_lookup_insert_eq in Hj by done. left. congruence.
    + rewrite list_lookup_insert_ne in Hj by done.
      right; right. by eapply list_elem_of_lookup_2.
  - rewrite !elem_of_app. intros [?|[(-> & _)%elem_of_replicate|?%list_elem_of_singleton]];
      auto.
Qed.

Lemma respects_setProp l key x :
  (isNew h0) l -> (newVal h0) x -> respects (inv h0) (fun _ => True) (setProp l key x).
Proof.
  intros Hl Hx h out h' Hinv. unfold setProp.
  destruct (h !! l) as [[props|elems|t]|] eqn:Hlook; destruct key as [k|i];
    intros [= <- <-]; (split; [|done]); try done.
  - apply inv_update; [done..|]. intros v [k' Hk'].
    rewrite lookup_insert in Hk'. case_decide.
    + by injection Hk' as <-.
    + eapply (inv_new _ _ Hinv); [done..|]. by exists k'.
  - apply inv_update; [done..|].
    intros v [->|[->|Hv]]%holds_arraySet; [done..|].
    by eapply (inv_new _ _ Hinv).
Qed.

Lemma respects_deleteProp l key :
  (isNew h0) l -> respects (inv h0) (fun _ => True) (deleteProp l key).
Proof.
  intros Hl h out h' Hinv. unfold deleteProp.
  destruct (h !! l) as [[props|elems|t]|] eqn:Hlook; destruct key as [k|i];
    intros [= <- <-]; (split; [|done]); try done.
  - apply inv_update; [done..|]. intros v [k' Hk'].
    apply lookup_delete_Some in Hk' as [_ Hk'].
    eapply (inv_new _ _ Hinv); [done..|]. by exists k'.
  - apply inv_update; [done..|]. simpl.
    intros v (j & Hj)%list_elem_of_lookup.
    destruct (decide (i = j)) as [<-|Hne].
    + apply list_lookup_insert_Some in Hj as [(_ & <- & _)|[? _]]; done.
    + rewrite list_lookup_insert_ne in Hj by done.
      eapply (inv_new _ _ Hinv); [done..|]. by eapply list_elem_of_lookup_2.
Qed.

Lemma respects_assign par key x :
  (newVal h0) par -> (newVal h0) x -> respects (inv h0) (fun _ => True) (assign par key x).
Proof.
  intros Hpar Hx. destruct par; try apply respects_throw.
  by apply respects_setProp.
Qed.

Lemma entriesOf_holds o key v : (key, v) ∈ entriesOf o -> holds o v.
Proof.
  destruct o as [props|elems|t]; simpl.
  - intros [[k v'] [[= -> ->] Hin%elem_of_map_to_list]]%list_elem_of_fmap.
    by exists k.
  - intros (i & v' & [= -> ->] & Hi)%elem_of_lookup_imap.
    by eapply list_elem_of_lookup_2.
  - by intros ?%elem_of_nil.
Qed.

(** *** JSONPath *)

Lemma trace_new (h : heap) expr v par prop r :
  (inv h0) h -> (newVal h0) v -> (newVal h0) par ->
  r ∈ trace h expr v par prop -> (newVal h0) (value r) /\ (newVal h0) (parent r).
Proof.
  intros Hinv. revert v par prop.
  induction expr as [|st x IH]; intros v par prop Hv Hpar Hin.
  - simpl in Hin. by apply list_elem_of_singleton in Hin as ->.
  - destruct st as [name|]; simpl in Hin;
      (destruct v as [| | | | |l]; try by apply elem_of_nil in Hin);
      (destruct (h !! l) as [o|] eqn:Hl; [|by apply elem_of_nil in Hin]).
    + destruct o as [props|elems|t]; try by apply elem_of_nil in Hin.
      * destruct (props !! name) as [v'|] eqn:Hk;
          [|by apply elem_of_nil in Hin].
        refine (IH v' (VRef l) _ _ Hv Hin).
        eapply (inv_new _ _ Hinv); [done..|]. by exists name.
      * destruct (parseIndex name) as [i|]; [|by apply elem_of_nil in Hin].
        destruct (elems !! i) as [v'|] eqn:Hi;
          [|by apply elem_of_nil in Hin].
        refine (IH v' (VRef l) _ _ Hv Hin).
        eapply (inv_new _ _ Hinv); [done..|].
        by eapply list_elem_of_lookup_2.
    + apply list_elem_of_In, in_flat_map in Hin as [[key v'] [Hkv Hin]].
      apply list_elem_of_In in Hkv, Hin.
      refine (IH v' (VRef l) _ _ Hv Hin).
      eapply (inv_new _ _ Hinv); [done..|].
      by eapply entriesOf_holds.
Qed.

Lemma respects_JSONPath path json :
  (isNew h0) json ->
  respects (inv h0) (Forall (fun r => (newVal h0) (value r) /\ (newVal h0) (parent r)))
           (JSONPath path json).
Proof.
  intros Hjson. apply respects_reads. intros h Hinv.
  apply Forall_forall. intros r Hin. unfold resolve in Hin.
  destruct (toPathArray path) as [expr|]; [|by apply elem_of_nil in Hin].
  by apply (trace_new h expr (VRef json) VNull (KName "null")).
Qed.

(** *** The copy *)

Lemma respects_clone fuel l : respects (inv h0) (isNew h0) (clone fuel l).
Proof.
  revert l. induction fuel as [|n IH]; intros l; simpl;
    [apply respects_stuck|].
  assert (forall v : val, respects (inv h0) (newVal h0) (cloneValue (clone n) v)) as Hvalue.
  { intros v. destruct v; try by apply respects_ret.
    eapply respects_bind; [apply IH|]. intros l' Hl'. by apply respects_ret. }
  eapply respects_bind; [apply respects_getObj_any|]. intros o _.
  destruct o as [props|elems|t].
  - eapply respects_bind.
    + apply (respects_mapM_ _ (fun kv : string * val => (newVal h0) kv.2)).
      intros kv _. eapply respects_bind; [apply Hvalue|].
      intros v' Hv'. by apply respects_ret.
    + intros kvs Hkvs. apply respects_alloc. intros v [k Hk].
      apply elem_of_list_to_map_2 in Hk.
      by apply (proj1 (Forall_forall _ _) Hkvs) in Hk.
  - eapply respects_bind; [apply respects_mapM_; intros; apply Hvalue|].
    intros elems' Helems. apply respects_alloc. intros v Hv.
    by apply (proj1 (Forall_forall _ _) Helems) in Hv.
  - apply respects_alloc. by intros v [].
Qed.

(** *** The conversions *)

Ltac respects_go :=
  repeat first
    [ apply respects_ret; try done
    | apply respects_throw
    | apply respects_stuck
    | eapply (respects_bind _ (fun _ => True));
        [apply respects_reads; intros; exact I|]; intros ? _
    | progress intros ].

Lemma respects_toString v : respects (inv h0) (fun _ => True) (toString v).
Proof.
  intros h out h' Hinv Hrun. by rewrite (toString_heap _ _ _ _ Hrun).
Qed.

Lemma respects_stringify {A} (P : A -> Prop) (f : heap -> string)
    (k : string -> exn) :
  respects (inv h0) P (msg <- reads f ;; throw (k msg)).
Proof. respects_go. Qed.

Lemma respects_expected what v : respects (inv h0) (newVal h0) (expected what v).
Proof. apply respects_stringify. Qed.

Lemma respects_convertKnownValueToString v :
  respects (inv h0) (newVal h0) (convertKnownValueToString v).
Proof.
  unfold convertKnownValueToString.
  destruct v; simpl; try apply respects_stringify; respects_go.
Qed.

Lemma respects_newArray (strs : list val) :
  Forall (newVal h0) strs ->
  respects (inv h0) (newVal h0) (l <- alloc (OArray strs) ;; ret (VRef l)).
Proof.
  intros Hstrs. eapply respects_bind.
  - apply respects_alloc. intros v Hv.
    by apply (proj1 (Forall_forall _ _) Hstrs) in Hv.
  - intros l Hl. by apply respects_ret.
Qed.

Lemma respects_elementToJson arr v : respects (inv h0) (newVal h0) (elementToJson arr v).
Proof.
  unfold elementToJson.
  destruct (isNull v); [apply respects_stringify|].
  destruct (isUndefined v); [apply respects_stringify|].
  eapply respects_bind; [apply respects_toString|]. respects_go.
Qed.

Lemma respects_elementFromJson arr v : respects (inv h0) (newVal h0) (elementFromJson arr v).
Proof.
  unfold elementFromJson.
  destruct (isNull v); [apply respects_stringify|].
  eapply respects_bind; [apply respects_toString|]. respects_go.
Qed.

Lemma respects_convertArrayToStringArray arr elems :
  respects (inv h0) (newVal h0) (convertArrayToStringArray arr elems).
Proof.
  eapply respects_bind;
    [apply respects_mapM_; intros; apply respects_elementToJson|].
  intros strs Hstrs. by apply respects_newArray.
Qed.

Lemma respects_convertFromJsonArrayToStringArray arr elems :
  respects (inv h0) (newVal h0) (convertFromJsonArrayToStringArray arr elems).
Proof.
  eapply respects_bind;
    [apply respects_mapM_; intros; apply respects_elementFromJson|].
  intros strs Hstrs. by apply respects_newArray.
Qed.

Lemma respects_convertKnownValueToJson fieldType v :
  (newVal h0) v -> respects (inv h0) (newVal h0) (convertKnownValueToJson fieldType v).
Proof.
  intros Hv. unfold convertKnownValueToJson.
  destruct (isNull v); [by apply respects_ret|].
  destruct fieldType.
  - destruct (isBoolean v); [by apply respects_ret|apply respects_expected].
  - destruct (isNumber v); [by apply respects_ret|apply respects_expected].
  - respects_go. destruct a; [by apply respects_ret|].
    destruct v; try apply respects_expected; by apply respects_ret.
  - respects_go. destruct a; [|apply respects_expected]. respects_go.
  - apply respects_convertKnownValueToString.
  - apply respects_convertKnownValueToString.
  - respects_go. destruct a; [|apply respects_expected].
    apply respects_convertArrayToStringArray.
Qed.

Lemma respects_convertUnknownValueToJson v :
  (newVal h0) v -> respects (inv h0) (newVal h0) (convertUnknownValueToJson v).
Proof.
  intros Hv. unfold convertUnknownValueToJson. respects_go.
  destruct a; by apply respects_ret.
Qed.

Lemma respects_newDate t : respects (inv h0) (newVal h0) (newDate t).
Proof.
  eapply respects_bind; [apply respects_alloc; by intros v []|].
  intros l Hl. by apply respects_ret.
Qed.

Lemma respects_newPoint p : respects (inv h0) (newVal h0) (newPoint p).
Proof.
  eapply respects_bind.
  - apply respects_alloc. intros v [k Hk]. unfold pointProps in Hk.
    rewrite lookup_insert in Hk. case_decide; [by injection Hk as <-|].
    rewrite lookup_insert in Hk. case_decide; [by injection Hk as <-|].
    by rewrite lookup_empty in Hk.
  - intros l Hl. by apply respects_ret.
Qed.

Lemma respects_convertKnownValueFromJson fieldDef v :
  (newVal h0) v -> respects (inv h0) (newVal h0) (convertKnownValueFromJson fieldDef v).
Proof.
  intros Hv. unfold convertKnownValueFromJson.
  destruct (isNull v); [by apply respects_ret|].
  destruct (type fieldDef).
  - destruct (isBoolean v); [by apply respects_ret|apply respects_expected].
  - destruct (isNumber v); [by apply respects_ret|apply respects_expected].
  - destruct v; try apply respects_expected. apply respects_newDate.
  - destruct v; try apply respects_expected.
    destruct (isPointString s); [apply respects_newPoint|apply respects_expected].
  - destruct v; simpl; try apply respects_expected; respects_go.
  - destruct v; simpl; try apply respects_expected; respects_go.
  - respects_go. destruct a; [|apply respects_expected].
    apply respects_convertFromJsonArrayToStringArray.
Qed.

Lemma respects_convertKnownResultToJson fieldType r :
  (newVal h0) (value r) -> (newVal h0) (parent r) ->
  respects (inv h0) (fun _ => True) (convertKnownResultToJson fieldType r).
Proof.
  intros Hv Hpar. unfold convertKnownResultToJson.
  destruct (isDefined (value r)); [|by apply respects_ret].
  eapply respects_bind; [by apply respects_convertKnownValueToJson|].
  intros v' Hv'. by apply respects_assign.
Qed.

Lemma respects_knownStringToJson r :
  (newVal h0) (parent r) -> respects (inv h0) (fun _ => True) (knownStringToJson r).
Proof.
  intros Hpar. unfold knownStringToJson.
  destruct (isNull (value r)); [apply respects_stringify|].
  respects_go. destruct (isUndefined (value r) && a);
    [apply respects_stringify|].
  destruct (isDefined (value r)); [|by apply respects_ret].
  eapply respects_bind; [by apply respects_convertKnownValueToString|].
  intros v' Hv'. by apply respects_assign.
Qed.

Lemma respects_knownStringFromJson r :
  (newVal h0) (parent r) -> respects (inv h0) (fun _ => True) (knownStringFromJson r).
Proof.
  intros Hpar. unfold knownStringFromJson.
  destruct (isNull (value r)); [apply respects_stringify|].
  eapply respects_bind; [by apply respects_convertKnownValueToString|].
  intros v' Hv'. by apply respects_assign.
Qed.

Lemma respects_knownFieldToJson json field :
  (isNew h0) json -> respects (inv h0) (fun _ => True) (knownFieldToJson json field).
Proof.
  intros Hjson. destruct field as [fieldName fieldDef].
  unfold knownFieldToJson.
  eapply respects_bind; [by apply respects_JSONPath|].
  intros results Hres. destruct results as [|r1 [|r2 rest]].
  - by apply respects_ret.
  - apply Forall_inv in Hres as [??].
    by apply respects_convertKnownResultToJson.
  - unfold convertKnownResultsToJson.
    destruct (type fieldDef); try apply respects_throw.
    apply respects_forEach. intros r Hr.
    apply (proj1 (Forall_forall _ _) Hres) in Hr as [??].
    by apply respects_knownStringToJson.
Qed.

Lemma respects_knownFieldFromJson data field :
  (isNew h0) data -> respects (inv h0) (fun _ => True) (knownFieldFromJson data field).
Proof.
  intros Hdata. destruct field as [fieldName fieldDef].
  unfold knownFieldFromJson.
  eapply respects_bind; [by apply respects_JSONPath|].
  intros results Hres. destruct results as [|r1 [|r2 rest]].
  - by apply respects_ret.
  - apply Forall_inv in Hres as [??].
    eapply respects_bind; [by apply respects_convertKnownValueFromJson|].
    intros v' Hv'. by apply respects_assign.
  - destruct (type fieldDef); try by apply respects_ret.
    apply respects_forEach. intros r Hr.
    apply (proj1 (Forall_forall _ _) Hres) in Hr as [??].
    by apply respects_knownStringFromJson.
Qed.

Lemma respects_convertToRedisJsonUnknown fuel json :
  (isNew h0) json -> respects (inv h0) (isNew h0) (convertToRedisJsonUnknown fuel json).
Proof.
  revert json. induction fuel as [|n IH]; intros json Hjson; simpl;
    [apply respects_stuck|].
  eapply respects_bind.
  { eapply respects_bind; [by apply respects_getObj|].
    intros o Ho. apply (respects_ret _ (Forall (fun kv : propKey * val => (newVal h0) kv.2))).
    apply Forall_forall. intros [key v] Hin. apply Ho.
    by eapply entriesOf_holds. }
  intros entries Hentries. eapply respects_bind; [|intros; by apply respects_ret].
  apply respects_forEach. intros [key v] Hin.
  apply (proj1 (Forall_forall _ _) Hentries) in Hin. simpl in Hin.
  unfold unknownEntryToJson.
  destruct (isUndefined v); [by apply respects_deleteProp|].
  respects_go. destruct a, v;
    try (eapply respects_bind; [by apply respects_convertUnknownValueToJson|];
         intros; by apply respects_setProp).
  eapply respects_bind; [by apply IH|].
  intros l' Hl'. by apply respects_setProp.
Qed.

Lemma respects_toRedisJson fuel schema data :
  respects (inv h0) (isNew h0) (toRedisJson fuel schema data).
Proof.
  eapply respects_bind; [apply respects_clone|]. intros json Hjson.
  eapply respects_bind; [|intros; by apply respects_convertToRedisJsonUnknown].
  apply respects_forEach. intros; by apply respects_knownFieldToJson.
Qed.

Lemma respects_fromRedisJson fuel schema json :
  respects (inv h0) (isNew h0) (fromRedisJson fuel schema json).
Proof.
  eapply respects_bind; [apply respects_clone|]. intros data Hdata.
  eapply respects_bind; [|intros; by apply respects_ret].
  apply respects_forEach. intros; by apply respects_knownFieldFromJson.
Qed.

(** Under the invariant, what is reached from a new object is new. *)
Lemma reachable_new (h : heap) v l :
  (inv h0) h -> reachable h v l -> (newVal h0) v -> (isNew h0) l.
Proof.
  intros Hinv. induction 1 as [l|l o v l' Hl Hv _ IH]; [done|].
  intros Hnew. apply IH. by eapply (inv_new _ _ Hinv).
Qed.
End Frame.

Section NoMutation.
Context `{TransformerCommon}.



Lemma respects_conclusion (h : heap) (m : M loc) out h' :
  respects (inv h) (isNew h) m -> m h = (out, h') ->
  unchanged h h' /\ forall result, out = Ok result -> madeAnew h h' result.
Proof.
  intros Hm Hrun. destruct (Hm _ _ _ (inv_start h) Hrun) as [Hinv Hout].
  split; [exact (inv_old _ _ Hinv)|].
  intros result ->. specialize (Hout _ eq_refl). split; [done|].
  intros l Hreach. by eapply reachable_new.
Qed.

(** C9.  Whatever [toRedisJson] and [fromRedisJson] do, return or throw,
    every object that existed before the call is afterwards as it was;
    the document they return is an object made during the call, and so is
    every object it leads to. *)
Theorem input_not_mutated fuel schema doc (h : heap) :
  (forall out h',
      toRedisJson fuel schema doc h = (out, h') ->
      unchanged h h'
      /\ forall result, out = Ok result -> madeAnew h h' result)
  /\ (forall out h',
      fromRedisJson fuel schema doc h = (out, h') ->
      unchanged h h'
      /\ forall result, out = Ok result -> madeAnew h h' result).
Proof.
  split; intros out h'; apply respects_conclusion.
  - apply respects_toRedisJson.
  - apply respects_fromRedisJson.
Qed.
End NoMutation.

(** * A key that is [undefined] *)

Section UndefinedKey.
Context `{TransformerCommon}.

(** The document and the key under watch. *)
Variables (root : loc) (k : string).



Section Keeps.
Variable Φ : option val -> Prop.

Ltac keeps_go :=
  repeat first
    [ apply respects_ret; try done
    | apply respects_throw
    | apply respects_stuck
    | eapply (respects_bind _ (fun _ => True));
        [apply respects_reads; intros; exact I|]; intros ? _
    | progress intros ].

Lemma keeps_alloc o : respects ((slotIs root k) Φ) (fun _ => True) (alloc o).
Proof.
  intros h out h' (props & Hroot & HΦ) [= <- <-]. split; [|done].
  exists props. split; [|done]. rewrite lookup_insert_ne; [done|].
  intros Heq. pose proof (is_fresh (dom h)) as Hfresh.
  rewrite Heq in Hfresh. apply Hfresh, elem_of_dom. by eexists.
Qed.

Lemma keeps_setProp l key x :
  (elsewhere root k) l key -> respects ((slotIs root k) Φ) (fun _ => True) (setProp l key x).
Proof.
  intros Hels h out h' (props & Hroot & HΦ). unfold setProp.
  destruct (h !! l) as [[props'|elems|t]|] eqn:Hl; destruct key as [k'|i];
    intros [= <- <-]; (split; [|done]); try by exists props.
  - destruct (decide (l = root)) as [->|Hne].
    + rewrite Hroot in Hl. injection Hl as <-.
      exists (<[k' := x]> props). rewrite lookup_insert_eq. split; [done|].
      rewrite lookup_insert_ne; [done|]. intros ->. by apply Hels.
    + exists props. by rewrite lookup_insert_ne.
  - exists props. rewrite lookup_insert_ne; [done|]. congruence.
Qed.

Lemma keeps_deleteProp l key :
  (elsewhere root k) l key -> respects ((slotIs root k) Φ) (fun _ => True) (deleteProp l key).
Proof.
  intros Hels h out h' (props & Hroot & HΦ). unfold deleteProp.
  destruct (h !! l) as [[props'|elems|t]|] eqn:Hl; destruct key as [k'|i];
    intros [= <- <-]; (split; [|done]); try by exists props.
  - destruct (decide (l = root)) as [->|Hne].
    + rewrite Hroot in Hl. injection Hl as <-.
      exists (delete k' props). rewrite lookup_insert_eq. split; [done|].
      rewrite lookup_delete_ne; [done|]. intros ->. by apply Hels.
    + exists props. by rewrite lookup_insert_ne.
  - exists props. rewrite lookup_insert_ne; [done|]. congruence.
Qed.

Lemma keeps_toString v : respects ((slotIs root k) Φ) (fun _ => True) (toString v).
Proof.
  intros h out h' Hinv Hrun. by rewrite (toString_heap _ _ _ _ Hrun).
Qed.

Lemma keeps_stringify {A} (P : A -> Prop) (f : heap -> string)
    (mk : string -> exn) :
  respects ((slotIs root k) Φ) P (msg <- reads f ;; throw (mk msg)).
Proof. keeps_go. Qed.

Lemma keeps_convertKnownValueToString v :
  respects ((slotIs root k) Φ) (fun _ => True) (convertKnownValueToString v).
Proof.
  unfold convertKnownValueToString.
  destruct v; simpl; try apply keeps_stringify; keeps_go.
Qed.

Lemma keeps_newArray (strs : list val) :
  respects ((slotIs root k) Φ) (fun _ => True)
           (l <- alloc (OArray strs) ;; ret (VRef l : val)).
Proof.
  eapply respects_bind; [apply keeps_alloc|]. keeps_go.
Qed.

Lemma keeps_convertArrayToStringArray arr elems :
  respects ((slotIs root k) Φ) (fun _ => True) (convertArrayToStringArray arr elems).
Proof.
  eapply respects_bind; [|intros; apply keeps_newArray].
  apply (respects_mapM_ _ (fun _ => True)). intros v _.
  unfold elementToJson.
  destruct (isNull v); [apply keeps_stringify|].
  destruct (isUndefined v); [apply keeps_stringify|].
  eapply respects_bind; [apply keeps_toString|]. keeps_go.
Qed.

Lemma keeps_convertKnownValueToJson fieldType v :
  respects ((slotIs root k) Φ) (fun _ => True) (convertKnownValueToJson fieldType v).
Proof.
  unfold convertKnownValueToJson, expected.
  destruct (isNull v); [by apply respects_ret|].
  destruct fieldType.
  - destruct (isBoolean v); [by apply respects_ret|apply keeps_stringify].
  - destruct (isNumber v); [by apply respects_ret|apply keeps_stringify].
  - keeps_go. destruct a; [by apply respects_ret|].
    destruct v; try apply keeps_stringify; by apply respects_ret.
  - keeps_go. destruct a; [|apply keeps_stringify]. keeps_go.
  - apply keeps_convertKnownValueToString.
  - apply keeps_convertKnownValueToString.
  - keeps_go. destruct a; [|apply keeps_stringify].
    apply keeps_convertArrayToStringArray.
Qed.

Lemma keeps_convertUnknownValueToJson v :
  respects ((slotIs root k) Φ) (fun v' => isUndefined v = false -> isUndefined v' = false)
           (convertUnknownValueToJson v).
Proof.
  unfold convertUnknownValueToJson.
  eapply (respects_bind _ (fun _ => True));
    [apply respects_reads; intros; exact I|]; intros t _.
  destruct t; by apply respects_ret.
Qed.


Lemma not_elsewhere l key : ~ (elsewhere root k) l key -> l = root /\ key = KName k.
Proof.
  unfold elsewhere. intros Hnot.
  destruct (decide (l = root)) as [->|]; [|by destruct Hnot].
  split; [done|]. destruct (decide (key = KName k)); [done|].
  by destruct Hnot.
Qed.

Lemma elsewhere_dec l key : (elsewhere root k) l key \/ ~ (elsewhere root k) l key.
Proof.
  unfold elsewhere. destruct (decide (l = root)); [|by left].
  destruct (decide (key = KName k)); [right|left]; [|done].
  intros Hels. by apply Hels.
Qed.

Lemma keeps_assign_defined r (x : val) :
  (harmless root k) r -> isDefined (value r) = true ->
  respects ((slotIs root k) Φ) (fun _ => True) (assign (parent r) (parentProperty r) x).
Proof.
  intros Hr Hdef. destruct (parent r) as [| | | | |l] eqn:Hpar;
    try apply respects_throw.
  simpl. destruct (elsewhere_dec l (parentProperty r)) as [?|Hnot];
    [by apply keeps_setProp|].
  rewrite (Hr l) in Hdef; done.
Qed.

Lemma keeps_convertKnownResultToJson fieldType r :
  (harmless root k) r ->
  respects ((slotIs root k) Φ) (fun _ => True) (convertKnownResultToJson fieldType r).
Proof.
  intros Hr. unfold convertKnownResultToJson.
  destruct (isDefined (value r)) eqn:Hdef; [|by apply respects_ret].
  eapply respects_bind; [apply keeps_convertKnownValueToJson|].
  intros v' _. by apply keeps_assign_defined.
Qed.

Lemma keeps_knownStringToJson r :
  (harmless root k) r ->
  respects ((slotIs root k) Φ) (fun _ => True) (knownStringToJson r).
Proof.
  intros Hr. unfold knownStringToJson.
  destruct (isNull (value r)); [apply keeps_stringify|].
  keeps_go. destruct (isUndefined (value r) && a);
    [apply keeps_stringify|].
  destruct (isDefined (value r)) eqn:Hdef; [|by apply respects_ret].
  eapply respects_bind; [apply keeps_convertKnownValueToString|].
  intros v' _. by apply keeps_assign_defined.
Qed.

(** The cleanup pass, for a [Φ] that allows the key to go away. *)
Hypothesis Φ_gone : forall o, Φ o -> Φ None.

Lemma keeps_deleteProp_any l key :
  respects ((slotIs root k) Φ) (fun _ => True) (deleteProp l key).
Proof using Φ_gone.
  destruct (elsewhere_dec l key) as [?|[-> ->]%not_elsewhere];
    [by apply keeps_deleteProp|].
  intros h out h' (props & Hroot & HΦ). unfold deleteProp. rewrite Hroot.
  intros [= <- <-]. split; [|done].
  exists (delete k props). rewrite lookup_insert_eq, lookup_delete_eq. eauto.
Qed.

Lemma keeps_unknownEntryToJson recur l key v :
  (forall l', respects ((slotIs root k) Φ) (fun _ => True) (recur l')) ->
  (~ (elsewhere root k) l key -> v = VUndefined) ->
  respects ((slotIs root k) Φ) (fun _ => True) (unknownEntryToJson recur l (key, v)).
Proof using Φ_gone.
  intros Hrecur Hv. unfold unknownEntryToJson.
  destruct (isUndefined v) eqn:Hundef; [apply keeps_deleteProp_any|].
  assert ((elsewhere root k) l key) as Hels.
  { destruct (elsewhere_dec l key) as [?|Hnot]; [done|].
    rewrite (Hv Hnot) in Hundef. done. }
  keeps_go. destruct a, v;
    try (eapply respects_bind; [apply keeps_convertUnknownValueToJson|];
         intros; by apply keeps_setProp).
  eapply respects_bind; [apply Hrecur|]. intros; by apply keeps_setProp.
Qed.

(** If the key is there at all, it is [undefined]. *)
Hypothesis Φ_undefined : forall v, Φ (Some v) -> v = VUndefined.

Lemma keeps_objectEntries l :
  respects ((slotIs root k) Φ)
    (fun entries => forall key v,
       (key, v) ∈ entries -> ~ (elsewhere root k) l key -> v = VUndefined)
    (objectEntries l).
Proof using Φ_undefined.
  intros h out h' (props & Hroot & HΦ). unfold objectEntries, getObj, bind.
  destruct (h !! l) as [o|] eqn:Hl; intros [= <- <-];
    (split; [by exists props|]); [|done].
  intros ? [= <-] key v Hin [-> ->]%not_elsewhere.
  rewrite Hroot in Hl. injection Hl as <-.
  pose proof (entriesOf_slot h root _ _ _ Hroot Hin) as Hslot.
  simpl in Hslot. rewrite Hroot in Hslot. rewrite Hslot in HΦ. auto.
Qed.

Lemma keeps_convertToRedisJsonUnknown fuel l :
  respects ((slotIs root k) Φ) (fun _ => True) (convertToRedisJsonUnknown fuel l).
Proof using Φ_gone Φ_undefined.
  revert l. induction fuel as [|n IH]; intros l; simpl;
    [apply respects_stuck|].
  eapply respects_bind; [apply keeps_objectEntries|].
  intros entries Hentries.
  eapply respects_bind; [|intros; by apply respects_ret].
  apply respects_forEach. intros [key v] Hin.
  apply keeps_unknownEntryToJson; [done|]. by apply Hentries.
Qed.
End Keeps.


Lemma keeps_JSONPath path json :
  respects (isUndefinedKey root k) (Forall (harmless root k)) (JSONPath path json).
Proof.
  apply respects_reads. intros h (props & Hroot & Hk).
  apply Forall_forall. intros r Hin l Hpar [-> Hkey]%not_elsewhere.
  destruct (resolve_located h path json r Hin) as [Hloc|[_ Hnull]];
    [|congruence].
  unfold located in Hloc. rewrite Hpar, Hkey in Hloc. simpl in Hloc.
  rewrite Hroot in Hloc. congruence.
Qed.

Lemma keeps_knownFieldToJson json field :
  respects (isUndefinedKey root k) (fun _ => True) (knownFieldToJson json field).
Proof.
  destruct field as [fieldName fieldDef]. unfold knownFieldToJson.
  eapply respects_bind; [apply keeps_JSONPath|].
  intros results Hres. destruct results as [|r1 [|r2 rest]].
  - by apply respects_ret.
  - apply Forall_inv in Hres. by apply keeps_convertKnownResultToJson.
  - unfold convertKnownResultsToJson.
    destruct (type fieldDef); try apply respects_throw.
    apply respects_forEach. intros r Hr.
    apply (proj1 (Forall_forall _ _) Hres) in Hr.
    by apply keeps_knownStringToJson.
Qed.

Lemma keeps_convertToRedisJsonKnown schemaDef json :
  respects (isUndefinedKey root k) (fun _ => True) (convertToRedisJsonKnown schemaDef json).
Proof. apply respects_forEach. intros; apply keeps_knownFieldToJson. Qed.

Lemma forEach_app_ok_inv {A} (f : A -> M unit) pre x post (h h' : heap) :
  forEach f (pre ++ x :: post) h = (Ok tt, h') ->
  exists ha hb,
    forEach f pre h = (Ok tt, ha) /\ f x ha = (Ok tt, hb)
    /\ forEach f post hb = (Ok tt, h').
Proof.
  rewrite forEach_app.
  destruct (forEach f pre h) as [[[]|e|] ha] eqn:Hpre; try done.
  simpl. intros ([] & hb & Hx & Hpost)%bind_inv_ok. eauto.
Qed.

Lemma convertToRedisJsonUnknown_result fuel json (h h' : heap) l :
  convertToRedisJsonUnknown fuel json h = (Ok l, h') -> l = json.
Proof.
  destruct fuel as [|n]; [done|]. simpl.
  intros (entries & h1 & _ & ([] & h2 & _ & [= -> _])%bind_inv_ok)%bind_inv_ok.
  done.
Qed.

(** The cleanup pass run on the document takes the key away. *)
Lemma convertToRedisJsonUnknown_deletes fuel (h h' : heap) l :
  (isUndefinedKey root k) h ->
  convertToRedisJsonUnknown fuel root h = (Ok l, h') ->
  (isAbsentKey root k) h'.
Proof.
  intros (props & Hroot & Hk). destruct fuel as [|n]; [done|]. simpl.
  intros (entries & h1 & Hentries & Hloop)%bind_inv_ok.
  apply bind_inv_ok in Hloop as ([] & h2 & Hloop & [= _ <-]).
  unfold objectEntries, getObj, bind in Hentries. rewrite Hroot in Hentries.
  injection Hentries as <- <-.
  change (prod_map KName id <$> map_to_list props)
    with (entriesOf (OObject props)) in Hloop.
  assert (forall key v, (key, v) ∈ entriesOf (OObject props) ->
            ~ (elsewhere root k) root key -> v = VUndefined) as Hsnap.
  { intros key v Hin [_ ->]%not_elsewhere.
    pose proof (entriesOf_slot h root _ _ _ Hroot Hin) as Hslot.
    simpl in Hslot. rewrite Hroot in Hslot. congruence. }
  assert ((KName k, VUndefined) ∈ entriesOf (OObject props)) as Hin.
  { simpl. apply list_elem_of_fmap. exists (k, VUndefined).
    split; [done|]. by apply elem_of_map_to_list. }
  apply list_elem_of_split in Hin as (pre & post & Heq).
  rewrite Heq in Hloop, Hsnap.
  apply forEach_app_ok_inv in Hloop as (ha & hb & Hpre & Hx & Hpost).
  assert ((isFadingKey root k) ha) as (pa & Hroota & _).
  { eapply (respects_forEach (isFadingKey root k)); [|by exists props; eauto|exact Hpre].
    intros [key v] Hin. apply keeps_unknownEntryToJson.
    - intros; by right.
    - intros l'. apply keeps_convertToRedisJsonUnknown;
        [intros; by right|by intros v' [[= ->]|?]].
    - apply Hsnap. rewrite elem_of_app. by left. }
  assert ((isAbsentKey root k) hb) as Hb.
  { unfold unknownEntryToJson, deleteProp in Hx. simpl in Hx.
    rewrite Hroota in Hx. injection Hx as <-.
    exists (delete k pa). by rewrite lookup_insert_eq, lookup_delete_eq. }
  eapply (respects_forEach (isAbsentKey root k)); [|exact Hb|exact Hpost].
  intros [key v] Hin. apply keeps_unknownEntryToJson.
  - done.
  - intros l'. by apply keeps_convertToRedisJsonUnknown.
  - apply Hsnap. rewrite elem_of_app, elem_of_cons. auto.
Qed.
End UndefinedKey.

Section UndefinedRemoval.
Context `{TransformerCommon}.

Lemma mapM__ok_Forall2 {A B} (f : A -> M B) l (h h' : heap) bs :
  mapM_ f l h = (Ok bs, h') ->
  Forall2 (fun a b => exists h1 h2, f a h1 = (Ok b, h2)) l bs.
Proof.
  revert h h' bs. induction l as [|a l IH]; intros h h' bs; simpl.
  - intros [= <- _]. constructor.
  - intros (b & h1 & Ha & (bs' & h2 & Hl & [= <- _])%bind_inv_ok)%bind_inv_ok.
    constructor; eauto.
Qed.

Lemma cloneEntry_undefined recur (kv kv' : string * val) (h1 h2 : heap) :
  cloneEntry recur kv h1 = (Ok kv', h2) ->
  kv'.1 = kv.1 /\ (kv.2 = VUndefined -> kv'.2 = VUndefined).
Proof.
  unfold cloneEntry. intros (v' & h & Hv & [= <- _])%bind_inv_ok.
  split; [done|]. simpl. intros Hundef. rewrite Hundef in Hv.
  by injection Hv as <- _.
Qed.

(** The copy of an object has [undefined] where the object has it. *)
Lemma clone_undefined fuel data (h h1 : heap) json props k :
  h !! data = Some (OObject props) ->
  props !! k = Some VUndefined ->
  clone fuel data h = (Ok json, h1) ->
  isUndefinedKey json k h1.
Proof.
  intros Hdata Hk. destruct fuel as [|n]; [done|]. simpl.
  unfold getObj at 1. unfold bind at 1. rewrite Hdata.
  intros (kvs & h' & Hkvs & [= <- <-])%bind_inv_ok.
  exists (list_to_map kvs). rewrite lookup_insert_eq. split; [done|].
  apply mapM__ok_Forall2 in Hkvs.
  assert (kvs.*1 = (map_to_list props).*1) as Hkeys.
  { induction Hkvs as [|kv kv' l l' (h1 & h2 & Hkv) _ IH]; [done|].
    apply cloneEntry_undefined in Hkv as [Hfst _]. simpl. by f_equal. }
  apply elem_of_list_to_map_1.
  { rewrite Hkeys. apply NoDup_fst_map_to_list. }
  apply elem_of_map_to_list in Hk.
  induction Hkvs as [|kv kv' l l' (h1 & h2 & Hkv) _ IH];
    [by apply elem_of_nil in Hk|].
  apply cloneEntry_undefined in Hkv as [Hfst Hsnd].
  injection Hkeys as _ Hkeys.
  apply elem_of_cons in Hk as [<-|Hk].
  - destruct kv' as [k' v']. simpl in *. rewrite Hfst, Hsnd by done. by left.
  - right. by apply IH.
Qed.

(** C6.  A key of the input object whose value is [undefined] is not a
    key of the document that [toRedisJson] returns: it is not there with
    [null], nor with anything else. *)
Theorem undefined_key_removed fuel schema data (h h' : heap) props k json :
  h !! data = Some (OObject props) ->
  props !! k = Some VUndefined ->
  toRedisJson fuel schema data h = (Ok json, h') ->
  exists props', h' !! json = Some (OObject props') /\ props' !! k = None.
Proof.
  intros Hdata Hk. unfold toRedisJson.
  intros (copy & h1 & Hclone & Hrest)%bind_inv_ok.
  apply bind_inv_ok in Hrest as ([] & h2 & Hknown & Hunknown).
  pose proof (clone_undefined _ _ _ _ _ _ _ Hdata Hk Hclone) as H1.
  destruct (keeps_convertToRedisJsonKnown copy k (definition schema) copy
              _ _ _ H1 Hknown) as [H2 _].
  pose proof (convertToRedisJsonUnknown_result _ _ _ _ _ Hunknown) as ->.
  by eapply convertToRedisJsonUnknown_deletes.
Qed.
End UndefinedRemoval.

(** * The cleanup pass *)

Section Cleanup.
Context `{TransformerCommon}.




Lemma cleaned_refl h o : cleaned h o o.
Proof. by left. Qed.

Lemma refines_refl h : refines h h.
Proof.
  intros l. destruct (h !! l) as [[props|elems|t]|]; simpl; try done.
  intros k. apply cleaned_refl.
Qed.

Lemma refines_dateTime h h' v : refines h h' -> dateTime h' v = dateTime h v.
Proof.
  intros Href. destruct v as [| | | | |l]; try done. simpl.
  specialize (Href l).
  destruct (h !! l) as [[?|?|?]|], (h' !! l) as [[?|?|?]|]; simpl in Href;
    try done. by subst.
Qed.

Lemma refines_isObject h h' v : refines h h' -> isObject h' v = isObject h v.
Proof.
  intros Href. destruct v as [| | | | |l]; try done. simpl.
  specialize (Href l).
  by destruct (h !! l) as [[?|?|?]|], (h' !! l) as [[?|?|?]|].
Qed.

Lemma cleaned_trans h o o' o'' :
  cleaned h o o' -> cleaned h o' o'' -> cleaned h o o''.
Proof.
  intros [->|[[-> ->]|(v & t & -> & Ht & ->)]]; [done|..].
  - intros [->|[[? _]|(v & t & ? & _)]]; try done. right; left. done.
  - intros [->|[[? _]|(v' & t' & [= <-] & ? & _)]]; try done.
    right; right. by exists v, t.
Qed.

Lemma cleaned_heap h h' o o' :
  refines h h' -> cleaned h o o' <-> cleaned h' o o'.
Proof.
  intros Href. unfold cleaned.
  by setoid_rewrite (refines_dateTime h h').
Qed.

Lemma refines_trans h h' h'' : refines h h' -> refines h' h'' -> refines h h''.
Proof.
  intros H1 H2 l. pose proof (H1 l) as Hl1. pose proof (H2 l) as Hl2.
  destruct (h !! l) as [[p|e|t]|], (h' !! l) as [[p'|e'|t']|],
    (h'' !! l) as [[p''|e''|t'']|]; simpl in *; try done.
  - intros k. eapply cleaned_trans; [done|]. by apply (cleaned_heap h h').
  - congruence.
Qed.

Lemma refines_update_object h l props props' :
  h !! l = Some (OObject props) ->
  (forall k, cleaned h (props !! k) (props' !! k)) ->
  refines h (<[l := OObject props']> h).
Proof.
  intros Hl Hclean l'. rewrite lookup_insert. case_decide as Heq.
  - subst. by rewrite Hl.
  - apply refines_refl.
Qed.

Lemma refines_update_array h l elems elems' :
  h !! l = Some (OArray elems) ->
  refines h (<[l := OArray elems']> h).
Proof.
  intros Hl l'. rewrite lookup_insert. case_decide as Heq.
  - subst. by rewrite Hl.
  - apply refines_refl.
Qed.


Lemma pending_refines h h' json key v :
  refines h h' -> pending h json key v -> pending h' json key v.
Proof.
  intros Href. destruct key as [k|i]; [|done].
  intros (props & Hjson & Hclean). pose proof (Href json) as Hl.
  rewrite Hjson in Hl.
  destruct (h' !! json) as [[props'|?|?]|] eqn:Hjson'; simpl in Hl; try done.
  exists props'. split; [done|].
  apply (cleaned_heap h h'); [done|]. by eapply cleaned_trans.
Qed.

Lemma pending_entriesOf h json o key v :
  h !! json = Some o -> (key, v) ∈ entriesOf o -> pending h json key v.
Proof.
  intros Hjson Hin. destruct key as [k|i]; [|done].
  pose proof (entriesOf_slot h json o _ _ Hjson Hin) as Hslot.
  simpl in Hslot. rewrite Hjson in Hslot.
  destruct o as [props|?|?]; try done.
  exists props. split; [done|]. rewrite Hslot. apply cleaned_refl.
Qed.

Lemma convertUnknownValueToJson_eq v (h : heap) :
  convertUnknownValueToJson v h =
    (Ok match dateTime h v with
        | Some t => VNumber (convertDateToEpoch t)
        | None => v
        end, h).
Proof.
  unfold convertUnknownValueToJson. rewrite bind_reads.
  by destruct (dateTime h v).
Qed.


Lemma deleteProp_refines h json key out h' :
  pending h json key VUndefined ->
  deleteProp json key h = (out, h') -> refines h h'.
Proof.
  intros Hpend. unfold deleteProp.
  destruct (h !! json) as [[props|elems|t]|] eqn:Hjson; destruct key as [k|i];
    intros [= <- <-]; try apply refines_refl.
  - apply (refines_update_object _ _ props); [done|]. intros k'.
    destruct (decide (k = k')) as [<-|Hne].
    + rewrite lookup_delete_eq.
      destruct Hpend as (props0 & Hjson0 & Hclean).
      rewrite Hjson in Hjson0. injection Hjson0 as <-.
      destruct Hclean as [->|[[_ ->]|(v & t & [= <-] & ? & _)]]; try done.
      * right; left. done.
      * by left.
    + rewrite lookup_delete_ne by done. apply cleaned_refl.
  - by eapply refines_update_array.
Qed.

Lemma setProp_refines h json key v v' out h' :
  pending h json key v ->
  isUndefined v = false ->
  (match dateTime h v with
   | Some t => v' = VNumber (convertDateToEpoch t)
   | None => v' = v
   end) ->
  setProp json key v' h = (out, h') -> refines h h'.
Proof.
  intros Hpend Hdef Hv'. unfold setProp.
  destruct (h !! json) as [[props|elems|t]|] eqn:Hjson; destruct key as [k|i];
    intros [= <- <-]; try apply refines_refl.
  - apply (refines_update_object _ _ props); [done|]. intros k'.
    destruct (decide (k = k')) as [<-|Hne].
    + rewrite lookup_insert_eq.
      destruct Hpend as (props0 & Hjson0 & Hclean).
      rewrite Hjson in Hjson0. injection Hjson0 as <-.
      destruct Hclean as [->|[[[= ->] _]|(v0 & t & [= <-] & Ht & ->)]];
        try done.
      * destruct (dateTime h v) as [t|] eqn:Ht; subst v'.
        -- right; right. by exists v, t.
        -- by left.
      * rewrite Ht in Hv'. subst v'. by left.
    + rewrite lookup_insert_ne by done. apply cleaned_refl.
  - by eapply refines_update_array.
Qed.

Lemma unknownEntryToJson_refines recur json key v h out h' :
  tidy recur ->
  pending h json key v ->
  unknownEntryToJson recur json (key, v) h = (out, h') -> refines h h'.
Proof.
  intros Hrecur Hpend. unfold unknownEntryToJson.
  destruct (isUndefined v) eqn:Hundef.
  { destruct v; try done. by apply deleteProp_refines. }
  rewrite bind_reads.
  assert (forall h1, refines h h1 ->
            (v' <- convertUnknownValueToJson v ;; setProp json key v') h1
              = (out, h') -> refines h h') as Hplain.
  { intros h1 H1. erewrite bind_ok by apply convertUnknownValueToJson_eq.
    intros Hrun. eapply refines_trans; [done|].
    eapply setProp_refines; [by eapply pending_refines|done| |done].
    by destruct (dateTime h1 v). }
  destruct (isObject h v) eqn:Hobj; [|by apply Hplain, refines_refl].
  destruct v as [| | | | |l]; try by apply Hplain, refines_refl.
  unfold bind. destruct (recur l h) as [[l'|e|] h1] eqn:Hrun;
    destruct (Hrecur _ _ _ _ Hrun) as [H1 Hl']; [|by intros [= _ <-]..].
  rewrite (Hl' _ eq_refl). intros Hset.
  eapply refines_trans; [done|].
  eapply (setProp_refines _ _ _ (VRef l)); [by eapply pending_refines|done| |done].
  replace (dateTime h1 (VRef l)) with (@None number); [done|].
  rewrite <- (refines_isObject h h1) in Hobj by done. simpl in *.
  by destruct (h1 !! l) as [[]|].
Qed.

Lemma forEach_unknownEntryToJson_refines recur json entries h out h' :
  tidy recur ->
  (forall key v, (key, v) ∈ entries -> pending h json key v) ->
  forEach (unknownEntryToJson recur json) entries h = (out, h') ->
  refines h h'.
Proof.
  intros Hrecur. revert h. induction entries as [|[key v] entries IH];
    intros h Hpend.
  - intros [= _ <-]. apply refines_refl.
  - destruct (unknownEntryToJson recur json (key, v) h) as [[[]|e|] h1] eqn:Hrun;
      [rewrite (forEach_cons_ok _ _ _ _ _ Hrun)
      |rewrite (forEach_cons_throw _ _ _ _ _ _ Hrun)
      |rewrite (forEach_cons_stuck _ _ _ _ _ Hrun)].
    + intros Hrest.
      assert (refines h h1) as H1.
      { refine (unknownEntryToJson_refines recur json key v h _ h1 Hrecur _ Hrun).
        apply Hpend. by left. }
      eapply refines_trans; [done|]. eapply IH; [|done].
      intros key' v' Hin. eapply pending_refines; [done|]. apply Hpend. by right.
    + intros [= _ <-].
      refine (unknownEntryToJson_refines recur json key v h _ h1 Hrecur _ Hrun).
      apply Hpend. by left.
    + intros [= _ <-].
      refine (unknownEntryToJson_refines recur json key v h _ h1 Hrecur _ Hrun).
      apply Hpend. by left.
Qed.

Lemma convertToRedisJsonUnknown_tidy fuel : tidy (convertToRedisJsonUnknown fuel).
Proof.
  induction fuel as [|n IH]; intros json h out h'; simpl.
  - intros [= <- <-]. split; [apply refines_refl|done].
  - unfold objectEntries, getObj. unfold bind at 1 2.
    destruct (h !! json) as [o|] eqn:Hjson;
      [|intros [= <- <-]; split; [apply refines_refl|done]].
    unfold ret at 1. unfold bind.
    destruct (forEach _ _ h) as [[[]|e|] h1] eqn:Hloop; intros [= <- <-];
      (split; [|by intros ? [= <-]]);
      (eapply forEach_unknownEntryToJson_refines; [exact IH| |exact Hloop]);
      intros key v Hin; by eapply pending_entriesOf.
Qed.
(** ** What is clean *)





Lemma refines_lookup_object h h' l props' :
  refines h h' -> h' !! l = Some (OObject props') ->
  exists props, h !! l = Some (OObject props)
                /\ forall k, cleaned h (props !! k) (props' !! k).
Proof.
  intros Href Hl'. specialize (Href l). rewrite Hl' in Href.
  destruct (h !! l) as [[props|?|?]|]; try done. by exists props.
Qed.

Lemma cleaned_ref h o l :
  cleaned h o (Some (VRef l)) -> o = Some (VRef l).
Proof. by intros [->|[[_ ?]|(? & ? & _ & _ & ?)]]. Qed.

Lemma refines_objReachable h h' l l' :
  refines h h' -> objReachable h' l l' -> objReachable h l l'.
Proof.
  intros Href. induction 1 as [l|l props' k c l' Hl Hk Hobj _ IH];
    [constructor|].
  destruct (refines_lookup_object _ _ _ _ Href Hl) as (props & Hl0 & Hclean).
  specialize (Hclean k). rewrite Hk in Hclean. apply cleaned_ref in Hclean.
  eapply objReachable_step; [done..| |done].
  by rewrite <- (refines_isObject h h').
Qed.

Lemma refines_cleanValue h h' v :
  refines h h' -> cleanValue h v -> cleanValue h' v.
Proof. intros Href [??]. split; [done|]. by rewrite (refines_dateTime h h'). Qed.

Lemma refines_cleanObject h h' l :
  refines h h' -> cleanObject h l -> cleanObject h' l.
Proof.
  intros Href Hclean props' k v' Hl Hk.
  destruct (refines_lookup_object _ _ _ _ Href Hl) as (props & Hl0 & Hc).
  specialize (Hc k). rewrite Hk in Hc.
  destruct Hc as [Heq|[[_ ?]|(v & t & Hv & Ht & _)]]; [|done|].
  - eapply refines_cleanValue; [done|]. by eapply Hclean.
  - destruct (Hclean _ _ _ Hl0 Hv) as [_ ?]. congruence.
Qed.

Lemma refines_deepClean h h' l :
  refines h h' -> deepClean h l -> deepClean h' l.
Proof.
  intros Href Hdeep l' Hreach. eapply refines_cleanObject; [done|].
  apply Hdeep. by eapply refines_objReachable.
Qed.


Lemma refines_settled h h' json k :
  refines h h' -> settled h json k -> settled h' json k.
Proof.
  intros Href Hset props' v' Hl Hk.
  destruct (refines_lookup_object _ _ _ _ Href Hl) as (props & Hl0 & Hc).
  specialize (Hc k). rewrite Hk in Hc.
  destruct Hc as [Heq|[[_ ?]|(v & t & Hv & Ht & _)]]; [|done|].
  - destruct (Hset _ _ Hl0 (eq_sym Heq)) as [Hclean Hdeep]. split.
    + by eapply refines_cleanValue.
    + intros c -> Hobj. eapply refines_deepClean; [done|].
      apply Hdeep; [done|]. by rewrite <- (refines_isObject h h').
  - destruct (Hset _ _ Hl0 Hv) as [[_ ?] _]. congruence.
Qed.


Lemma unknownEntryToJson_settles recur json k v h h' :
  tidy recur -> thorough recur ->
  pending h json (KName k) v ->
  unknownEntryToJson recur json (KName k, v) h = (Ok tt, h') ->
  settled h' json k.
Proof.
  intros Htidy Hthorough Hpend Hrun.
  pose proof (unknownEntryToJson_refines _ _ _ _ _ _ _ Htidy Hpend Hrun) as Href.
  revert Hrun. unfold unknownEntryToJson.
  destruct (isUndefined v) eqn:Hundef.
  { unfold deleteProp.
    destruct (h !! json) as [[props|?|?]|] eqn:Hjson; try done.
    intros [= <-] props' v'. rewrite lookup_insert_eq. intros [= <-].
    by rewrite lookup_delete_eq. }
  rewrite bind_reads.
  assert ((v' <- convertUnknownValueToJson v ;; setProp json (KName k) v') h
            = (Ok tt, h') ->
          (forall c, v = VRef c -> isObject h v = false) ->
          settled h' json k) as Hplain.
  { erewrite bind_ok by apply convertUnknownValueToJson_eq.
    unfold setProp.
    destruct (h !! json) as [[props|?|?]|] eqn:Hjson; try done.
    intros [= Hh'] Hnoobj props' v'. rewrite <- Hh', lookup_insert_eq.
    intros [= <-]. rewrite lookup_insert_eq. intros [= <-]. rewrite Hh'.
    destruct (dateTime h v) as [t|] eqn:Ht.
    - split; [done|]. by intros c.
    - split.
      + split; [done|]. by rewrite (refines_dateTime h h').
      + intros c -> Hobj. rewrite (refines_isObject h h') in Hobj by done.
        by rewrite (Hnoobj c) in Hobj. }
  destruct (isObject h v) eqn:Hobj; [|by intros ?; apply Hplain].
  destruct v as [| | | | |l]; try (by intros ?; apply Hplain).
  intros (r & h1 & Hrecur & Hset)%bind_inv_ok.
  destruct (Htidy _ _ _ _ Hrecur) as [H1 Hr]. rewrite (Hr _ eq_refl) in *.
  pose proof (pending_refines _ _ _ _ _ H1 Hpend) as (props1 & Hjson1 & Hclean).
  assert (isObject h1 (VRef l) = true) as Hobj1.
  { by rewrite (refines_isObject h h1). }
  assert (props1 !! k = Some (VRef l)) as Hk1.
  { destruct Hclean as [->|[[? _]|(v0 & t & [= <-] & Ht & _)]]; try done.
    simpl in Hobj1, Ht. by destruct (h1 !! l) as [[]|]. }
  unfold setProp in Hset. rewrite Hjson1 in Hset. injection Hset as <-.
  rewrite (insert_id props1), (insert_id h1) by done.
  intros props' v'. rewrite Hjson1. intros [= <-]. rewrite Hk1.
  intros [= <-]. split.
  - split; [done|]. simpl in *. by destruct (h1 !! l) as [[]|].
  - intros c [= <-] _. by eapply Hthorough.
Qed.

Lemma forEach_unknownEntryToJson_settles recur json entries h h' :
  tidy recur -> thorough recur ->
  (forall key v, (key, v) ∈ entries -> pending h json key v) ->
  forEach (unknownEntryToJson recur json) entries h = (Ok tt, h') ->
  forall k v, (KName k, v) ∈ entries -> settled h' json k.
Proof.
  intros Htidy Hthorough. revert h.
  induction entries as [|[key v] entries IH]; intros h Hpend Hrun k v0 Hin.
  { by apply elem_of_nil in Hin. }
  simpl in Hrun. apply bind_inv_ok in Hrun as ([] & h1 & Hfirst & Hrest).
  assert (refines h h1) as H1.
  { refine (unknownEntryToJson_refines _ _ _ _ _ _ _ Htidy _ Hfirst).
    apply Hpend. by left. }
  assert (forall key' v', (key', v') ∈ entries -> pending h1 json key' v')
    as Hpend1.
  { intros key' v' Hin'. eapply pending_refines; [done|]. apply Hpend. by right. }
  apply elem_of_cons in Hin as [[= <- <-]|Hin]; [|by eapply IH].
  eapply refines_settled.
  - by eapply forEach_unknownEntryToJson_refines.
  - eapply unknownEntryToJson_settles; [done..| |done]. apply Hpend. by left.
Qed.

Lemma convertToRedisJsonUnknown_thorough fuel :
  thorough (convertToRedisJsonUnknown fuel).
Proof.
  induction fuel as [|n IH]; intros json h r h' Hrun; [done|].
  destruct (convertToRedisJsonUnknown_tidy _ _ _ _ _ Hrun) as [Href _].
  simpl in Hrun. apply bind_inv_ok in Hrun as (entries & h1 & Hentries & Hloop).
  apply bind_inv_ok in Hloop as ([] & h2 & Hloop & [= _ <-]).
  unfold objectEntries, getObj, bind in Hentries.
  destruct (h !! json) as [o|] eqn:Hjson; [|done].
  injection Hentries as <- <-.
  assert (forall k, (exists v, (KName k, v) ∈ entriesOf o) -> settled h2 json k)
    as Hsettled.
  { intros k [v Hin].
    eapply forEach_unknownEntryToJson_settles;
      [apply convertToRedisJsonUnknown_tidy|exact IH| |exact Hloop|exact Hin].
    intros key' v' Hin'. by eapply pending_entriesOf. }
  assert (forall props' k v', h2 !! json = Some (OObject props') ->
            props' !! k = Some v' -> settled h2 json k) as Hkey.
  { intros props' k v' Hl Hk. apply Hsettled.
    destruct (refines_lookup_object _ _ _ _ Href Hl) as (props & Hl0 & Hc).
    rewrite Hjson in Hl0. injection Hl0 as ->.
    specialize (Hc k). rewrite Hk in Hc.
    assert (exists v, props !! k = Some v) as [v Hv].
    { destruct Hc as [<-|[[_ ?]|(v & t & -> & _)]]; eauto. done. }
    exists v. simpl. apply list_elem_of_fmap. exists (k, v).
    split; [done|]. by apply elem_of_map_to_list. }
  intros l' Hreach. inversion Hreach as [|? props' k c ? Hl Hk Hobj Hrest]; subst.
  - intros props' k v' Hl Hk.
    by destruct (Hkey props' k v' Hl Hk props' v' Hl Hk) as [? _].
  - destruct (Hkey props' k _ Hl Hk _ _ Hl Hk) as [_ Hdeep].
    by eapply Hdeep.
Qed.

Lemma dateTime_None_isDate h v : dateTime h v = None -> isDate h v = false.
Proof.
  destruct v as [| | | | |l]; try done. simpl.
  by destruct (h !! l) as [[]|].
Qed.

Lemma objReachable_refines h h' l l' :
  refines h h' -> objReachable h l l' -> objReachable h' l l'.
Proof.
  intros Href. induction 1 as [l|l props k c l' Hl Hk Hobj _ IH];
    [constructor|].
  pose proof (Href l) as Hl'. rewrite Hl in Hl'.
  destruct (h' !! l) as [[props'|?|?]|] eqn:Hl''; simpl in Hl'; try done.
  eapply objReachable_step; [done| |by rewrite (refines_isObject h h')|done].
  destruct (Hl' k) as [Heq|[[? _]|(v & t & Hv & Ht & _)]].
  - by rewrite Heq.
  - congruence.
  - rewrite Hk in Hv. injection Hv as <-. simpl in *.
    by destruct (h !! c) as [[]|].
Qed.

Lemma cleaned_exact h h' o o' :
  refines h h' ->
  cleaned h o o' ->
  (forall v', o' = Some v' -> cleanValue h' v') ->
  o' = cleanedKey h o.
Proof.
  intros Href Hc Hclean.
  destruct Hc as [->|[[-> ->]|(v & t & -> & Ht & ->)]].
  - destruct o as [v|]; [|done].
    destruct (Hclean v eq_refl) as [Hdef Hdate].
    rewrite (refines_dateTime h h') in Hdate by done.
    unfold cleanedKey. rewrite Hdate. by destruct v.
  - done.
  - unfold cleanedKey. rewrite Ht. by destruct v.
Qed.

Lemma convertToRedisJsonUnknown_exact fuel json (h h' : heap) r :
  convertToRedisJsonUnknown fuel json h = (Ok r, h') ->
  forall l props,
    objReachable h json l ->
    h !! l = Some (OObject props) ->
    objReachable h' json l
    /\ exists props', h' !! l = Some (OObject props')
                      /\ forall k, props' !! k = cleanedKey h (props !! k).
Proof.
  intros Hrun l props Hreach Hl.
  destruct (convertToRedisJsonUnknown_tidy _ _ _ _ _ Hrun) as [Href _].
  pose proof (convertToRedisJsonUnknown_thorough _ _ _ _ _ Hrun) as Hdeep.
  pose proof (objReachable_refines _ _ _ _ Href Hreach) as Hreach'.
  split; [done|].
  pose proof (Href l) as Hl'. rewrite Hl in Hl'.
  destruct (h' !! l) as [[props'|?|?]|] eqn:Hl''; simpl in Hl'; try done.
  exists props'. split; [done|]. intros k.
  apply (cleaned_exact h h'); [done|apply Hl'|].
  intros v' Hk. by eapply (Hdeep l Hreach').
Qed.

(** C10.  The cleanup pass that ends [toRedisJson] gets to every key of
    every plain object reached from the top of the document through keys
    whose values are plain objects, at whatever depth and whether the
    schema declares the key or not.  Of such an object, as the pass over
    the schema left it, the returned document has at each key exactly
    this: nothing where the value was [undefined], the epoch where it
    was a [Date], and the value itself anywhere else; and it has no other
    key.  So no such object of the returned document has a key whose
    value is [undefined] or a [Date]. *)
Theorem cleanup_reaches_every_key fuel schema data (h h' : heap) json :
  toRedisJson fuel schema data h = (Ok json, h') ->
  exists h1 h2,
    clone fuel data h = (Ok json, h1)
    /\ convertToRedisJsonKnown (definition schema) json h1 = (Ok tt, h2)
    /\ (forall l props,
          objReachable h2 json l ->
          h2 !! l = Some (OObject props) ->
          objReachable h' json l
          /\ exists props',
               h' !! l = Some (OObject props')
               /\ forall k, props' !! k = cleanedKey h2 (props !! k))
    /\ (forall l props k v,
          objReachable h' json l ->
          h' !! l = Some (OObject props) ->
          props !! k = Some v ->
          isUndefined v = false /\ isDate h' v = false).
Proof.
  intros Hrun. unfold toRedisJson in Hrun.
  apply bind_inv_ok in Hrun as (copy & h1 & Hclone & Hrest).
  apply bind_inv_ok in Hrest as ([] & h2 & Hknown & Hunknown).
  pose proof (convertToRedisJsonUnknown_result _ _ _ _ _ Hunknown) as <-.
  exists h1, h2. split_and!; [done..| |].
  - by apply (convertToRedisJsonUnknown_exact fuel json h2 h' json).
  - intros l props k v Hreach Hl Hk.
    destruct (convertToRedisJsonUnknown_thorough _ _ _ _ _ Hunknown
                l Hreach props k v Hl Hk) as [? ?].
    split; [done|]. by apply dateTime_None_isDate.
Qed.
End Cleanup.


(** * Properties of [hsetall] *)

Section ShimFacts.
Import RedisShim.

Ltac schedules w :=
  destruct (schedule w) as [|[?cs|?e|?cs ?e] [|[?cs|?e|?cs ?e] ?rest]];
  simpl.

Ltac branches :=
  repeat match goal with
    | |- context [if ?b then _ else _] => destruct b eqn:?; simpl
    | |- context [?b || _] => destruct b eqn:?; simpl
    end.

Lemma replaced key data (hs : gmap string (gmap string string)) :
  data <> ∅ ->
  applyAll (hSet key data (unlink key multi)) hs !! key = Some data.
Proof.
  intros Hdata. unfold applyAll, hSet, unlink, multi. simpl.
  rewrite bool_decide_eq_false_2 by done. simpl.
  rewrite lookup_insert_eq, lookup_delete_eq. simpl.
  by rewrite (right_id ∅ (∪)).
Qed.

(** C5.  When no request is rejected, [hsetall] puts on the wire, on a
    session of its own, a watch on the key, then the opening of a
    transaction, a delete of the key, the write of the fields and the
    commit, in this order and nothing else; and when it returns, the
    hash at the key is the given field map, whatever was there before. *)
Theorem hsetall_protocol key data w :
  undisturbed w ->
  wire (hsetall key data w).2 = wire w ++ protocol (nextSession w) key data
  /\ nextSession (hsetall key data w).2 = S (nextSession w)
  /\ ((hsetall key data w).1 = inl tt ->
      hashes (hsetall key data w).2 !! key = Some data).
Proof.
  intros Hquiet. unfold hsetall, executeIsolated, andThen, watch, exec.
  unfold await. simpl.
  unfold undisturbed in Hquiet.
  schedules w; try discriminate Hquiet.
  all: rewrite <- ?app_assoc; simpl.
  all: branches.
  all: split_and!; try done.
  all: intros _; rewrite lookup_insert_eq, lookup_delete_eq; simpl.
  all: by rewrite (right_id ∅ (∪)).
Qed.

Lemma nobody_watching cs (hs : gmap string (gmap string string)) :
  disturbs ∅ cs hs = false.
Proof.
  revert hs. induction cs as [|c cs IH]; intros hs; [done|]. simpl.
  rewrite IH. by rewrite bool_decide_eq_false_2 by apply not_elem_of_empty.
Qed.

Lemma wellFormed_queue key data :
  forallb wellFormed (hSet key data (unlink key multi)) = true <-> data <> ∅.
Proof.
  unfold hSet, unlink, multi. simpl. rewrite andb_true_r, negb_true_iff.
  by rewrite bool_decide_eq_false.
Qed.

(** C4.  What [hsetall] makes of a failure.  When another session has
    changed the key between the watch and the commit, the library rejects
    the commit with its watch error; the name of that error is not the
    one [hsetall] looks for, so the call fails with the library's error
    as it came, not with the [RedisError] for a watch error, and the
    transaction has written nothing.  A request rejected with an error of
    any name but ["WatchError"] makes the call fail with that very error.
    And the call fails in no other way: with the library's watch error,
    the server's refusal or the error of a rejected request as it came
    when its name is not ["WatchError"], and with the [RedisError] only
    for a refusal or a rejected request's error of that name. *)
Theorem hsetall_errors key data w :
  (forall cs1 cs2 rest,
      schedule w = Others cs1 :: Others cs2 :: rest ->
      data <> ∅ ->
      disturbs {[key]} cs2 (applyAll cs1 (hashes w)) = true ->
      (hsetall key data w).1 = inr (Rethrown watchError)
      /\ (hsetall key data w).1
           <> inr (RedisError "Watch error when setting HASH.")
      /\ hashes (hsetall key data w).2 = applyAll cs2 (applyAll cs1 (hashes w)))
  /\ (forall ev e rest,
      schedule w = ev :: rest ->
      rejection ev = Some e ->
      name e <> "WatchError" ->
      (hsetall key data w).1 = inr (Rethrown e))
  /\ (forall cs1 ev e rest,
      schedule w = Others cs1 :: ev :: rest ->
      rejection ev = Some e ->
      name e <> "WatchError" ->
      (hsetall key data w).1 = inr (Rethrown e))
  /\ (forall err,
      (hsetall key data w).1 = inr err ->
      (exists e, err = Rethrown e /\ name e <> "WatchError"
                 /\ (e = watchError \/ e = refusal w
                     \/ Some e ∈ rejection <$> take 2 (schedule w)))
      \/ (err = RedisError "Watch error when setting HASH."
          /\ exists e, name e = "WatchError"
                       /\ (e = refusal w
                           \/ Some e ∈ rejection <$> take 2 (schedule w)))).
Proof.
  split_and!.
  - intros cs1 cs2 rest Hsched Hdata Hdirty.
    apply wellFormed_queue with (key := key) in Hdata.
    unfold hsetall, executeIsolated, andThen, watch, exec.
    unfold await. simpl. rewrite Hsched. simpl.
    unfold hSet, unlink, multi in Hdata. simpl in Hdata. rewrite Hdata.
    rewrite nobody_watching. simpl.
    rewrite (right_id_L ∅ (∪)), Hdirty. done.
  - intros ev e rest Hsched Hev Hname.
    unfold hsetall, executeIsolated, andThen, watch, exec.
    unfold await. simpl. rewrite Hsched. simpl.
    destruct ev as [cs|e'|cs e']; simplify_eq/=.
    all: by apply String.eqb_neq in Hname as ->.
  - intros cs1 ev e rest Hsched Hev Hname.
    unfold hsetall, executeIsolated, andThen, watch, exec.
    unfold await. simpl. rewrite Hsched. simpl.
    destruct ev as [cs|e'|cs e']; simplify_eq/=.
    all: by apply String.eqb_neq in Hname as ->.
  - intros err.
    unfold hsetall, executeIsolated, andThen, watch, exec.
    unfold await. simpl.
    schedules w.
    all: branches.
    all: try done.
    all: intros [= <-].
    all: first
      [ left; eexists; split; [done|]; split; [by apply String.eqb_neq|];
        first [ by left | by right; left
              | right; right; rewrite ?fmap_cons; simpl;
                repeat first [by left | right] ]
      | right; split; [done|]; eexists; split; [by apply String.eqb_eq|];
        first [ by left
              | right; rewrite ?fmap_cons; simpl;
                repeat first [by left | right] ] ].
Qed.
End ShimFacts.

(** * The round trip *)

Section RoundTrip.
Context `{TransformerCommon}.

(** ** Default paths *)

Lemma append_cons c (s t : string) : String c s +:+ t = String c (s +:+ t).
Proof. reflexivity. Qed.

Lemma append_empty_r (s : string) : s +:+ EmptyString = s.
Proof. induction s as [|c s IH]; [done|]. by rewrite append_cons, IH. Qed.

Lemma append_snoc (acc : string) c s : snoc acc c +:+ s = acc +:+ String c s.
Proof.
  unfold snoc. induction acc as [|a acc IH]; [done|].
  by rewrite !append_cons, IH.
Qed.

Lemma isNameChar_plain c :
  isNameChar c = true ->
  Ascii.eqb c "." = false /\ Ascii.eqb c "[" = false /\ Ascii.eqb c "]" = false.
Proof.
  intros Hc. split_and!; apply Ascii.eqb_neq; intros ->; discriminate.
Qed.

Lemma segments_name acc f :
  allChars isNameChar f = true ->
  segments (InName acc) f = st ← classifyName (acc +:+ f); Some [st].
Proof.
  revert acc. induction f as [|c f IH]; intros acc; simpl.
  - by rewrite append_empty_r.
  - intros [Hc Hf]%andb_prop.
    destruct (isNameChar_plain c Hc) as (-> & -> & ->).
    by rewrite IH, append_snoc.
Qed.

Lemma toPathArray_default f :
  plainName f = true -> toPathArray ("$." +:+ f) = Some [SChild f].
Proof.
  intros [Hne Hf]%andb_prop. simpl.
  change (EmptyString +:+ f) with f. rewrite segments_name by done.
  change (EmptyString +:+ f) with f.
  unfold classifyName. rewrite Hne, Hf. simpl.
  destruct (String.eqb_spec f "*") as [->|_]; done.
Qed.

(** ** A document with the one key [f] *)

Lemma resolve_unrelated (h : heap) json f v field :
  h !! json = Some (OObject {[f := v]}) ->
  unrelated f field ->
  resolve h (pathOf field.1 field.2) json = [].
Proof.
  intros Hjson (Hpath & Hname & Hne). unfold resolve, pathOf.
  rewrite Hpath, toPathArray_default by done. simpl.
  by rewrite Hjson, lookup_singleton_ne.
Qed.

Lemma resolve_own (h : heap) json f v fieldDef :
  h !! json = Some (OObject {[f := v]}) ->
  plainName f = true -> path fieldDef = None ->
  resolve h (pathOf f fieldDef) json
    = [ {| value := v; parent := VRef json; parentProperty := KName f |} ].
Proof.
  intros Hjson Hname Hpath. unfold resolve, pathOf.
  rewrite Hpath, toPathArray_default by done. simpl.
  by rewrite Hjson, lookup_singleton_eq.
Qed.

Lemma unrelated_findsNothing f field : unrelated f field -> findsNothing f field.
Proof. intros Hfield h json v Hjson. by eapply resolve_unrelated. Qed.

Lemma plainName_findsKey f fieldDef :
  plainName f = true -> path fieldDef = None -> findsKey f (f, fieldDef).
Proof. intros Hname Hpath h json v Hjson. by apply resolve_own. Qed.

Lemma convertToRedisJsonKnown_nothing (h : heap) json f v fields :
  h !! json = Some (OObject {[f := v]}) ->
  Forall (findsNothing f) fields ->
  convertToRedisJsonKnown fields json h = (Ok tt, h).
Proof.
  intros Hjson. induction 1 as [|[g def] fields Hg _ IH]; [done|].
  unfold convertToRedisJsonKnown in *. erewrite forEach_cons_ok; [exact IH|].
  unfold knownFieldToJson, JSONPath. rewrite bind_reads.
  pose proof (Hg h json v Hjson) as Hres.
  simpl in Hres. by rewrite Hres.
Qed.

Lemma convertFromRedisJsonKnown_nothing (h : heap) json f v fields :
  h !! json = Some (OObject {[f := v]}) ->
  Forall (findsNothing f) fields ->
  convertFromRedisJsonKnown fields json h = (Ok tt, h).
Proof.
  intros Hjson. induction 1 as [|[g def] fields Hg _ IH]; [done|].
  unfold convertFromRedisJsonKnown in *. erewrite forEach_cons_ok; [exact IH|].
  unfold knownFieldFromJson, JSONPath. rewrite bind_reads.
  pose proof (Hg h json v Hjson) as Hres.
  simpl in Hres. by rewrite Hres.
Qed.

Lemma convertToRedisJsonKnown_unrelated (h : heap) json f v fields :
  h !! json = Some (OObject {[f := v]}) ->
  Forall (unrelated f) fields ->
  convertToRedisJsonKnown fields json h = (Ok tt, h).
Proof.
  intros Hjson Hfields. apply (convertToRedisJsonKnown_nothing h json f v);
    [done|]. eapply Forall_impl; [done|]. apply unrelated_findsNothing.
Qed.

Lemma convertFromRedisJsonKnown_unrelated (h : heap) json f v fields :
  h !! json = Some (OObject {[f := v]}) ->
  Forall (unrelated f) fields ->
  convertFromRedisJsonKnown fields json h = (Ok tt, h).
Proof.
  intros Hjson Hfields. apply (convertFromRedisJsonKnown_nothing h json f v);
    [done|]. eapply Forall_impl; [done|]. apply unrelated_findsNothing.
Qed.

Lemma setProp_single (h : heap) json f v v' :
  h !! json = Some (OObject {[f := v]}) ->
  setProp json (KName f) v' h = (Ok tt, <[json := OObject {[f := v']}]> h).
Proof. intros Hjson. unfold setProp. by rewrite Hjson, insert_singleton_eq. Qed.

(** The pass over the schema rewrites the one key with what the value
    conversion gives. *)
Lemma convertToRedisJsonKnown_found (h he : heap) json f fieldDef v ve
    before after :
  findsKey f (f, fieldDef) ->
  Forall (findsNothing f) before -> Forall (findsNothing f) after ->
  h !! json = Some (OObject {[f := v]}) ->
  isDefined v = true ->
  convertKnownValueToJson (type fieldDef) v h = (Ok ve, he) ->
  he !! json = Some (OObject {[f := v]}) ->
  convertToRedisJsonKnown (before ++ (f, fieldDef) :: after) json h
    = (Ok tt, <[json := OObject {[f := ve]}]> he).
Proof.
  intros Hfound Hbefore Hafter Hjson Hdef Hconv Hjson'.
  unfold convertToRedisJsonKnown.
  rewrite forEach_app.
  fold (convertToRedisJsonKnown before json).
  rewrite (convertToRedisJsonKnown_nothing h json f v before Hjson Hbefore).
  erewrite forEach_cons_ok.
  - apply (convertToRedisJsonKnown_nothing _ json f ve after);
      [by rewrite lookup_insert_eq|done].
  - unfold knownFieldToJson, JSONPath. rewrite bind_reads.
    pose proof (Hfound h json v Hjson) as Hres. simpl in Hres. rewrite Hres.
    unfold convertKnownResultToJson. simpl. rewrite Hdef.
    erewrite bind_ok by exact Hconv. by apply (setProp_single he json f v).
Qed.

Lemma convertFromRedisJsonKnown_found (h hd : heap) data f fieldDef v v'
    before after :
  findsKey f (f, fieldDef) ->
  Forall (findsNothing f) before -> Forall (findsNothing f) after ->
  h !! data = Some (OObject {[f := v]}) ->
  convertKnownValueFromJson fieldDef v h = (Ok v', hd) ->
  hd !! data = Some (OObject {[f := v]}) ->
  convertFromRedisJsonKnown (before ++ (f, fieldDef) :: after) data h
    = (Ok tt, <[data := OObject {[f := v']}]> hd).
Proof.
  intros Hfound Hbefore Hafter Hdata Hconv Hdata'.
  unfold convertFromRedisJsonKnown.
  rewrite forEach_app.
  fold (convertFromRedisJsonKnown before data).
  rewrite (convertFromRedisJsonKnown_nothing h data f v before Hdata Hbefore).
  erewrite forEach_cons_ok.
  - apply (convertFromRedisJsonKnown_nothing _ data f v' after);
      [by rewrite lookup_insert_eq|done].
  - unfold knownFieldFromJson, JSONPath. rewrite bind_reads.
    pose proof (Hfound h data v Hdata) as Hres. simpl in Hres. rewrite Hres.
    simpl.
    erewrite bind_ok by exact Hconv. by apply (setProp_single hd data f v).
Qed.

(** ** Copies *)

Lemma fresh_lookup (h : heap) l o : h !! l = Some o -> fresh (dom h) <> l.
Proof.
  intros Hl Heq. apply (is_fresh (dom h)). rewrite Heq. by apply elem_of_dom.
Qed.

Lemma getObj_ok {B} (k : obj -> M B) (h : heap) l o :
  h !! l = Some o -> bind (getObj l) k h = k o h.
Proof. intros Hl. apply bind_ok. unfold getObj. by rewrite Hl. Qed.

Lemma mapM__strings_clone recur (ss : list string) (h : heap) :
  mapM_ (cloneValue recur) (VString <$> ss) h = (Ok (VString <$> ss), h).
Proof.
  induction ss as [|s ss IH]; [done|]. simpl. rewrite bind_ret.
  by erewrite bind_ok by exact IH.
Qed.

Lemma mapM__strings_toJson arr (ss : list string) (h : heap) :
  mapM_ (elementToJson arr) (VString <$> ss) h = (Ok (VString <$> ss), h).
Proof.
  induction ss as [|s ss IH]; [done|]. simpl.
  unfold elementToJson at 1. simpl. erewrite bind_ok by reflexivity.
  by erewrite bind_ok by exact IH.
Qed.

Lemma mapM__strings_fromJson arr (ss : list string) (h : heap) :
  mapM_ (elementFromJson arr) (VString <$> ss) h = (Ok (VString <$> ss), h).
Proof.
  induction ss as [|s ss IH]; [done|]. simpl.
  unfold elementFromJson at 1. simpl. erewrite bind_ok by reflexivity.
  by erewrite bind_ok by exact IH.
Qed.

Lemma mapM__numbers_clone recur (kvs : list (string * val)) (h : heap) :
  Forall (fun kv => exists n, kv.2 = VNumber n) kvs ->
  mapM_ (cloneEntry recur) kvs h = (Ok kvs, h).
Proof.
  induction 1 as [|[k v] kvs [n Hn] _ IH]; [done|]. simpl in *. subst v.
  unfold cloneEntry at 1. simpl. erewrite bind_ok by reflexivity.
  by erewrite bind_ok by exact IH.
Qed.

Lemma clone_date n (h : heap) d t :
  h !! d = Some (ODate t) ->
  clone (S n) d h = (Ok (fresh (dom h)), <[fresh (dom h) := ODate t]> h).
Proof. intros Hd. simpl. by rewrite (getObj_ok _ h d _ Hd). Qed.

Lemma clone_strings n (h : heap) a ss :
  h !! a = Some (OArray (VString <$> ss)) ->
  clone (S n) a h
    = (Ok (fresh (dom h)), <[fresh (dom h) := OArray (VString <$> ss)]> h).
Proof.
  intros Ha. simpl. rewrite (getObj_ok _ h a _ Ha).
  by erewrite bind_ok by apply mapM__strings_clone.
Qed.

Lemma clone_point n (h : heap) q p :
  h !! q = Some (OObject (pointProps p)) ->
  clone (S n) q h
    = (Ok (fresh (dom h)), <[fresh (dom h) := OObject (pointProps p)]> h).
Proof.
  intros Hq. simpl. rewrite (getObj_ok _ h q _ Hq).
  erewrite bind_ok.
  - by rewrite list_to_map_to_list.
  - apply mapM__numbers_clone. apply Forall_forall.
    intros [k v] Hk%elem_of_map_to_list. unfold pointProps in Hk. simpl.
    apply lookup_insert_Some in Hk as [[_ <-]|[_ Hk]]; [eauto|].
    apply lookup_insert_Some in Hk as [[_ <-]|[_ Hk]]; [eauto|done].
Qed.

Lemma clone_single n data f v vc (h hc : heap) :
  h !! data = Some (OObject {[f := v]}) ->
  cloneValue (clone n) v h = (Ok vc, hc) ->
  clone (S n) data h
    = (Ok (fresh (dom hc)), <[fresh (dom hc) := OObject {[f := vc]}]> hc).
Proof.
  intros Hdata Hv. simpl. rewrite (getObj_ok _ h data _ Hdata).
  rewrite map_to_list_singleton.
  assert (mapM_ (cloneEntry (clone n)) [(f, v)] h = (Ok [(f, vc)], hc)) as Hm.
  { simpl. unfold cloneEntry. simpl.
    erewrite bind_ok; [|by erewrite bind_ok by exact Hv]. done. }
  erewrite bind_ok by exact Hm. unfold alloc. simpl. by rewrite insert_empty.
Qed.

(** ** The pass over the keys of a document whose one key is stored *)

Lemma convertToRedisJsonUnknown_single n json f ve (h : heap) :
  h !! json = Some (OObject {[f := ve]}) ->
  isUndefined ve = false -> isObject h ve = false -> dateTime h ve = None ->
  convertToRedisJsonUnknown (S n) json h = (Ok json, h).
Proof.
  intros Hjson Hundef Hobj Hdate.
  assert (objectEntries json h = (Ok [(KName f, ve)], h)) as Hentries.
  { unfold objectEntries. rewrite (getObj_ok _ h json _ Hjson).
    unfold ret. simpl. by rewrite map_to_list_singleton. }
  assert (unknownEntryToJson (convertToRedisJsonUnknown n) json (KName f, ve) h
          = (Ok tt, h)) as Hentry.
  { unfold unknownEntryToJson. rewrite Hundef, bind_reads, Hobj.
    unfold convertUnknownValueToJson.
    erewrite bind_ok by (by rewrite bind_reads, Hdate).
    rewrite (setProp_single h json f ve ve Hjson). by rewrite insert_id. }
  simpl. erewrite bind_ok by exact Hentries.
  erewrite bind_ok; [done|]. simpl. by erewrite bind_ok by exact Hentry.
Qed.

(** ** The value conversions on what an application stores *)

Lemma toJson_array (h : heap) a ss :
  h !! a = Some (OArray (VString <$> ss)) ->
  convertKnownValueToJson TStringArray (VRef a) h
    = (Ok (VRef (fresh (dom h))),
       <[fresh (dom h) := OArray (VString <$> ss)]> h).
Proof.
  intros Ha. unfold convertKnownValueToJson. simpl.
  rewrite bind_reads. simpl. rewrite Ha.
  unfold convertArrayToStringArray.
  by erewrite bind_ok by apply mapM__strings_toJson.
Qed.

Lemma toJson_date (h : heap) d t :
  h !! d = Some (ODate t) ->
  convertKnownValueToJson TDate (VRef d) h
    = (Ok (VNumber (convertDateToEpoch t)), h).
Proof.
  intros Hd. unfold convertKnownValueToJson. simpl.
  rewrite bind_reads. simpl. by rewrite Hd.
Qed.

Lemma toJson_point (h : heap) q props :
  h !! q = Some (OObject props) -> isPointObject props = true ->
  convertKnownValueToJson TPoint (VRef q) h
    = (Ok (VString (pointObjectToString props)), h).
Proof.
  intros Hq Hpoint. unfold convertKnownValueToJson. simpl.
  rewrite bind_reads. unfold isPoint. simpl. rewrite Hq, Hpoint.
  rewrite bind_reads. unfold convertPointToString. simpl. by rewrite Hq.
Qed.

Lemma fromJson_array (h : heap) a ss p :
  h !! a = Some (OArray (VString <$> ss)) ->
  convertKnownValueFromJson {| type := TStringArray; path := p |} (VRef a) h
    = (Ok (VRef (fresh (dom h))),
       <[fresh (dom h) := OArray (VString <$> ss)]> h).
Proof.
  intros Ha. unfold convertKnownValueFromJson. simpl.
  rewrite bind_reads. simpl. rewrite Ha.
  unfold convertFromJsonArrayToStringArray.
  by erewrite bind_ok by apply mapM__strings_fromJson.
Qed.

Lemma fromJson_point (h : heap) s p :
  isPointString s = true ->
  convertKnownValueFromJson {| type := TPoint; path := p |} (VString s) h
    = (Ok (VRef (fresh (dom h))),
       <[fresh (dom h) := OObject (pointProps (convertStringToPoint s))]> h).
Proof. intros Hs. unfold convertKnownValueFromJson. simpl. by rewrite Hs. Qed.

(** ** Encoding and decoding a document with the one key [f] *)

Lemma toRedisJson_found fuel schema f fieldDef before after data v vc ve
    (h hc he : heap) :
  definition schema = before ++ (f, fieldDef) :: after ->
  findsKey f (f, fieldDef) ->
  Forall (findsNothing f) before -> Forall (findsNothing f) after ->
  h !! data = Some (OObject {[f := v]}) ->
  cloneValue (clone (S fuel)) v h = (Ok vc, hc) ->
  isDefined vc = true ->
  convertKnownValueToJson (type fieldDef) vc
      (<[fresh (dom hc) := OObject {[f := vc]}]> hc) = (Ok ve, he) ->
  he !! fresh (dom hc) = Some (OObject {[f := vc]}) ->
  isUndefined ve = false ->
  isObject (<[fresh (dom hc) := OObject {[f := ve]}]> he) ve = false ->
  dateTime (<[fresh (dom hc) := OObject {[f := ve]}]> he) ve = None ->
  toRedisJson (S (S fuel)) schema data h
    = (Ok (fresh (dom hc)), <[fresh (dom hc) := OObject {[f := ve]}]> he).
Proof.
  intros Hdef Hfound Hbefore Hafter Hdata Hclone Hdefined Hconv Hjson
    Hundef Hobj Hdate.
  unfold toRedisJson.
  erewrite bind_ok by exact (clone_single _ data f v vc h hc Hdata Hclone).
  rewrite Hdef.
  erewrite bind_ok.
  - apply (convertToRedisJsonUnknown_single _ _ f ve); [|done..].
    apply lookup_insert_eq.
  - apply (convertToRedisJsonKnown_found _ he _ f fieldDef vc ve); try done.
    apply lookup_insert_eq.
Qed.

Lemma fromRedisJson_found fuel schema f fieldDef before after json v vc v'
    (h hc hd : heap) :
  definition schema = before ++ (f, fieldDef) :: after ->
  findsKey f (f, fieldDef) ->
  Forall (findsNothing f) before -> Forall (findsNothing f) after ->
  h !! json = Some (OObject {[f := v]}) ->
  cloneValue (clone (S fuel)) v h = (Ok vc, hc) ->
  convertKnownValueFromJson fieldDef vc
      (<[fresh (dom hc) := OObject {[f := vc]}]> hc) = (Ok v', hd) ->
  hd !! fresh (dom hc) = Some (OObject {[f := vc]}) ->
  fromRedisJson (S (S fuel)) schema json h
    = (Ok (fresh (dom hc)), <[fresh (dom hc) := OObject {[f := v']}]> hd).
Proof.
  intros Hdef Hfound Hbefore Hafter Hjson Hclone Hconv Hdata.
  unfold fromRedisJson.
  erewrite bind_ok by exact (clone_single _ json f v vc h hc Hjson Hclone).
  rewrite Hdef.
  erewrite bind_ok; [done|].
  apply (convertFromRedisJsonKnown_found _ hd _ f fieldDef vc v'); try done.
  apply lookup_insert_eq.
Qed.

Lemma toRedisJson_single fuel schema f ty before after data v vc ve
    (h hc he : heap) :
  plainName f = true ->
  definition schema = before ++ (f, {| type := ty; path := None |}) :: after ->
  Forall (unrelated f) before -> Forall (unrelated f) after ->
  h !! data = Some (OObject {[f := v]}) ->
  cloneValue (clone (S fuel)) v h = (Ok vc, hc) ->
  isDefined vc = true ->
  convertKnownValueToJson ty vc
      (<[fresh (dom hc) := OObject {[f := vc]}]> hc) = (Ok ve, he) ->
  he !! fresh (dom hc) = Some (OObject {[f := vc]}) ->
  isUndefined ve = false ->
  isObject (<[fresh (dom hc) := OObject {[f := ve]}]> he) ve = false ->
  dateTime (<[fresh (dom hc) := OObject {[f := ve]}]> he) ve = None ->
  toRedisJson (S (S fuel)) schema data h
    = (Ok (fresh (dom hc)), <[fresh (dom hc) := OObject {[f := ve]}]> he).
Proof.
  intros Hname Hdef Hbefore Hafter.
  apply (toRedisJson_found fuel schema f {| type := ty; path := None |}
           before after); [done|by apply plainName_findsKey|..];
    (eapply Forall_impl; [done|]; apply unrelated_findsNothing).
Qed.

Lemma fromRedisJson_single fuel schema f ty before after json v vc v'
    (h hc hd : heap) :
  plainName f = true ->
  definition schema = before ++ (f, {| type := ty; path := None |}) :: after ->
  Forall (unrelated f) before -> Forall (unrelated f) after ->
  h !! json = Some (OObject {[f := v]}) ->
  cloneValue (clone (S fuel)) v h = (Ok vc, hc) ->
  convertKnownValueFromJson {| type := ty; path := None |} vc
      (<[fresh (dom hc) := OObject {[f := vc]}]> hc) = (Ok v', hd) ->
  hd !! fresh (dom hc) = Some (OObject {[f := vc]}) ->
  fromRedisJson (S (S fuel)) schema json h
    = (Ok (fresh (dom hc)), <[fresh (dom hc) := OObject {[f := v']}]> hd).
Proof.
  intros Hname Hdef Hbefore Hafter.
  apply (fromRedisJson_found fuel schema f {| type := ty; path := None |}
           before after); [done|by apply plainName_findsKey|..];
    (eapply Forall_impl; [done|]; apply unrelated_findsNothing).
Qed.

(** ** The round trip *)

Lemma cloneValue_ref recur l l' (h h' : heap) :
  recur l h = (Ok l', h') -> cloneValue recur (VRef l) h = (Ok (VRef l'), h').
Proof. intros Hl. simpl. by erewrite bind_ok by exact Hl. Qed.

Lemma isObject_array (h : heap) l elems :
  h !! l = Some (OArray elems) -> isObject h (VRef l) = false.
Proof. intros Hl. simpl. by rewrite Hl. Qed.

Lemma dateTime_array (h : heap) l elems :
  h !! l = Some (OArray elems) -> dateTime h (VRef l) = None.
Proof. intros Hl. simpl. by rewrite Hl. Qed.

(** Lookups in a heap grown by allocations: a location in use is not the
    fresh one. *)
Ltac lookup_fresh :=
  repeat first
    [ eassumption
    | apply lookup_insert_eq
    | rewrite lookup_insert_ne;
      [|first [ by (eapply fresh_lookup; lookup_fresh)
              | by (apply not_eq_sym; eapply fresh_lookup; lookup_fresh) ]] ].

(** C1 (amended).  Take a schema with a field [f] of type [ty] whose
    path finds, in a document whose one key is [f], that key and nothing
    else, and whose other fields have paths that find nothing there; a
    document [{ f: v }] where [v] is of the declared type: a boolean, a
    number, a string, an array of strings, a [Date], or a point that
    [isPoint] accepts; and helpers whose stored form keeps a date to the
    second and a point's longitude and latitude.  Then encoding returns,
    decoding what it returned returns, and the result is a document
    [{ f: v' }] where [v'] is the same boolean, number or string, a new
    array of the same strings, a new [Date] of the same epoch, or a new
    point of the same longitude and latitude. *)
Theorem round_trip fuel schema f ty p before after data v (h : heap) :
  definition schema = before ++ (f, {| type := ty; path := p |}) :: after ->
  findsKey f (f, {| type := ty; path := p |}) ->
  Forall (findsNothing f) before -> Forall (findsNothing f) after ->
  h !! data = Some (OObject {[f := v]}) ->
  applicationValue h ty v ->
  storeKeeps h ty v ->
  exists json h1 result h2 v',
    toRedisJson (S (S fuel)) schema data h = (Ok json, h1)
    /\ fromRedisJson (S (S fuel)) schema json h1 = (Ok result, h2)
    /\ h2 !! result = Some (OObject {[f := v']})
    /\ roundTripped h h2 ty v v'.
Proof.
  intros Hdef Hfound Hbefore Hafter Hdata Hv Hkeeps.
  destruct Hv as [b|n|s|s|a ss Ha|d t Hd|q lon lat Hq Hpoint].
  1-4: eexists _, _, _, _, _; split_and!;
    [ eapply toRedisJson_found;
        first [done | apply lookup_insert_eq | reflexivity]
    | eapply fromRedisJson_found;
        first [done | apply lookup_insert_eq | reflexivity]
    | apply lookup_insert_eq
    | constructor ].
  - eexists _, _, _, _, _; split_and!.
    + eapply toRedisJson_found; try done.
      * apply cloneValue_ref, clone_strings, Ha.
      * done.
      * apply toJson_array. lookup_fresh.
      * lookup_fresh.
      * done.
      * eapply isObject_array. lookup_fresh.
      * eapply dateTime_array. lookup_fresh.
    + eapply fromRedisJson_found; try done.
      * apply lookup_insert_eq.
      * apply cloneValue_ref, clone_strings. lookup_fresh.
      * apply fromJson_array. lookup_fresh.
      * lookup_fresh.
    + apply lookup_insert_eq.
    + econstructor; [exact Ha|]. lookup_fresh.
  - eexists _, _, _, _, _; split_and!.
    + eapply toRedisJson_found; try done.
      * apply cloneValue_ref, clone_date, Hd.
      * done.
      * apply toJson_date. lookup_fresh.
      * lookup_fresh.
      * done.
      * done.
      * done.
    + eapply fromRedisJson_found; try done.
      * apply lookup_insert_eq.
      * reflexivity.
      * reflexivity.
      * lookup_fresh.
    + apply lookup_insert_eq.
    + econstructor; [exact Hd|lookup_fresh|].
      apply (Hkeeps t). simpl. by rewrite Hd.
  - destruct (Hkeeps lon lat) as [Hstring Hback].
    { unfold objectProps. by rewrite Hq. }
    eexists _, _, _, _, _; split_and!.
    + eapply toRedisJson_found; try done.
      * apply cloneValue_ref, clone_point, Hq.
      * done.
      * apply toJson_point; [lookup_fresh|exact Hpoint].
      * lookup_fresh.
      * done.
      * done.
      * done.
    + eapply fromRedisJson_found; try done.
      * apply lookup_insert_eq.
      * reflexivity.
      * apply fromJson_point, Hstring.
      * lookup_fresh.
    + apply lookup_insert_eq.
    + rewrite Hback. econstructor; [exact Hq|]. lookup_fresh.
Qed.
End RoundTrip.

(** * Type errors *)

Section TypeErrors.
Context `{TransformerCommon}.

Lemma isDate_dateTime (h : heap) v :
  isDate h v = false -> dateTime h v = None.
Proof.
  destruct v as [| | | | |l]; try done. simpl.
  by destruct (h !! l) as [[]|].
Qed.

Lemma isDate_dateTime_Some (h : heap) v :
  isDate h v = true -> exists t, dateTime h v = Some t.
Proof.
  destruct v as [| | | | |l]; try done. simpl.
  destruct (h !! l) as [[| |t]|]; try done. eauto.
Qed.

Lemma isArray_arrayElems (h : heap) v :
  isArray h v = false -> arrayElems h v = None.
Proof.
  destruct v as [| | | | |l]; try done. simpl.
  by destruct (h !! l) as [[]|].
Qed.

Lemma isArray_arrayElems_Some (h : heap) v :
  isArray h v = true -> exists elems, arrayElems h v = Some elems.
Proof.
  destruct v as [| | | | |l]; try done. simpl.
  destruct (h !! l) as [[|elems|]|]; try done. eauto.
Qed.

Lemma convertKnownValueToString_rejects (h : heap) v :
  isBoolean v || isNumber v || isString v = false ->
  convertKnownValueToString v h
    = (Throw (ThrownError ("Expected a string but received: "
                             +:+ stringifyError h v)), h).
Proof. by destruct v. Qed.

Lemma convertKnownValueToJson_rejects (h : heap) ty v :
  isNull v = false ->
  encoderAccepts h ty v = false ->
  convertKnownValueToJson ty v h
    = (Throw (ThrownError (encoderMessage ty +:+ stringifyError h v)), h).
Proof.
  intros Hnull Hacc. unfold convertKnownValueToJson. rewrite Hnull.
  destruct ty; simpl in Hacc.
  - by rewrite Hacc.
  - by rewrite Hacc.
  - apply orb_false_elim in Hacc as [[Hd Hs]%orb_false_elim Hn].
    rewrite bind_reads, (isDate_dateTime h v Hd). by destruct v.
  - rewrite bind_reads, Hacc. done.
  - by apply convertKnownValueToString_rejects.
  - by apply convertKnownValueToString_rejects.
  - rewrite bind_reads, (isArray_arrayElems h v Hacc). done.
Qed.

Lemma convertKnownValueFromJson_rejects (h : heap) ty p v :
  isNull v = false ->
  decoderAccepts h ty v = false ->
  convertKnownValueFromJson {| type := ty; path := p |} v h
    = (Throw (ThrownError (decoderMessage ty +:+ stringifyError h v)), h).
Proof.
  intros Hnull Hacc. unfold convertKnownValueFromJson. rewrite Hnull.
  destruct ty; simpl in *.
  - by rewrite Hacc.
  - by rewrite Hacc.
  - by destruct v.
  - destruct v; try done. by rewrite Hacc.
  - apply orb_false_elim in Hacc as [[-> ->]%orb_false_elim ->]. done.
  - apply orb_false_elim in Hacc as [[-> ->]%orb_false_elim ->]. done.
  - rewrite bind_reads, (isArray_arrayElems h v Hacc). done.
Qed.

(** X1.  Encoding stops with a type error at the first field whose path
    has one match, when that match is neither [undefined] nor [null] nor
    of a shape the encoder takes for the type of the field: once the clone
    is made and the fields before it are converted, [toRedisJson] throws
    the [Error] that names the type and shows the value, and writes
    nothing more. *)
Theorem toRedisJson_type_error
    fuel schema data (h : heap) fieldsBefore fieldName fieldDef fieldsAfter
    json h1 h2 r :
  definition schema = fieldsBefore ++ (fieldName, fieldDef) :: fieldsAfter ->
  clone fuel data h = (Ok json, h1) ->
  convertToRedisJsonKnown fieldsBefore json h1 = (Ok tt, h2) ->
  resolve h2 (pathOf fieldName fieldDef) json = [r] ->
  isUndefined (value r) = false ->
  isNull (value r) = false ->
  encoderAccepts h2 (type fieldDef) (value r) = false ->
  toRedisJson fuel schema data h =
    (Throw (ThrownError (encoderMessage (type fieldDef)
                           +:+ stringifyError h2 (value r))), h2).
Proof.
  intros Hdef Hclone Hbefore Hres Hundef Hnull Hacc.
  unfold toRedisJson. erewrite bind_ok by exact Hclone.
  rewrite Hdef. apply bind_throw.
  eapply forEach_app_throw; [exact Hbefore|].
  unfold knownFieldToJson, JSONPath. rewrite bind_reads, Hres.
  unfold convertKnownResultToJson, isDefined. rewrite Hundef. simpl.
  apply bind_throw. by apply convertKnownValueToJson_rejects.
Qed.

(** X2.  Decoding stops with a type error at the first field whose path
    has one match, when that match is neither [null] nor of the stored
    shape of the type of the field; [undefined] is such a match. *)
Theorem fromRedisJson_type_error
    fuel schema json (h : heap) fieldsBefore fieldName fieldDef fieldsAfter
    data h1 h2 r :
  definition schema = fieldsBefore ++ (fieldName, fieldDef) :: fieldsAfter ->
  clone fuel json h = (Ok data, h1) ->
  convertFromRedisJsonKnown fieldsBefore data h1 = (Ok tt, h2) ->
  resolve h2 (pathOf fieldName fieldDef) data = [r] ->
  isNull (value r) = false ->
  decoderAccepts h2 (type fieldDef) (value r) = false ->
  fromRedisJson fuel schema json h =
    (Throw (ThrownError (decoderMessage (type fieldDef)
                           +:+ stringifyError h2 (value r))), h2).
Proof.
  intros Hdef Hclone Hbefore Hres Hnull Hacc.
  unfold fromRedisJson. erewrite bind_ok by exact Hclone.
  rewrite Hdef. apply bind_throw.
  eapply forEach_app_throw; [exact Hbefore|].
  unfold knownFieldFromJson, JSONPath. rewrite bind_reads, Hres.
  apply bind_throw. destruct fieldDef as [ty p].
  by apply convertKnownValueFromJson_rejects.
Qed.

Lemma bind_inv_throw {A B} (m : M A) (k : A -> M B) (h h2 : heap) e :
  bind m k h = (Throw e, h2) ->
  m h = (Throw e, h2)
  \/ exists a h1, m h = (Ok a, h1) /\ k a h1 = (Throw e, h2).
Proof.
  unfold bind. destruct (m h) as [[a|e'|] h1]; try done.
  - right. by exists a, h1.
  - intros [= <- <-]. by left.
Qed.

Lemma toString_throw v (h h' : heap) e :
  toString v h = (Throw e, h') -> e = ThrownTypeError.
Proof.
  destruct v as [| | | | |l]; try by intros [= <- _].
  unfold toString. destruct (h !! l); [|done].
  destruct (joins (S (size h)) h (VRef l)); by intros [= <- _].
Qed.

Lemma elementToJson_throw arr v (h h' : heap) e :
  elementToJson arr v h = (Throw e, h') ->
  e = ThrownTypeError \/ exists s, e = ThrownString s.
Proof.
  unfold elementToJson.
  destruct (isNull v); [intros [= <- _]; eauto|].
  destruct (isUndefined v); [intros [= <- _]; eauto|].
  intros [Hs|(s & h1 & _ & [=])]%bind_inv_throw.
  left. by eapply toString_throw.
Qed.

Lemma elementFromJson_throw arr v (h h' : heap) e :
  elementFromJson arr v h = (Throw e, h') ->
  e = ThrownTypeError \/ exists s, e = ThrownString s.
Proof.
  unfold elementFromJson.
  destruct (isNull v); [intros [= <- _]; eauto|].
  intros [Hs|(s & h1 & _ & [=])]%bind_inv_throw.
  left. by eapply toString_throw.
Qed.

Lemma mapM__throw {A B} (f : A -> M B) l (h h' : heap) e :
  mapM_ f l h = (Throw e, h') ->
  exists a h1 h2, a ∈ l /\ f a h1 = (Throw e, h2).
Proof.
  revert h. induction l as [|a l IH]; intros h; simpl; [done|].
  intros [Ha|(b & h1 & Ha & [Hl|(bs & h2 & _ & Hret)]%bind_inv_throw)]%bind_inv_throw.
  - exists a, h, h'. split; [by left|done].
  - destruct (IH _ Hl) as (a' & ha & hb & Hin & Hthrow).
    exists a', ha, hb. split; [by right|done].
  - done.
Qed.

(** X3.  The two value conversions raise their type [Error] for the
    shapes outside their tables and for no other: a value that is not
    [null] makes [convertKnownValueToJson] throw an [Error] exactly when
    the encoder does not take its shape for the type, and makes
    [convertKnownValueFromJson] throw an [Error] exactly when it is not of
    the stored shape of the type. *)
Theorem type_error_exactly (h : heap) ty p v :
  isNull v = false ->
  (encoderAccepts h ty v = false <->
     exists msg h',
       convertKnownValueToJson ty v h = (Throw (ThrownError msg), h'))
  /\ (decoderAccepts h ty v = false <->
     exists msg h',
       convertKnownValueFromJson {| type := ty; path := p |} v h
         = (Throw (ThrownError msg), h')).
Proof.
  intros Hnull. split; split.
  - intros Hacc. eexists _, _. by apply convertKnownValueToJson_rejects.
  - intros (msg & h' & Hthrow).
    destruct (encoderAccepts h ty v) eqn:Hacc; [exfalso|done].
    unfold convertKnownValueToJson in Hthrow. rewrite Hnull in Hthrow.
    destruct ty; simpl in Hacc.
    + by rewrite Hacc in Hthrow.
    + by rewrite Hacc in Hthrow.
    + rewrite bind_reads in Hthrow.
      destruct (isDate h v) eqn:Hd.
      * apply isDate_dateTime_Some in Hd as [t Ht]. by rewrite Ht in Hthrow.
      * rewrite (isDate_dateTime h v Hd) in Hthrow. by destruct v.
    + rewrite bind_reads, Hacc in Hthrow. done.
    + by destruct v.
    + by destruct v.
    + rewrite bind_reads in Hthrow.
      apply isArray_arrayElems_Some in Hacc as [elems Hel].
      rewrite Hel in Hthrow. unfold convertArrayToStringArray in Hthrow.
      apply bind_inv_throw in Hthrow as [Hmap|(strs & h1 & _ & Halloc)];
        [|done].
      apply mapM__throw in Hmap as (a & ha & hb & _ & Ha).
      by apply elementToJson_throw in Ha as [[=]|[s [=]]].
  - intros Hacc. eexists _, _. by apply convertKnownValueFromJson_rejects.
  - intros (msg & h' & Hthrow).
    destruct (decoderAccepts h ty v) eqn:Hacc; [exfalso|done].
    unfold convertKnownValueFromJson in Hthrow. rewrite Hnull in Hthrow.
    destruct ty; simpl in *.
    + by rewrite Hacc in Hthrow.
    + by rewrite Hacc in Hthrow.
    + by destruct v.
    + destruct v; try done. by rewrite Hacc in Hthrow.
    + by destruct v.
    + by destruct v.
    + rewrite bind_reads in Hthrow.
      apply isArray_arrayElems_Some in Hacc as [elems Hel].
      rewrite Hel in Hthrow.
      unfold convertFromJsonArrayToStringArray in Hthrow.
      apply bind_inv_throw in Hthrow as [Hmap|(strs & h1 & _ & Halloc)];
        [|done].
      apply mapM__throw in Hmap as (a & ha & hb & _ & Ha).
      by apply elementFromJson_throw in Ha as [[=]|[s [=]]].
Qed.
End TypeErrors.


(** * Arrays of strings *)

Section StringArrays.
Context `{TransformerCommon}.

Lemma toString_stringOf v (h : heap) :
  stringifiable h v -> toString v h = (Ok (stringOf h v), h).
Proof.
  destruct v as [| | | | |l]; try done.
  intros Hv. unfold toString.
  destruct (joins_lookup _ _ _ Hv) as [o ->].
  unfold stringifiable in Hv. by rewrite Hv.
Qed.

Lemma toString_ok_inv v (h h' : heap) s :
  toString v h = (Ok s, h') -> stringifiable h v.
Proof.
  destruct v as [| | | | |l]; try done.
  unfold toString, stringifiable. destruct (h !! l); [|done].
  by destruct (joins (S (size h)) h (VRef l)).
Qed.

Lemma elementToJson_ok arr v (h : heap) :
  stringifiable h v ->
  elementToJson arr v h = (Ok (VString (stringOf h v)), h).
Proof.
  intros Hv. unfold elementToJson.
  destruct (stringifiable_defined h v Hv) as [-> ->].
  by erewrite bind_ok by (by apply toString_stringOf).
Qed.

Lemma elementFromJson_ok arr v (h : heap) :
  stringifiable h v ->
  elementFromJson arr v h = (Ok (VString (stringOf h v)), h).
Proof.
  intros Hv. unfold elementFromJson.
  destruct (stringifiable_defined h v Hv) as [-> _].
  by erewrite bind_ok by (by apply toString_stringOf).
Qed.

Lemma elementToJson_ok_inv arr v (h h' : heap) b :
  elementToJson arr v h = (Ok b, h') -> stringifiable h v /\ h' = h.
Proof.
  unfold elementToJson. destruct (isNull v); [done|].
  destruct (isUndefined v); [done|].
  intros (s & h1 & Hs & [= _ <-])%bind_inv_ok.
  split; [by eapply toString_ok_inv|by eapply toString_heap].
Qed.

Lemma elementFromJson_ok_inv arr v (h h' : heap) b :
  elementFromJson arr v h = (Ok b, h') -> stringifiable h v /\ h' = h.
Proof.
  unfold elementFromJson. destruct (isNull v); [done|].
  intros (s & h1 & Hs & [= _ <-])%bind_inv_ok.
  split; [by eapply toString_ok_inv|by eapply toString_heap].
Qed.

Lemma mapM__pure {A B} (f : A -> M B) (g : A -> B) l (h : heap) :
  Forall (fun a => f a h = (Ok (g a), h)) l ->
  mapM_ f l h = (Ok (g <$> l), h).
Proof.
  induction 1 as [|a l Ha _ IH]; [done|]. simpl.
  erewrite bind_ok by exact Ha. by erewrite bind_ok by exact IH.
Qed.

(** A callback that returns only where [P] holds, and then leaves the
    heap as it is. *)
Lemma mapM__ok_all {A B} (f : A -> M B) (P : heap -> A -> Prop) l
    (h h' : heap) bs :
  (forall a (h1 h2 : heap) b, f a h1 = (Ok b, h2) -> P h1 a /\ h2 = h1) ->
  mapM_ f l h = (Ok bs, h') -> Forall (P h) l.
Proof.
  intros Hf. revert bs h'. induction l as [|a l IH]; intros bs h'; simpl.
  - constructor.
  - intros (b & h1 & Ha & (bs' & h2 & Hl & _)%bind_inv_ok)%bind_inv_ok.
    destruct (Hf _ _ _ _ Ha) as [HP Heq]. subst h1.
    constructor; [done|]. by eapply IH.
Qed.

Lemma convertArrayToStringArray_ok arr elems (h : heap) :
  Forall (stringifiable h) elems ->
  convertArrayToStringArray arr elems h
    = (Ok (VRef (fresh (dom h))),
       <[fresh (dom h) := OArray (VString <$> (stringOf h <$> elems))]> h).
Proof.
  intros Helems. unfold convertArrayToStringArray. erewrite bind_ok.
  - by rewrite <- list_fmap_compose.
  - apply (mapM__pure _ (fun v => VString (stringOf h v))).
    eapply Forall_impl; [exact Helems|]. intros v Hv.
    by apply elementToJson_ok.
Qed.

Lemma convertFromJsonArrayToStringArray_ok arr elems (h : heap) :
  Forall (stringifiable h) elems ->
  convertFromJsonArrayToStringArray arr elems h
    = (Ok (VRef (fresh (dom h))),
       <[fresh (dom h) := OArray (VString <$> (stringOf h <$> elems))]> h).
Proof.
  intros Helems. unfold convertFromJsonArrayToStringArray. erewrite bind_ok.
  - by rewrite <- list_fmap_compose.
  - apply (mapM__pure _ (fun v => VString (stringOf h v))).
    eapply Forall_impl; [exact Helems|]. intros v Hv.
    by apply elementFromJson_ok.
Qed.

Lemma convertArrayToStringArray_ok_inv arr elems (h h' : heap) v :
  convertArrayToStringArray arr elems h = (Ok v, h') ->
  Forall (stringifiable h) elems.
Proof.
  intros (strs & h1 & Hrun & _)%bind_inv_ok.
  eapply (mapM__ok_all _ stringifiable); [|exact Hrun]. intros a h2 h3 b.
  apply elementToJson_ok_inv.
Qed.

Lemma convertFromJsonArrayToStringArray_ok_inv arr elems (h h' : heap) v :
  convertFromJsonArrayToStringArray arr elems h = (Ok v, h') ->
  Forall (stringifiable h) elems.
Proof.
  intros (strs & h1 & Hrun & _)%bind_inv_ok.
  eapply (mapM__ok_all _ stringifiable); [|exact Hrun]. intros a h2 h3 b.
  apply elementFromJson_ok_inv.
Qed.

(** X4.  The two array conversions return exactly when [toString()]
    returns on every element: none is [null] or [undefined], and none is
    an object without a [toString] to call, which is an object with a
    property of its own under that name or an array that comes upon such
    an object when it is joined.  What they return then is a new array, as
    long as the old one, that holds the string of every element in its
    place.  No element is turned away for its type. *)
Theorem string_array_conversions arr elems (h : heap) :
  (Forall (stringifiable h) elems ->
     convertArrayToStringArray arr elems h
       = (Ok (VRef (fresh (dom h))),
          <[fresh (dom h) := OArray (VString <$> (stringOf h <$> elems))]> h)
     /\ convertFromJsonArrayToStringArray arr elems h
       = (Ok (VRef (fresh (dom h))),
          <[fresh (dom h) := OArray (VString <$> (stringOf h <$> elems))]> h))
  /\ (forall v h',
        convertArrayToStringArray arr elems h = (Ok v, h') ->
        Forall (stringifiable h) elems)
  /\ (forall v h',
        convertFromJsonArrayToStringArray arr elems h = (Ok v, h') ->
        Forall (stringifiable h) elems).
Proof.
  split_and!.
  - intros Helems. split.
    + by apply convertArrayToStringArray_ok.
    + by apply convertFromJsonArrayToStringArray_ok.
  - intros v h'. apply convertArrayToStringArray_ok_inv.
  - intros v h'. apply convertFromJsonArrayToStringArray_ok_inv.
Qed.

(** X5.  A [string[]] field whose one match is an array with an
    [undefined] element, [toString()] returning on all that stands before
    it: encoding throws the string that says so and shows the array;
    decoding has no check for [undefined] and ends in the [TypeError] of
    calling [toString] on it.  Nothing is written. *)
Theorem string_array_undefined_aborts
    json fieldName fieldDef (h : heap) r pre post :
  type fieldDef = TStringArray ->
  resolve h (pathOf fieldName fieldDef) json = [r] ->
  arrayElems h (value r) = Some (pre ++ VUndefined :: post) ->
  Forall (stringifiable h) pre ->
  knownFieldToJson json (fieldName, fieldDef) h =
    (Throw (ThrownString
       ("Expected a string[] but received an array containing undefined: "
          +:+ stringifyError h (value r))), h)
  /\ knownFieldFromJson json (fieldName, fieldDef) h
     = (Throw ThrownTypeError, h).
Proof.
  intros Hty Hres Helems Hpre.
  assert (isNull (value r) = false /\ isDefined (value r) = true) as [Hnn Hdef].
  { destruct (value r); done. }
  unfold knownFieldToJson, knownFieldFromJson, JSONPath.
  rewrite !bind_reads, Hres. split.
  - unfold convertKnownResultToJson. rewrite Hdef.
    erewrite bind_throw; [done|].
    unfold convertKnownValueToJson. rewrite Hnn, Hty, bind_reads, Helems.
    destruct (elementToJson_stringifiable (value r) pre h Hpre) as [strs Hs].
    unfold convertArrayToStringArray.
    erewrite bind_throw; [done|]. by eapply mapM__app_throw.
  - erewrite bind_throw; [done|].
    unfold convertKnownValueFromJson. rewrite Hnn, Hty, bind_reads, Helems.
    destruct (elementFromJson_stringifiable (value r) pre h Hpre) as [strs Hs].
    unfold convertFromJsonArrayToStringArray.
    erewrite bind_throw; [done|]. by eapply mapM__app_throw.
Qed.

(** X6.  What the encoder stores for a field that is not a point, the
    decoder takes: whenever [convertKnownValueToJson] returns, the value
    it returns is converted by [convertKnownValueFromJson] for the same
    type without an error. *)
Theorem encoded_value_decodes ty p v v' (h h' : heap) :
  ty <> TPoint ->
  convertKnownValueToJson ty v h = (Ok v', h') ->
  exists v'' h'',
    convertKnownValueFromJson {| type := ty; path := p |} v' h'
      = (Ok v'', h'').
Proof.
  intros Hty. unfold convertKnownValueToJson, convertKnownValueFromJson.
  destruct (isNull v) eqn:Hnull.
  { intros [= <- <-]. rewrite Hnull. by eexists _, _. }
  destruct ty; simpl; try done.
  - destruct (isBoolean v) eqn:Hb; [|done]. intros [= <- <-].
    rewrite Hnull, Hb. by eexists _, _.
  - destruct (isNumber v) eqn:Hn; [|done]. intros [= <- <-].
    rewrite Hnull, Hn. by eexists _, _.
  - rewrite bind_reads. destruct (dateTime h v) as [t|].
    + intros [= <- <-]. by eexists _, _.
    + destruct v; try done; intros [= <- <-]; by eexists _, _.
  - destruct v; try done; intros [= <- <-]; by eexists _, _.
  - destruct v; try done; intros [= <- <-]; by eexists _, _.
  - rewrite bind_reads. destruct (arrayElems h v) as [elems|]; [|done].
    intros Hrun.
    pose proof (convertArrayToStringArray_ok_inv _ _ _ _ _ Hrun) as Helems.
    rewrite (convertArrayToStringArray_ok v elems h Helems) in Hrun.
    injection Hrun as <- <-. simpl. rewrite bind_reads. simpl.
    rewrite lookup_insert_eq.
    unfold convertFromJsonArrayToStringArray.
    erewrite bind_ok by apply mapM__strings_fromJson.
    by eexists _, _.
Qed.
End StringArrays.

(** * The other shapes the encoder takes *)

Section OtherShapes.
Context `{TransformerCommon}.

Ltac lookup_grown :=
  repeat first
    [ eassumption
    | apply lookup_insert_eq
    | rewrite lookup_insert_ne;
      [|first [ by (eapply fresh_lookup; lookup_grown)
              | by (apply not_eq_sym; eapply fresh_lookup; lookup_grown) ]] ].

Lemma isScalar_stringifiable (h : heap) v :
  isScalar v = true -> stringifiable h v.
Proof. by destruct v. Qed.

Lemma isScalar_clone recur v (h : heap) :
  isScalar v = true -> cloneValue recur v h = (Ok v, h).
Proof. by destruct v. Qed.

Lemma convertKnownValueToString_scalar v (h : heap) :
  isScalar v = true ->
  convertKnownValueToString v h = (Ok (VString (stringOf h v)), h).
Proof. by destruct v. Qed.

Lemma stringOf_scalar (h h' : heap) v :
  isScalar v = true -> stringOf h' v = stringOf h v.
Proof. by destruct v. Qed.

(** X7.  A field of type [string] or [text] with the default path, in a
    document whose one key it is: both directions put the string form of
    a boolean or a number in its place and leave a string as it is. *)
Theorem string_field_coerces
    fuel schema f ty before after doc v (h : heap) :
  plainName f = true ->
  ty = TString \/ ty = TText ->
  definition schema = before ++ (f, {| type := ty; path := None |}) :: after ->
  Forall (unrelated f) before -> Forall (unrelated f) after ->
  h !! doc = Some (OObject {[f := v]}) ->
  isScalar v = true ->
  (exists json h1,
      toRedisJson (S (S fuel)) schema doc h = (Ok json, h1)
      /\ h1 !! json = Some (OObject {[f := VString (stringOf h v)]}))
  /\ (exists data h2,
      fromRedisJson (S (S fuel)) schema doc h = (Ok data, h2)
      /\ h2 !! data = Some (OObject {[f := VString (stringOf h v)]})).
Proof.
  intros Hname Hty Hdef Hbefore Hafter Hdoc Hv. split.
  - eexists _, _. split; [|apply lookup_insert_eq].
    eapply (toRedisJson_single fuel schema f ty before after doc v v
              (VString (stringOf h v)) h h); try done.
    + by apply isScalar_clone.
    + by destruct v.
    + destruct Hty as [-> | ->]; simpl.
      all: unfold convertKnownValueToJson; destruct v; try done.
    + apply lookup_insert_eq.
  - eexists _, _. split; [|apply lookup_insert_eq].
    eapply (fromRedisJson_single fuel schema f ty before after doc v v
              (VString (stringOf h v)) h h); try done.
    + by apply isScalar_clone.
    + destruct Hty as [-> | ->]; simpl.
      all: unfold convertKnownValueFromJson; destruct v; try done.
    + apply lookup_insert_eq.
Qed.

(** X8.  A field of type [date] with the default path, in a document
    whose one key it is, given as a number or as an ISO string: encoding
    stores the number itself, respectively what [convertIsoDateToEpoch]
    makes of the string, and decoding what was stored gives a [Date], the
    one [convertEpochToDate] makes of the stored number. *)
Theorem date_field_shapes fuel schema f before after doc v e (h : heap) :
  plainName f = true ->
  definition schema
    = before ++ (f, {| type := TDate; path := None |}) :: after ->
  Forall (unrelated f) before -> Forall (unrelated f) after ->
  h !! doc = Some (OObject {[f := v]}) ->
  v = VNumber e \/ (exists s, v = VString s /\ e = convertIsoDateToEpoch s) ->
  exists json h1 result h2 d,
    toRedisJson (S (S fuel)) schema doc h = (Ok json, h1)
    /\ h1 !! json = Some (OObject {[f := VNumber e]})
    /\ fromRedisJson (S (S fuel)) schema json h1 = (Ok result, h2)
    /\ h2 !! result = Some (OObject {[f := VRef d]})
    /\ h2 !! d = Some (ODate (convertEpochToDate e)).
Proof.
  intros Hname Hdef Hbefore Hafter Hdoc Hv.
  eexists _, _, _, _, _. split_and!.
  - eapply (toRedisJson_single fuel schema f TDate before after doc v v
              (VNumber e) h h); try done.
    + by destruct Hv as [->|(s & -> & _)].
    + by destruct Hv as [->|(s & -> & _)].
    + by destruct Hv as [->|(s & -> & ->)].
    + apply lookup_insert_eq.
  - apply lookup_insert_eq.
  - eapply (fromRedisJson_single fuel schema f TDate before after _
              (VNumber e) (VNumber e)); try done.
    + apply lookup_insert_eq.
    + lookup_grown.
  - apply lookup_insert_eq.
  - lookup_grown.
Qed.

Lemma clone_scalars n (h : heap) a elems :
  h !! a = Some (OArray elems) ->
  Forall (fun v => isScalar v = true) elems ->
  clone (S n) a h = (Ok (fresh (dom h)), <[fresh (dom h) := OArray elems]> h).
Proof.
  intros Ha Helems. simpl. rewrite (getObj_ok _ h a _ Ha).
  erewrite bind_ok.
  2: { apply (mapM__pure _ id). eapply Forall_impl; [exact Helems|].
       intros v Hv. by apply isScalar_clone. }
  by rewrite list_fmap_id.
Qed.

Lemma stringOf_scalars (h h' : heap) elems :
  Forall (fun v => isScalar v = true) elems ->
  stringOf h' <$> elems = stringOf h <$> elems.
Proof.
  intros Helems. apply Forall_fmap_ext. eapply Forall_impl; [exact Helems|].
  intros v Hv. by apply stringOf_scalar.
Qed.

Lemma toJson_scalars (h0 h : heap) a elems :
  h !! a = Some (OArray elems) ->
  Forall (fun v => isScalar v = true) elems ->
  convertKnownValueToJson TStringArray (VRef a) h
    = (Ok (VRef (fresh (dom h))),
       <[fresh (dom h) := OArray (VString <$> (stringOf h0 <$> elems))]> h).
Proof.
  intros Ha Helems. unfold convertKnownValueToJson. simpl.
  rewrite bind_reads. simpl. rewrite Ha.
  rewrite convertArrayToStringArray_ok.
  - by rewrite (stringOf_scalars h0 h elems Helems).
  - eapply Forall_impl; [exact Helems|]. apply isScalar_stringifiable.
Qed.

(** X9.  A field of type [string[]] with the default path, in a document
    whose one key it is, holding an array of booleans, numbers and
    strings: encoding stores a new array with the string form of every
    element in its place, and decoding what was stored gives an array of
    those same strings. *)
Theorem string_array_field_stringified
    fuel schema f before after doc a elems (h : heap) :
  plainName f = true ->
  definition schema
    = before ++ (f, {| type := TStringArray; path := None |}) :: after ->
  Forall (unrelated f) before -> Forall (unrelated f) after ->
  h !! doc = Some (OObject {[f := VRef a]}) ->
  h !! a = Some (OArray elems) ->
  Forall (fun v => isScalar v = true) elems ->
  exists json h1 a1 result h2 a2,
    toRedisJson (S (S fuel)) schema doc h = (Ok json, h1)
    /\ h1 !! json = Some (OObject {[f := VRef a1]})
    /\ h1 !! a1 = Some (OArray (VString <$> (stringOf h <$> elems)))
    /\ fromRedisJson (S (S fuel)) schema json h1 = (Ok result, h2)
    /\ h2 !! result = Some (OObject {[f := VRef a2]})
    /\ h2 !! a2 = Some (OArray (VString <$> (stringOf h <$> elems))).
Proof.
  intros Hname Hdef Hbefore Hafter Hdoc Ha Helems.
  eexists _, _, _, _, _, _. split_and!.
  - eapply toRedisJson_single; try done.
    + apply cloneValue_ref. by apply clone_scalars.
    + done.
    + apply (toJson_scalars h); [lookup_grown|done].
    + lookup_grown.
    + done.
    + eapply isObject_array. lookup_grown.
    + eapply dateTime_array. lookup_grown.
  - apply lookup_insert_eq.
  - lookup_grown.
  - eapply fromRedisJson_single; try done.
    + apply lookup_insert_eq.
    + apply cloneValue_ref, clone_strings. lookup_grown.
    + apply fromJson_array. lookup_grown.
    + lookup_grown.
  - apply lookup_insert_eq.
  - lookup_grown.
Qed.
End OtherShapes.

(** * Decoding does no cleanup *)

Section DecodeUndefined.
Context `{TransformerCommon}.

(** The document and the key under watch. *)
Variables (root : loc) (k : string).

Section KeepsDecoding.
Variable Φ : option val -> Prop.

Lemma keeps_newDate t :
  respects (slotIs root k Φ) (fun _ => True) (newDate t).
Proof.
  eapply respects_bind; [apply keeps_alloc|]. intros; by apply respects_ret.
Qed.

Lemma keeps_newPoint p :
  respects (slotIs root k Φ) (fun _ => True) (newPoint p).
Proof.
  eapply respects_bind; [apply keeps_alloc|]. intros; by apply respects_ret.
Qed.

Lemma keeps_expected {A} (P : A -> Prop) what v :
  respects (slotIs root k Φ) P
    (msg <- reads (fun h => stringifyError h v) ;;
     throw (ThrownError ("Expected " +:+ what +:+ " but received: " +:+ msg))).
Proof.
  eapply (respects_bind _ (fun _ => True));
    [apply respects_reads; intros; exact I|].
  intros; apply respects_throw.
Qed.

Lemma keeps_convertFromJsonArrayToStringArray arr elems :
  respects (slotIs root k Φ) (fun _ => True)
           (convertFromJsonArrayToStringArray arr elems).
Proof.
  eapply respects_bind; [|intros; apply keeps_newArray].
  apply (respects_mapM_ _ (fun _ => True)). intros v _.
  unfold elementFromJson.
  destruct (isNull v); [apply keeps_stringify|].
  eapply respects_bind; [apply keeps_toString|].
  intros; by apply respects_ret.
Qed.

(** The conversion returns for no [undefined]. *)
Lemma keeps_convertKnownValueFromJson fieldDef v :
  respects (slotIs root k Φ) (fun _ => isDefined v = true)
           (convertKnownValueFromJson fieldDef v).
Proof.
  unfold convertKnownValueFromJson, expected.
  destruct v as [| |b|n|s|l]; destruct (type fieldDef); simpl.
  all: repeat first
    [ by apply respects_ret
    | apply keeps_expected
    | eapply respects_weaken; [apply keeps_newDate|done]
    | eapply respects_weaken; [apply keeps_newPoint|done]
    | eapply respects_weaken;
        [apply keeps_convertFromJsonArrayToStringArray|done]
    | eapply (respects_bind _ (fun _ => True));
        [first [ apply respects_reads; intros; exact I
               | apply respects_ret; exact I ]|]; intros ? _
    | match goal with
      | |- context [match ?x with _ => _ end] => destruct x
      end ].
Qed.

(** Nor does the conversion to a string. *)
Lemma keeps_convertKnownValueToString_defined v :
  respects (slotIs root k Φ) (fun _ => isDefined v = true)
           (convertKnownValueToString v).
Proof.
  unfold convertKnownValueToString.
  destruct v; simpl; try apply keeps_stringify.
  - eapply (respects_bind _ (fun _ => True)); [by apply respects_ret|].
    intros; by apply respects_ret.
  - eapply (respects_bind _ (fun _ => True)); [by apply respects_ret|].
    intros; by apply respects_ret.
  - by apply respects_ret.
Qed.

Lemma keeps_knownStringFromJson r :
  harmless root k r ->
  respects (slotIs root k Φ) (fun _ => True) (knownStringFromJson r).
Proof.
  intros Hr. unfold knownStringFromJson.
  destruct (isNull (value r)); [apply keeps_stringify|].
  eapply respects_bind; [apply keeps_convertKnownValueToString_defined|].
  intros v' Hdef. by apply keeps_assign_defined.
Qed.
End KeepsDecoding.

Lemma keeps_knownFieldFromJson data field :
  respects (isUndefinedKey root k) (fun _ => True)
           (knownFieldFromJson data field).
Proof.
  destruct field as [fieldName fieldDef]. unfold knownFieldFromJson.
  eapply respects_bind; [apply keeps_JSONPath|].
  intros results Hres. destruct results as [|r1 [|r2 rest]].
  - by apply respects_ret.
  - apply Forall_inv in Hres.
    eapply respects_bind; [apply keeps_convertKnownValueFromJson|].
    intros v' Hdef. by apply keeps_assign_defined.
  - destruct (type fieldDef); try by apply respects_ret.
    apply respects_forEach. intros r Hr.
    apply (proj1 (Forall_forall _ _) Hres) in Hr.
    by apply keeps_knownStringFromJson.
Qed.

Lemma keeps_convertFromRedisJsonKnown schemaDef data :
  respects (isUndefinedKey root k) (fun _ => True)
           (convertFromRedisJsonKnown schemaDef data).
Proof. apply respects_forEach. intros; apply keeps_knownFieldFromJson. Qed.
End DecodeUndefined.

Section DecodeNoCleanup.
Context `{TransformerCommon}.

(** X10.  Decoding takes no key away: a key of the stored document whose
    value is [undefined] is a key of the document that [fromRedisJson]
    returns, with [undefined] as its value, whatever the schema says
    about it.  Encoding takes such a key away. *)
Theorem fromRedisJson_keeps_undefined
    fuel schema json (h h' : heap) props k data :
  h !! json = Some (OObject props) ->
  props !! k = Some VUndefined ->
  fromRedisJson fuel schema json h = (Ok data, h') ->
  exists props',
    h' !! data = Some (OObject props') /\ props' !! k = Some VUndefined.
Proof.
  intros Hjson Hk. unfold fromRedisJson.
  intros (copy & h1 & Hclone & Hrest)%bind_inv_ok.
  apply bind_inv_ok in Hrest as ([] & h2 & Hknown & [= <- <-]).
  pose proof (clone_undefined _ _ _ _ _ _ _ Hjson Hk Hclone) as H1.
  by destruct (keeps_convertFromRedisJsonKnown copy k (definition schema) copy
                 _ _ _ H1 Hknown) as [H2 _].
Qed.
End DecodeNoCleanup.

(** * The cleanup pass and arrays *)

Section CleanupArrays.
Context `{TransformerCommon}.

Lemma bind_inv_any {A B} (m : M A) (k : A -> M B) (h h' : heap) out :
  bind m k h = (out, h') ->
  exists o1 h1,
    m h = (o1, h1)
    /\ match o1 with
       | Ok a => k a h1 = (out, h')
       | _ => h1 = h'
       end.
Proof.
  unfold bind. destruct (m h) as [[a|e|] h1]; intros Hrun;
    eexists _, _; (split; [done|]); congruence.
Qed.

Lemma setProp_name_arrays l key x (h h' : heap) out :
  setProp l (KName key) x h = (out, h') ->
  forall a elems, h !! a = Some (OArray elems) -> h' !! a = Some (OArray elems).
Proof.
  unfold setProp. destruct (h !! l) as [[props|els|]|] eqn:Hl;
    intros [= <- <-] a elems Ha; try done.
  rewrite lookup_insert_ne; [done|]. congruence.
Qed.

Lemma deleteProp_name_arrays l key (h h' : heap) out :
  deleteProp l (KName key) h = (out, h') ->
  forall a elems, h !! a = Some (OArray elems) -> h' !! a = Some (OArray elems).
Proof.
  unfold deleteProp. destruct (h !! l) as [[props|els|]|] eqn:Hl;
    intros [= <- <-] a elems Ha; try done.
  rewrite lookup_insert_ne; [done|]. congruence.
Qed.

Lemma unknownEntryToJson_arrays recur json key v (h h' : heap) out :
  (forall l (h1 h2 : heap) o,
      isObject h1 (VRef l) = true -> recur l h1 = (o, h2) ->
      forall a elems, h1 !! a = Some (OArray elems) ->
                      h2 !! a = Some (OArray elems)) ->
  unknownEntryToJson recur json (KName key, v) h = (out, h') ->
  forall a elems, h !! a = Some (OArray elems) -> h' !! a = Some (OArray elems).
Proof.
  intros Hrecur. unfold unknownEntryToJson.
  destruct (isUndefined v); [by apply deleteProp_name_arrays|].
  rewrite bind_reads. destruct (isObject h v) eqn:Hobj.
  - destruct v as [| | | | |l]; try done.
    intros (o1 & h1 & Hrun & Hrest)%bind_inv_any a elems Ha.
    pose proof (Hrecur _ _ _ _ Hobj Hrun a elems Ha) as Ha1.
    destruct o1 as [l'|e|]; [|by subst..].
    by eapply setProp_name_arrays.
  - assert (bind (convertUnknownValueToJson v)
                 (fun v' => setProp json (KName key) v') h = (out, h') ->
            forall a elems, h !! a = Some (OArray elems) ->
                            h' !! a = Some (OArray elems)) as Hplain.
    { erewrite bind_ok by apply convertUnknownValueToJson_eq.
      by apply setProp_name_arrays. }
    by destruct v.
Qed.

Lemma forEach_unknownEntryToJson_arrays recur json
    (entries : list (string * val)) (h h' : heap) out :
  (forall l (h1 h2 : heap) o,
      isObject h1 (VRef l) = true -> recur l h1 = (o, h2) ->
      forall a elems, h1 !! a = Some (OArray elems) ->
                      h2 !! a = Some (OArray elems)) ->
  forEach (unknownEntryToJson recur json) (prod_map KName id <$> entries) h
    = (out, h') ->
  forall a elems, h !! a = Some (OArray elems) -> h' !! a = Some (OArray elems).
Proof.
  intros Hrecur. revert h.
  induction entries as [|[key v] entries IH]; intros h; simpl.
  - by intros [= _ <-].
  - intros (o1 & h1 & Hrun & Hrest)%bind_inv_any a elems Ha.
    pose proof (unknownEntryToJson_arrays _ _ _ _ _ _ _ Hrecur Hrun a elems Ha)
      as Ha1.
    destruct o1 as [[]|e|]; [|by subst..].
    by eapply IH.
Qed.

(** X11.  The cleanup pass, run on a plain object, writes into no array:
    every array is after the pass what it was before, so an [undefined]
    or a [Date] that is an element of an array stays where it is. *)
Theorem cleanup_leaves_arrays fuel json (h h' : heap) out a elems :
  isObject h (VRef json) = true ->
  convertToRedisJsonUnknown fuel json h = (out, h') ->
  h !! a = Some (OArray elems) ->
  h' !! a = Some (OArray elems).
Proof.
  revert json h h' out a elems.
  induction fuel as [|n IH]; intros json h h' out a elems Hobj; simpl.
  - by intros [= _ <-].
  - simpl in Hobj. destruct (h !! json) as [[props| |]|] eqn:Hjson; try done.
    unfold objectEntries. unfold bind at 1. unfold bind at 1.
    unfold getObj. rewrite Hjson. simpl.
    intros (o1 & h1 & Hrun & Hrest)%bind_inv_any Ha.
    pose proof (forEach_unknownEntryToJson_arrays _ _ _ _ _ _
                  (fun l h1 h2 o Hl Hr a elems => IH l h1 h2 o a elems Hl Hr)
                  Hrun a elems Ha) as Ha1.
    destruct o1 as [[]|e|]; [|by subst..].
    by injection Hrest as _ <-.
Qed.
End CleanupArrays.

(** * More on the shim *)

Section ShimStore.
Import RedisShim.

Ltac schedules w :=
  destruct (schedule w) as [|[?cs|?e|?cs ?e] [|[?cs|?e|?cs ?e] ?rest]];
  simpl.

Ltac branches :=
  repeat match goal with
    | |- context [if ?b then _ else _] => destruct b eqn:?; simpl
    | |- context [?b || _] => destruct b eqn:?; simpl
    end.

Lemma apply_other c (hs : gmap string (gmap string string)) key :
  keyOf c <> key -> apply c hs !! key = hs !! key.
Proof.
  destruct c as [k|k data]; simpl; intros Hne.
  - by rewrite lookup_delete_ne.
  - destruct (negb (bool_decide (data = ∅))); [|done].
    by rewrite lookup_insert_ne.
Qed.

Lemma applyAll_other cs (hs : gmap string (gmap string string)) key :
  key ∉ keyOf <$> cs -> applyAll cs hs !! key = hs !! key.
Proof.
  revert hs. induction cs as [|c cs IH]; intros hs Hnot; [done|].
  simpl. rewrite fmap_cons, not_elem_of_cons in Hnot.
  destruct Hnot as [Hc Hcs]. unfold applyAll in *. simpl.
  rewrite IH by done. by apply apply_other.
Qed.

Lemma applyAll_app cs1 cs2 (hs : gmap string (gmap string string)) :
  applyAll (cs1 ++ cs2) hs = applyAll cs2 (applyAll cs1 hs).
Proof. unfold applyAll. by rewrite foldl_app. Qed.

Lemma written key (data : gmap string string)
    (hs : gmap string (gmap string string)) :
  <[key := data ∪ default ∅ (delete key hs !! key)]> (delete key hs)
    = <[key := data]> hs.
Proof.
  rewrite lookup_delete_eq. simpl. rewrite (right_id ∅ (∪)).
  by rewrite insert_delete_eq.
Qed.

Lemma hsetall_written key data w :
  (hsetall key data w).1 = inl tt ->
  hashes (hsetall key data w).2 !! key = Some data.
Proof.
  unfold hsetall, executeIsolated, andThen, watch, exec.
  unfold await. simpl.
  schedules w.
  all: branches.
  all: try done.
  all: intros _; rewrite written; apply lookup_insert_eq.
Qed.

(** X12.  [hsetall] never leaves the key half written, and a call that
    fails has written nothing unless the reply to its commit was lost.
    When the call returns, the hashes of the server are what the other
    sessions made of them while the call was under way, with the given
    field map, and nothing else, at the key.  When it fails, they are
    either that or what the other sessions made of them, and they are
    the latter whenever the commit was not a request that the server ran
    and whose reply did not come back.  In that one case, with a field to
    write and the key unchanged since the watch, the call fails and the
    field map is at the key all the same. *)
Theorem hsetall_all_or_nothing key data w :
  ((hsetall key data w).1 = inl tt ->
     hashes (hsetall key data w).2
       = <[key := data]> (applyAll (delivered w) (hashes w)))
  /\ (forall err,
       (hsetall key data w).1 = inr err ->
       hashes (hsetall key data w).2 = applyAll (delivered w) (hashes w)
       \/ hashes (hsetall key data w).2
            = <[key := data]> (applyAll (delivered w) (hashes w)))
  /\ (forall err,
       (hsetall key data w).1 = inr err ->
       (forall cs1 cs2 e rest,
           schedule w <> Others cs1 :: Unanswered cs2 e :: rest) ->
       hashes (hsetall key data w).2 = applyAll (delivered w) (hashes w))
  /\ (forall cs1 cs2 e rest,
       schedule w = Others cs1 :: Unanswered cs2 e :: rest ->
       data <> ∅ ->
       disturbs {[key]} cs2 (applyAll cs1 (hashes w)) = false ->
       (hsetall key data w).1 <> inl tt
       /\ hashes (hsetall key data w).2
            = <[key := data]> (applyAll (delivered w) (hashes w))).
Proof.
  split_and!.
  - unfold hsetall, executeIsolated, andThen, watch, exec, delivered.
    unfold await. simpl.
    schedules w.
    all: rewrite ?applyAll_app.
    all: branches.
    all: try done.
    all: intros _; apply written.
  - intros err.
    unfold hsetall, executeIsolated, andThen, watch, exec, delivered.
    unfold await. simpl.
    schedules w.
    all: rewrite ?applyAll_app.
    all: branches.
    all: try done.
    all: intros _; first [by left | right; apply written].
  - intros err.
    unfold hsetall, executeIsolated, andThen, watch, exec, delivered.
    unfold await. simpl.
    schedules w.
    all: rewrite ?applyAll_app.
    all: branches.
    all: try done.
    all: intros _ Hnot; by exfalso; eapply Hnot.
  - intros cs1 cs2 e rest Hsched Hdata Hclean.
    apply wellFormed_queue with (key := key) in Hdata.
    unfold hsetall, executeIsolated, andThen, watch, exec, delivered.
    unfold await. simpl. rewrite Hsched. simpl.
    unfold hSet, unlink, multi in Hdata. simpl in Hdata. rewrite Hdata.
    rewrite nobody_watching. simpl.
    rewrite (right_id_L ∅ (∪)), Hclean. simpl.
    rewrite andb_true_r in Hdata. rewrite Hdata, applyAll_app.
    destruct (String.eqb (name e) "WatchError"); simpl.
    all: split; [done|apply written].
Qed.

(** X13.  [hsetall] returns exactly when no request is rejected, there
    is a field to write, and no other session has changed the key between
    the watch and the transaction. *)
Theorem hsetall_succeeds_exactly key data w :
  (hsetall key data w).1 = inl tt
  <-> undisturbed w /\ data <> ∅
      /\ disturbs {[key]} (overtaking w) (applyAll (ahead w) (hashes w))
         = false.
Proof.
  unfold hsetall, executeIsolated, andThen, watch, exec.
  unfold await, undisturbed, overtaking, ahead. simpl.
  schedules w.
  all: rewrite ?nobody_watching, ?(right_id_L ∅ (∪)); simpl.
  all: repeat match goal with
         | |- context [if ?b then _ else _] => destruct b eqn:?; simpl
         end.
  all: repeat match goal with
         | Hw : negb (bool_decide (_ = ∅)) && true = true |- _ =>
             rewrite andb_true_r, negb_true_iff, bool_decide_eq_false in Hw
         | Hw : negb (bool_decide (_ = ∅)) && true = false |- _ =>
             rewrite andb_true_r, negb_false_iff, bool_decide_eq_true in Hw
         end.
  all: split; [try done|intros (Hq & Hd & Hk); try done].
  all: try congruence.
Qed.

Lemma hgetall_reads key w :
  forallb isDelivery (take 1 (schedule w)) = true ->
  key ∉ keyOf <$> ahead w ->
  (SharedClient.hgetall key w).1 = inl (default ∅ (hashes w !! key)).
Proof.
  unfold SharedClient.hgetall, await, ahead.
  destruct (schedule w) as [|[cs|e|cs e] rest]; simpl; try done.
  intros _ Hkey. by rewrite applyAll_other.
Qed.

(** X14.  What [hsetall] has written, [hgetall] reads: after a call of
    [hsetall] that returned, a call of [hgetall] for the same key that is
    not rejected, and ahead of which no other session writes the key,
    gives the field map that was written. *)
Theorem hsetall_then_hgetall key data w :
  (hsetall key data w).1 = inl tt ->
  forallb isDelivery (take 1 (schedule (hsetall key data w).2)) = true ->
  key ∉ keyOf <$> ahead (hsetall key data w).2 ->
  (SharedClient.hgetall key (hsetall key data w).2).1 = inl data.
Proof.
  intros Hok Hquiet Hkey. rewrite hgetall_reads by done.
  by rewrite hsetall_written.
Qed.

(** X15.  After [unlink], [hgetall] finds no field: a call of [unlink]
    that returned, followed by a call of [hgetall] for the same key that
    is not rejected and ahead of which no other session writes the key,
    gives the empty map, and no error, for the key that is gone. *)
Theorem unlink_then_hgetall key w :
  (SharedClient.unlink key w).1 = inl tt ->
  forallb isDelivery (take 1 (schedule (SharedClient.unlink key w).2)) = true ->
  key ∉ keyOf <$> ahead (SharedClient.unlink key w).2 ->
  (SharedClient.hgetall key (SharedClient.unlink key w).2).1 = inl ∅.
Proof.
  intros Hok Hquiet Hkey. rewrite hgetall_reads by done.
  revert Hok. unfold SharedClient.unlink, await.
  destruct (schedule w) as [|[cs|e|cs e] rest]; simpl; try done.
  all: intros _; by rewrite lookup_delete_eq.
Qed.
End ShimStore.

(** * Matches that are [undefined], and the elements of an array *)

Section Matches.
Context `{TransformerCommon}.

(** X16.  A field whose one match is [undefined]: encoding passes it
    over without a look at its type, and writes nothing; decoding has no
    such exemption and throws the type error of the field. *)
Theorem undefined_match json fieldName fieldDef (h : heap) r :
  resolve h (pathOf fieldName fieldDef) json = [r] ->
  value r = VUndefined ->
  knownFieldToJson json (fieldName, fieldDef) h = (Ok tt, h)
  /\ knownFieldFromJson json (fieldName, fieldDef) h
     = (Throw (ThrownError (decoderMessage (type fieldDef)
                              +:+ stringifyError h VUndefined)), h).
Proof.
  intros Hres Hundef.
  unfold knownFieldToJson, knownFieldFromJson, JSONPath.
  rewrite !bind_reads, Hres. split.
  - unfold convertKnownResultToJson. by rewrite Hundef.
  - rewrite Hundef. apply bind_throw. destruct fieldDef as [ty p]. simpl.
    apply convertKnownValueFromJson_rejects; [done|]. by destruct ty.
Qed.

Lemma knownStringToJson_element a i v elems (h : heap) :
  isScalar v = true ->
  h !! a = Some (OArray elems) ->
  i < length elems ->
  knownStringToJson
    {| value := v; parent := VRef a; parentProperty := KIndex i |} h
  = (Ok tt, <[a := OArray (<[i := VString (stringOf h v)]> elems)]> h).
Proof.
  intros Hv Ha Hi. unfold knownStringToJson. simpl.
  assert (isNull v = false /\ isUndefined v = false) as [-> Hundef].
  { by destruct v. }
  unfold isDefined. rewrite Hundef, bind_reads. simpl.
  erewrite bind_ok by (by apply convertKnownValueToString_scalar).
  unfold setProp. rewrite Ha. unfold arraySet. by rewrite decide_True.
Qed.

Lemma knownStringFromJson_element a i v elems (h : heap) :
  isScalar v = true ->
  h !! a = Some (OArray elems) ->
  i < length elems ->
  knownStringFromJson
    {| value := v; parent := VRef a; parentProperty := KIndex i |} h
  = (Ok tt, <[a := OArray (<[i := VString (stringOf h v)]> elems)]> h).
Proof.
  intros Hv Ha Hi. unfold knownStringFromJson. simpl.
  assert (isNull v = false) as ->.
  { by destruct v. }
  erewrite bind_ok by (by apply convertKnownValueToString_scalar).
  simpl. unfold setProp. rewrite Ha. unfold arraySet. by rewrite decide_True.
Qed.

(** A loop that stringifies the elements of an array one after the
    other, seen when those of [before] are done. *)
Lemma forEach_elements (step : PathResult -> M unit) a (h0 : heap) :
  (forall i v elems (h : heap),
      isScalar v = true -> h !! a = Some (OArray elems) -> i < length elems ->
      step {| value := v; parent := VRef a; parentProperty := KIndex i |} h
      = (Ok tt, <[a := OArray (<[i := VString (stringOf h v)]> elems)]> h)) ->
  forall todo before (h : heap),
    Forall (fun v => isScalar v = true) todo ->
    h !! a = Some (OArray (before ++ todo)) ->
    forEach step
      (imap (fun i v => {| value := v; parent := VRef a;
                           parentProperty := KIndex (length before + i) |})
            todo) h
    = (Ok tt,
       <[a := OArray (before ++ (VString <$> (stringOf h0 <$> todo)))]> h).
Proof.
  intros Hstep. induction todo as [|v todo IH]; intros before h Htodo Ha.
  - simpl. unfold ret. by rewrite insert_id.
  - apply Forall_cons in Htodo as [Hv Htodo]. rewrite imap_cons.
    erewrite forEach_cons_ok.
    2: { apply Hstep; [done|exact Ha|].
         rewrite length_app. simpl. lia. }
    rewrite insert_app_r. simpl.
    rewrite (stringOf_scalar h0 h v Hv).
    erewrite (imap_ext _ (fun i x => {| value := x; parent := VRef a;
                 parentProperty :=
                   KIndex (length (before ++ [VString (stringOf h0 v)]) + i) |})).
    2: { intros i x _. simpl. rewrite length_app. simpl.
         do 2 f_equal. lia. }
    rewrite (IH (before ++ [VString (stringOf h0 v)])); [|done|].
    + rewrite insert_insert_eq. by rewrite <- app_assoc.
    + rewrite lookup_insert_eq. by rewrite <- app_assoc.
Qed.

(** X17.  A [string[]] field whose path ends in the wildcard of an array
    of two or more booleans, numbers and strings: in either direction
    every element is replaced, in the array itself, by its string form;
    the array keeps its length and its order, and nothing else is
    written. *)
Theorem string_array_elements_stringified
    json fieldName fieldDef (h : heap) a elems :
  type fieldDef = TStringArray ->
  resolve h (pathOf fieldName fieldDef) json = elementMatches a elems ->
  1 < length elems ->
  h !! a = Some (OArray elems) ->
  Forall (fun v => isScalar v = true) elems ->
  knownFieldToJson json (fieldName, fieldDef) h
    = (Ok tt, <[a := OArray (VString <$> (stringOf h <$> elems))]> h)
  /\ knownFieldFromJson json (fieldName, fieldDef) h
    = (Ok tt, <[a := OArray (VString <$> (stringOf h <$> elems))]> h).
Proof.
  intros Hty Hres Hlen Ha Helems.
  unfold knownFieldToJson, knownFieldFromJson, JSONPath.
  rewrite !bind_reads, Hres. unfold elementMatches.
  destruct elems as [|v1 [|v2 rest]]; [simpl in Hlen; lia..|].
  rewrite !imap_cons. rewrite <- !imap_cons.
  set (elems := v1 :: v2 :: rest) in *.
  split.
  - change (convertKnownResultsToJson (type fieldDef)
              (pathOf fieldName fieldDef)
              (imap (fun i v => {| value := v; parent := VRef a;
                                   parentProperty := KIndex (length (@nil val) + i) |})
                    elems) h
            = (Ok tt, <[a := OArray ([] ++ (VString <$> (stringOf h <$> elems)))]> h)).
    unfold convertKnownResultsToJson. rewrite Hty.
    apply (forEach_elements knownStringToJson a h); [|done..].
    intros; by apply knownStringToJson_element.
  - rewrite Hty.
    change (forEach knownStringFromJson
              (imap (fun i v => {| value := v; parent := VRef a;
                                   parentProperty := KIndex (length (@nil val) + i) |})
                    elems) h
            = (Ok tt, <[a := OArray ([] ++ (VString <$> (stringOf h <$> elems)))]> h)).
    apply (forEach_elements knownStringFromJson a h); [|done..].
    intros; by apply knownStringFromJson_element.
Qed.
End Matches.

(** * Keys that the schema does not cover *)

Section Uncovered.
Context `{TransformerCommon}.

Ltac lookup_new :=
  repeat first
    [ eassumption
    | apply lookup_insert_eq
    | rewrite lookup_insert_ne;
      [|first [ by (eapply fresh_lookup; lookup_new)
              | by (apply not_eq_sym; eapply fresh_lookup; lookup_new) ]] ].

Lemma convertToRedisJsonUnknown_single_date n json f d t (h : heap) :
  h !! json = Some (OObject {[f := VRef d]}) ->
  h !! d = Some (ODate t) ->
  convertToRedisJsonUnknown (S n) json h
    = (Ok json,
       <[json := OObject {[f := VNumber (convertDateToEpoch t)]}]> h).
Proof.
  intros Hjson Hd.
  assert (objectEntries json h = (Ok [(KName f, VRef d)], h)) as Hentries.
  { unfold objectEntries. rewrite (getObj_ok _ h json _ Hjson).
    unfold ret. simpl. by rewrite map_to_list_singleton. }
  assert (unknownEntryToJson (convertToRedisJsonUnknown n) json
            (KName f, VRef d) h
          = (Ok tt,
             <[json := OObject {[f := VNumber (convertDateToEpoch t)]}]> h))
    as Hentry.
  { unfold unknownEntryToJson. simpl. rewrite bind_reads. simpl. rewrite Hd.
    erewrite bind_ok by apply convertUnknownValueToJson_eq.
    simpl. rewrite Hd. by apply (setProp_single h json f (VRef d)). }
  simpl. erewrite bind_ok by exact Hentries.
  erewrite bind_ok; [done|]. simpl. by erewrite bind_ok by exact Hentry.
Qed.

(** X18.  A [Date] under a key that no field of the schema bears on, in a
    document whose one key it is: encoding stores the epoch number in its
    place, and decoding what was stored leaves the number there; the
    [Date] does not come back. *)
Theorem uncovered_date_stays_a_number fuel schema f doc d t (h : heap) :
  Forall (unrelated f) (definition schema) ->
  h !! doc = Some (OObject {[f := VRef d]}) ->
  h !! d = Some (ODate t) ->
  exists json h1 result h2,
    toRedisJson (S (S fuel)) schema doc h = (Ok json, h1)
    /\ h1 !! json = Some (OObject {[f := VNumber (convertDateToEpoch t)]})
    /\ fromRedisJson (S (S fuel)) schema json h1 = (Ok result, h2)
    /\ h2 !! result = Some (OObject {[f := VNumber (convertDateToEpoch t)]}).
Proof.
  intros Hschema Hdoc Hd.
  eexists _, _, _, _. split_and!.
  - unfold toRedisJson.
    erewrite bind_ok.
    2: { eapply clone_single; [exact Hdoc|].
         apply cloneValue_ref. by apply clone_date. }
    erewrite bind_ok.
    2: { eapply convertToRedisJsonKnown_unrelated; [|exact Hschema].
         apply lookup_insert_eq. }
    eapply convertToRedisJsonUnknown_single_date; lookup_new.
  - apply lookup_insert_eq.
  - unfold fromRedisJson.
    erewrite bind_ok.
    2: { eapply clone_single; [apply lookup_insert_eq|]. reflexivity. }
    erewrite bind_ok; [reflexivity|].
    eapply convertFromRedisJsonKnown_unrelated; [|exact Hschema].
    apply lookup_insert_eq.
  - apply lookup_insert_eq.
Qed.

(** X19.  A [string[]] field with more than one match, one of them
    [undefined], all before it being converted.  Encoding throws the
    string for an array containing [undefined] when the parent of the
    match is an array, and passes the match over, going on with the
    others, when it is not; decoding throws the [Error] of a value that
    is not a string. *)
Theorem undefined_among_many_matches
    json fieldName fieldDef (h : heap) pre r post h1 :
  type fieldDef = TStringArray ->
  resolve h (pathOf fieldName fieldDef) json = pre ++ r :: post ->
  1 < length (pre ++ r :: post) ->
  value r = VUndefined ->
  (forEach knownStringToJson pre h = (Ok tt, h1) ->
     (isArray h1 (parent r) = true ->
        knownFieldToJson json (fieldName, fieldDef) h =
          (Throw (ThrownString
             ("Expected a string[] but received an array containing undefined: "
                +:+ stringifyError h1 (parent r))), h1))
     /\ (isArray h1 (parent r) = false ->
        knownFieldToJson json (fieldName, fieldDef) h
          = forEach knownStringToJson post h1))
  /\ (forEach knownStringFromJson pre h = (Ok tt, h1) ->
     knownFieldFromJson json (fieldName, fieldDef) h =
       (Throw (ThrownError
          ("Expected a string but received: "
             +:+ stringifyError h1 VUndefined)), h1)).
Proof.
  intros Hty Hres Hlen Hundef.
  unfold knownFieldToJson, knownFieldFromJson, JSONPath.
  rewrite !bind_reads, Hres.
  destruct (pre ++ r :: post) as [|r1 [|r2 rest]] eqn:Heq;
    [simpl in Hlen; lia..|].
  rewrite <- Heq. unfold convertKnownResultsToJson. rewrite Hty.
  split.
  - intros Hpre. split; intros Harr.
    + eapply forEach_app_throw; [exact Hpre|].
      unfold knownStringToJson. rewrite Hundef. simpl.
      by rewrite bind_reads, Harr.
    + rewrite forEach_app, Hpre.
      apply forEach_cons_ok.
      unfold knownStringToJson. rewrite Hundef. simpl.
      by rewrite bind_reads, Harr.
  - intros Hpre. eapply forEach_app_throw; [exact Hpre|].
    unfold knownStringFromJson. by rewrite Hundef.
Qed.
End Uncovered.

(** * The theorems at work *)

Section Witnesses.
Import Sample Examples RedisShim.

(** [{ f: new Date(1704067200000) }] with the field [f: date]: encoding
    and decoding return, and [f] is a date of the same epoch again. *)
Lemma round_trip_witness :
  exists json h1 result h2 v',
    toRedisJson (H := helpers) 2 dateSchema 1%positive dateHeap = (Ok json, h1)
    /\ fromRedisJson (H := helpers) 2 dateSchema json h1 = (Ok result, h2)
    /\ h2 !! result = Some (OObject {["f" := v']})
    /\ roundTripped (H := helpers) dateHeap h2 TDate (VRef 2%positive) v'.
Proof.
  apply (round_trip (H := helpers) 0 dateSchema "f" TDate None [] []
           1%positive (VRef 2%positive) dateHeap).
  - reflexivity.
  - apply (plainName_findsKey (H := helpers)); reflexivity.
  - constructor.
  - constructor.
  - vm_compute. reflexivity.
  - apply (av_date (H := helpers) dateHeap 2%positive 1704067200000%Z).
    vm_compute. reflexivity.
  - intros t Ht. vm_compute in Ht. injection Ht as <-.
    vm_compute. reflexivity.
Defined.

(** C1 as stated fails for a schema in which two fields have one path,
    and for a field whose name is not a path to its key.
    [{ f: new Date(1704067200000) }] with the fields [f: date] and
    [g: date] at [$.f]: encoding gives [{ f: 1704067200 }], and decoding
    it throws, the second field finding the [Date] that the first has just
    put there.  [{ "a.b": new Date(1704067200000) }] with the field
    [a.b: date]: the path [$.a.b] finds nothing, and the round trip gives
    [{ "a.b": 1704067200 }], a number and not a date. *)
Lemma round_trip_not_for_every_value :
  view 8 dateHeap (VRef 1%positive) = TObj [("f", TDateOf 1704067200000)]
  /\ observe (toRedisJson (H := helpers) 5 sharedSchema 1%positive) dateHeap
      = Ok (TObj [("f", TNum 1704067200)])
  /\ (exists message,
        observe (roundTrip 5 sharedSchema 1%positive) dateHeap
          = Throw (ThrownError message))
  /\ view 8 dottedHeap (VRef 1%positive)
      = TObj [("a.b", TDateOf 1704067200000)]
  /\ observe (roundTrip 5 dottedSchema 1%positive) dottedHeap
      = Ok (TObj [("a.b", TNum 1704067200)]).
Proof.
  split_and!; try (vm_compute; reflexivity).
  eexists. vm_compute. reflexivity.
Qed.

(** [{ a: [1, 2] }] with a [date] field at [$.a[*]]: encoding throws. *)
Lemma toRedisJson_many_matches_witness :
  (toRedisJson (H := helpers) 5 (manySchema TDate) 1%positive manyHeap).1
    = Throw (ThrownError (manyMatchesMessage "$.a[*]")).
Proof.
  erewrite (toRedisJson_many_matches (H := helpers)
              5 (manySchema TDate) 1%positive manyHeap
              [] "f" (manyField TDate) []).
  - reflexivity.
  - reflexivity.
  - discriminate.
  - vm_compute. reflexivity.
  - vm_compute. reflexivity.
  - vm_compute. reflexivity.
Defined.

(** The same document decoded: the field is passed over. *)
Lemma fromRedisJson_many_matches_skipped_witness :
  knownFieldFromJson 1%positive ("f", manyField TDate) manyHeap
    = (Ok tt, manyHeap).
Proof.
  refine (proj1 (fromRedisJson_many_matches_skipped (H := helpers)
                   1%positive manyHeap
                   [] "f" (manyField TDate) [] manyHeap _ _ _ _ _ _)).
  - discriminate.
  - reflexivity.
  - vm_compute. reflexivity.
Defined.

(** C2 as stated fails on [{ a: [1, 2] }] with a [date] field at
    [$.a[*]]: decoding gives back [{ a: [1, 2] }], the first match is
    still the number 1 and not the date that rewriting it would give. *)
Lemma fromRedisJson_first_match_not_rewritten :
  observe (fromRedisJson (H := helpers) 5 (manySchema TDate) 1%positive) manyHeap
    = Ok (TObj [("a", TArr [TNum 1; TNum 2])])
  /\ observe (fromRedisJson (H := helpers) 5 (manySchema TDate) 1%positive) manyHeap
    <> Ok (TObj [("a", TArr [TDateOf 1000; TNum 2])]).
Proof. split; [vm_compute; reflexivity|vm_compute; discriminate]. Qed.

(** [{ tags: null }] with [tags: string[]]: both directions leave the
    document as it is. *)
Lemma null_passes_through_witness :
  knownFieldToJson 1%positive ("tags", tagsField) nullTagsHeap
    = (Ok tt, nullTagsHeap)
  /\ knownFieldFromJson 1%positive ("tags", tagsField) nullTagsHeap
    = (Ok tt, nullTagsHeap).
Proof.
  destruct (null_passes_through (H := helpers) 1%positive "tags" tagsField
              nullTagsHeap
              {| value := VNull; parent := VRef 1%positive;
                 parentProperty := KName "tags" |})
    as (_ & _ & Hencode & Hdecode & _).
  - vm_compute. reflexivity.
  - reflexivity.
  - by split.
Defined.

(** [{ tags: ["x", null] }] with [tags: string[]]: the error for [null]
    in an array, with the rendering of the array; and [{ a: [1, null] }]
    with a [string[]] field at [$.a[*]]: no document. *)
Lemma string_array_null_aborts_witness :
  knownFieldToJson 1%positive ("tags", tagsField) nullElementHeap
    = (Throw (ThrownString
         ("Expected a string[] but received an array containing null: "
            +:+ stringifyError nullElementHeap (VRef 2%positive))),
       nullElementHeap)
  /\ knownFieldToJson 1%positive ("f", manyField TStringArray) nullMatchHeap
    <> (Ok tt, nullMatchHeap).
Proof.
  split.
  - destruct (string_array_null_aborts (H := helpers) 1%positive "tags"
                tagsField nullElementHeap eq_refl) as (Hsingle & _).
    refine (proj1 (Hsingle
              {| value := VRef 2%positive; parent := VRef 1%positive;
                 parentProperty := KName "tags" |}
              [VString "x"] [] _ _ _)).
    + vm_compute. reflexivity.
    + vm_compute. reflexivity.
    + repeat constructor.
  - destruct (string_array_null_aborts (H := helpers) 1%positive "f"
                (manyField TStringArray) nullMatchHeap eq_refl)
      as (_ & _ & _ & _ & Hmany).
    refine (proj1 (Hmany
              {| value := VNull; parent := VRef 2%positive;
                 parentProperty := KIndex 1 |} nullMatchHeap _ _ _)).
    + vm_compute. lia.
    + vm_compute. right. left.
    + reflexivity.
Defined.

(** C7 as stated fails on [{ tags: null }]: the one match of the
    [string[]] field is [null] and both directions return the document;
    and on [{ tags: [undefined, null] }] the encoder stops at the
    [undefined] that stands before the [null]. *)
Lemma string_array_null_not_always_fatal :
  observe (toRedisJson (H := helpers) 5 tagsSchema 1%positive) nullTagsHeap
    = Ok (TObj [("tags", TNull)])
  /\ observe (fromRedisJson (H := helpers) 5 tagsSchema 1%positive) nullTagsHeap
    = Ok (TObj [("tags", TNull)])
  /\ observe (toRedisJson (H := helpers) 5 tagsSchema 1%positive) undefinedElementHeap
    = Throw (ThrownString
        "Expected a string[] but received an array containing undefined: [undefined,null]").
Proof. split_and!; vm_compute; reflexivity. Qed.

(** [{ f: new Date(...), g: undefined, n: 42 }]: the objects of the
    caller are as they were after either call. *)
Lemma input_not_mutated_witness :
  unchanged (H := helpers) mixedHeap
    (toRedisJson (H := helpers) 5 mixedSchema 1%positive mixedHeap).2
  /\ unchanged (H := helpers) mixedHeap
    (fromRedisJson (H := helpers) 5 mixedSchema 1%positive mixedHeap).2.
Proof.
  destruct (input_not_mutated (H := helpers) 5 mixedSchema 1%positive mixedHeap)
    as [Hencode Hdecode].
  split.
  - exact (proj1 (Hencode _ _ (surjective_pairing _))).
  - exact (proj1 (Hdecode _ _ (surjective_pairing _))).
Defined.

(** The same document: the key [g] is not in what the encoder returns. *)
Lemma undefined_key_removed_witness :
  exists props',
    (toRedisJson (H := helpers) 5 mixedSchema 1%positive mixedHeap).2 !! 4%positive
      = Some (OObject props')
    /\ props' !! "g" = None.
Proof.
  apply (undefined_key_removed (H := helpers) 5 mixedSchema 1%positive
           mixedHeap (toRedisJson (H := helpers) 5 mixedSchema 1%positive mixedHeap).2
           (list_to_map [("f", VRef 2%positive); ("g", VUndefined);
                         ("n", VNumber 42%Z)]) "g" 4%positive).
  - vm_compute. reflexivity.
  - vm_compute. reflexivity.
  - vm_compute. reflexivity.
Defined.

(** [{ n: 7, a: { d: new Date(1704067200000), u: undefined } }] with only
    [n] declared: in the encoded document the object under [a] has the
    epoch at [d] and no key [u]. *)
Lemma cleanup_reaches_every_key_witness :
  (toRedisJson (H := helpers) 5 Cases.numberSchema 1%positive Cases.nestedHeap).1
    = Ok 6%positive
  /\ exists props',
      (toRedisJson (H := helpers) 5 Cases.numberSchema 1%positive Cases.nestedHeap).2
        !! 5%positive = Some (OObject props')
      /\ props' !! "d" = Some (VNumber 1704067200%Z)
      /\ props' !! "u" = None.
Proof.
  split; [vm_compute; reflexivity|].
  destruct (cleanup_reaches_every_key (H := helpers) 5 Cases.numberSchema
              1%positive Cases.nestedHeap
              (toRedisJson (H := helpers) 5 Cases.numberSchema 1%positive
                 Cases.nestedHeap).2
              6%positive)
    as (h1 & h2 & Hclone & Hknown & Hexact & _).
  { vm_compute. reflexivity. }
  apply (f_equal snd) in Hclone. cbn [snd] in Hclone. subst h1.
  apply (f_equal snd) in Hknown. cbn [snd] in Hknown. subst h2.
  destruct (Hexact 5%positive
              (list_to_map [("d", VRef 4%positive); ("u", VUndefined)]))
    as (_ & props' & Hl & Hkeys).
  - eapply (objReachable_step _ 6%positive
              (list_to_map [("n", VNumber 7%Z); ("a", VRef 5%positive)])
              "a" 5%positive).
    + vm_compute. reflexivity.
    + vm_compute. reflexivity.
    + vm_compute. reflexivity.
    + constructor.
  - vm_compute. reflexivity.
  - exists props'. split; [exact Hl|]. split.
    + refine (eq_trans (Hkeys "d") _). vm_compute. reflexivity.
    + refine (eq_trans (Hkeys "u") _). vm_compute. reflexivity.
Defined.

(** A server with a hash at ["k"], and another session writing another
    key meanwhile: the five requests go out and the hash is replaced. *)
Lemma hsetall_protocol_witness :
  undisturbed (server [Others []; Others [HSET "other" stored]])
  /\ wire (hsetall "k" fresher
             (server [Others []; Others [HSET "other" stored]])).2
      = protocol 1 "k" fresher
  /\ hashes (hsetall "k" fresher
               (server [Others []; Others [HSET "other" stored]])).2 !! "k"
      = Some fresher.
Proof.
  split; [reflexivity|].
  destruct (hsetall_protocol "k" fresher
              (server [Others []; Others [HSET "other" stored]]) eq_refl)
    as (Hwire & _ & Hhash).
  split; [exact Hwire|]. apply Hhash. vm_compute. reflexivity.
Defined.

(** Another session writes ["k"] between the watch and the commit: the
    library's error, as it came; the connection is lost at the first
    await: that error. *)
Lemma hsetall_errors_witness :
  (hsetall "k" fresher (server [Others []; Others [HSET "k" stored]])).1
    = inr (Rethrown watchError)
  /\ (hsetall "k" fresher (server [Failure connectionLost])).1
    = inr (Rethrown connectionLost).
Proof.
  split.
  - destruct (hsetall_errors "k" fresher
                (server [Others []; Others [HSET "k" stored]])) as (Hwatch & _).
    refine (proj1 (Hwatch [] [HSET "k" stored] [] eq_refl _ _)).
    + apply (bool_decide_unpack _). vm_compute. exact I.
    + vm_compute. reflexivity.
  - destruct (hsetall_errors "k" fresher (server [Failure connectionLost]))
      as (_ & Hlost & _).
    refine (Hlost (Failure connectionLost) connectionLost [] eq_refl eq_refl _).
    discriminate.
Defined.

(** The write conflict is not told apart: with ["k"] written by another
    session after the watch, what the caller gets is the library's error,
    whose name is ["Error"], and not the [RedisError] for a watch error. *)
Lemma hsetall_conflict_not_distinguished :
  (hsetall "k" fresher (server [Others []; Others [HSET "k" stored]])).1
    = inr (Rethrown watchError)
  /\ name watchError = "Error"
  /\ (hsetall "k" fresher (server [Others []; Others [HSET "k" stored]])).1
    <> inr (RedisError "Watch error when setting HASH.").
Proof. split_and!; [vm_compute; reflexivity|reflexivity|discriminate]. Qed.
End Witnesses.

(** * The further theorems at work *)

Section FurtherWitnesses.
Import Sample Examples RedisShim Cases.

(** [{ f: 42 }] with the field [f: boolean]: encoding throws. *)
Lemma toRedisJson_type_error_witness :
  (toRedisJson (H := helpers) 5 booleanSchema 1%positive numberHeap).1
    = Throw (ThrownError "Expected a boolean but received: 42").
Proof.
  rewrite (toRedisJson_type_error (H := helpers) 5 booleanSchema 1%positive
             numberHeap [] "f" {| type := TBoolean; path := None |} []
             2%positive
             (clone (H := helpers) 5 1%positive numberHeap).2
             (clone (H := helpers) 5 1%positive numberHeap).2
             {| value := VNumber 42%Z; parent := VRef 2%positive;
                parentProperty := KName "f" |}).
  - vm_compute. reflexivity.
  - reflexivity.
  - vm_compute. reflexivity.
  - vm_compute. reflexivity.
  - vm_compute. reflexivity.
  - reflexivity.
  - reflexivity.
  - reflexivity.
Defined.

(** The same document taken for a stored one: decoding throws. *)
Lemma fromRedisJson_type_error_witness :
  (fromRedisJson (H := helpers) 5 booleanSchema 1%positive numberHeap).1
    = Throw (ThrownError
        "Expected a value of true, false, or null from RedisJSON for a boolean but received: 42").
Proof.
  rewrite (fromRedisJson_type_error (H := helpers) 5 booleanSchema 1%positive
             numberHeap [] "f" {| type := TBoolean; path := None |} []
             2%positive
             (clone (H := helpers) 5 1%positive numberHeap).2
             (clone (H := helpers) 5 1%positive numberHeap).2
             {| value := VNumber 42%Z; parent := VRef 2%positive;
                parentProperty := KName "f" |}).
  - vm_compute. reflexivity.
  - reflexivity.
  - vm_compute. reflexivity.
  - vm_compute. reflexivity.
  - vm_compute. reflexivity.
  - reflexivity.
  - reflexivity.
Defined.

(** The number 42 and the type [boolean]. *)
Lemma type_error_exactly_witness :
  (encoderAccepts (H := helpers) numberHeap TBoolean (VNumber 42%Z) = false <->
     exists msg h',
       convertKnownValueToJson (H := helpers) TBoolean (VNumber 42%Z) numberHeap
         = (Throw (ThrownError msg), h'))
  /\ (decoderAccepts (H := helpers) numberHeap TBoolean (VNumber 42%Z) = false <->
     exists msg h',
       convertKnownValueFromJson (H := helpers)
         {| type := TBoolean; path := None |} (VNumber 42%Z) numberHeap
         = (Throw (ThrownError msg), h')).
Proof.
  apply (type_error_exactly (H := helpers) numberHeap TBoolean None
           (VNumber 42%Z)).
  reflexivity.
Defined.

(** The array [[1, true, "a"]]. *)
Lemma string_array_conversions_witness :
  (convertArrayToStringArray (H := helpers) (VRef 2%positive)
     [VNumber 1%Z; VBool true; VString "a"] mixedTagsHeap).1
    = Ok (VRef 3%positive)
  /\ (convertArrayToStringArray (H := helpers) (VRef 2%positive)
     [VNumber 1%Z; VBool true; VString "a"] mixedTagsHeap).2 !! 3%positive
    = Some (OArray [VString "1"; VString "true"; VString "a"]).
Proof.
  destruct (string_array_conversions (H := helpers) (VRef 2%positive)
              [VNumber 1%Z; VBool true; VString "a"] mixedTagsHeap)
    as [Hreturns _].
  rewrite (proj1 (Hreturns ltac:(repeat constructor))).
  split; vm_compute; reflexivity.
Defined.

(** [{ tags: [1, undefined] }] with the field [tags: string[]]. *)
Lemma string_array_undefined_aborts_witness :
  (knownFieldToJson (H := helpers) 1%positive ("tags", tagsField)
     undefinedTagHeap).1
    = Throw (ThrownString
        "Expected a string[] but received an array containing undefined: [1,undefined]")
  /\ (knownFieldFromJson (H := helpers) 1%positive ("tags", tagsField)
        undefinedTagHeap).1
    = Throw ThrownTypeError.
Proof.
  destruct (string_array_undefined_aborts (H := helpers) 1%positive "tags"
              tagsField undefinedTagHeap
              {| value := VRef 2%positive; parent := VRef 1%positive;
                 parentProperty := KName "tags" |}
              [VNumber 1%Z] []) as [Hencode Hdecode].
  - reflexivity.
  - vm_compute. reflexivity.
  - vm_compute. reflexivity.
  - repeat constructor.
  - rewrite Hencode, Hdecode. split; vm_compute; reflexivity.
Defined.

(** The date of [{ f: new Date(1704067200000) }]: what is stored for it
    is decoded. *)
Lemma encoded_value_decodes_witness :
  exists v'' h'',
    convertKnownValueFromJson (H := helpers)
      {| type := TDate; path := None |} (VNumber 1704067200%Z) dateHeap
      = (Ok v'', h'').
Proof.
  apply (encoded_value_decodes (H := helpers) TDate None (VRef 2%positive)
           (VNumber 1704067200%Z) dateHeap dateHeap).
  - discriminate.
  - vm_compute. reflexivity.
Defined.

(** [{ f: 42 }] with the field [f: string], encoded and, taken for a
    stored document, decoded. *)
Lemma string_field_coerces_witness :
  (exists json h1,
      toRedisJson (H := helpers) 2 stringSchema 1%positive numberHeap
        = (Ok json, h1)
      /\ h1 !! json = Some (OObject {["f" := VString "42"]}))
  /\ (exists data h2,
      fromRedisJson (H := helpers) 2 stringSchema 1%positive numberHeap
        = (Ok data, h2)
      /\ h2 !! data = Some (OObject {["f" := VString "42"]})).
Proof.
  assert (stringOf (H := helpers) numberHeap (VNumber 42%Z) = "42") as <-.
  { vm_compute. reflexivity. }
  apply (string_field_coerces (H := helpers) 0 stringSchema "f" TString [] []
           1%positive (VNumber 42%Z) numberHeap).
  - reflexivity.
  - by left.
  - reflexivity.
  - constructor.
  - constructor.
  - vm_compute. reflexivity.
  - reflexivity.
Defined.

(** [{ f: 42 }] with the field [f: date]: the number is stored, and a
    date comes back. *)
Lemma date_field_shapes_witness :
  exists json h1 result h2 d,
    toRedisJson (H := helpers) 2 dateSchema 1%positive numberHeap
      = (Ok json, h1)
    /\ h1 !! json = Some (OObject {["f" := VNumber 42%Z]})
    /\ fromRedisJson (H := helpers) 2 dateSchema json h1 = (Ok result, h2)
    /\ h2 !! result = Some (OObject {["f" := VRef d]})
    /\ h2 !! d = Some (ODate 42000%Z).
Proof.
  apply (date_field_shapes (H := helpers) 0 dateSchema "f" [] [] 1%positive
           (VNumber 42%Z) 42%Z numberHeap).
  - reflexivity.
  - reflexivity.
  - constructor.
  - constructor.
  - vm_compute. reflexivity.
  - by left.
Defined.

(** [{ tags: [1, true, "a"] }] with the field [tags: string[]]. *)
Lemma string_array_field_stringified_witness :
  exists json h1 a1 result h2 a2,
    toRedisJson (H := helpers) 2 tagsSchema 1%positive mixedTagsHeap
      = (Ok json, h1)
    /\ h1 !! json = Some (OObject {["tags" := VRef a1]})
    /\ h1 !! a1 = Some (OArray [VString "1"; VString "true"; VString "a"])
    /\ fromRedisJson (H := helpers) 2 tagsSchema json h1 = (Ok result, h2)
    /\ h2 !! result = Some (OObject {["tags" := VRef a2]})
    /\ h2 !! a2 = Some (OArray [VString "1"; VString "true"; VString "a"]).
Proof.
  assert (VString <$> (stringOf (H := helpers) mixedTagsHeap
                         <$> [VNumber 1%Z; VBool true; VString "a"])
          = [VString "1"; VString "true"; VString "a"]) as <-.
  { vm_compute. reflexivity. }
  apply (string_array_field_stringified (H := helpers) 0 tagsSchema "tags"
           [] [] 1%positive 2%positive
           [VNumber 1%Z; VBool true; VString "a"] mixedTagsHeap).
  - reflexivity.
  - reflexivity.
  - constructor.
  - constructor.
  - vm_compute. reflexivity.
  - vm_compute. reflexivity.
  - repeat constructor.
Defined.

(** [{ f: undefined }], stored, with a schema that has no field [f]. *)
Lemma fromRedisJson_keeps_undefined_witness :
  exists props',
    (fromRedisJson (H := helpers) 5 tagsSchema 1%positive undefinedHeap).2
      !! 2%positive = Some (OObject props')
    /\ props' !! "f" = Some VUndefined.
Proof.
  apply (fromRedisJson_keeps_undefined (H := helpers) 5 tagsSchema 1%positive
           undefinedHeap
           (fromRedisJson (H := helpers) 5 tagsSchema 1%positive
              undefinedHeap).2
           (list_to_map [("f", VUndefined)]) "f" 2%positive).
  - vm_compute. reflexivity.
  - vm_compute. reflexivity.
  - vm_compute. reflexivity.
Defined.

(** [{ a: [new Date(1704067200000), undefined] }]: the array is as it
    was after the pass. *)
Lemma cleanup_leaves_arrays_witness :
  (convertToRedisJsonUnknown (H := helpers) 5 1%positive dateArrayHeap).2
    !! 2%positive
  = Some (OArray [VRef 3%positive; VUndefined]).
Proof.
  apply (cleanup_leaves_arrays (H := helpers) 5 1%positive dateArrayHeap
           (convertToRedisJsonUnknown (H := helpers) 5 1%positive
              dateArrayHeap).2
           (convertToRedisJsonUnknown (H := helpers) 5 1%positive
              dateArrayHeap).1).
  - reflexivity.
  - vm_compute. reflexivity.
  - vm_compute. reflexivity.
Defined.

(** A call that returns on the busy server: the key has the new fields
    and nothing else; a call that another session overtakes: the hashes
    are what that session left; a call whose commit the server ran and
    whose reply was lost: the new fields, and an error. *)
Lemma hsetall_all_or_nothing_witness :
  hashes (hsetall "k" fresher busy).2 = <["k" := fresher]> (hashes busy)
  /\ hashes (hsetall "k" fresher
               (server [Others []; Others [HSET "k" stored]])).2
     = <["k" := stored]> ∅
  /\ (hsetall "k" fresher
        (server [Others []; Unanswered [] connectionLost])).1 <> inl tt
  /\ hashes (hsetall "k" fresher
               (server [Others []; Unanswered [] connectionLost])).2
     = <["k" := fresher]> (<["k" := stored]> ∅).
Proof.
  destruct (hsetall_all_or_nothing "k" fresher busy) as [Hall _].
  destruct (hsetall_all_or_nothing "k" fresher
              (server [Others []; Others [HSET "k" stored]]))
    as (_ & _ & Hnothing & _).
  destruct (hsetall_all_or_nothing "k" fresher
              (server [Others []; Unanswered [] connectionLost]))
    as (_ & _ & _ & Hlost).
  split_and!.
  - rewrite Hall; [|vm_compute; reflexivity]. vm_compute. reflexivity.
  - rewrite (Hnothing (Rethrown watchError));
      [|vm_compute; reflexivity|discriminate].
    vm_compute. reflexivity.
  - refine (proj1 (Hlost [] [] connectionLost [] eq_refl _ _)).
    + apply (bool_decide_unpack _). vm_compute. exact I.
    + vm_compute. reflexivity.
  - refine (eq_trans (proj2 (Hlost [] [] connectionLost [] eq_refl _ _)) _).
    + apply (bool_decide_unpack _). vm_compute. exact I.
    + vm_compute. reflexivity.
    + vm_compute. reflexivity.
Defined.

(** On the busy server nothing stands in the way. *)
Lemma hsetall_succeeds_exactly_witness :
  (hsetall "k" fresher busy).1 = inl tt.
Proof.
  apply (hsetall_succeeds_exactly "k" fresher busy). split_and!.
  - reflexivity.
  - apply (bool_decide_unpack _). vm_compute. exact I.
  - vm_compute. reflexivity.
Defined.

(** Written, then read, while another session writes another key. *)
Lemma hsetall_then_hgetall_witness :
  (SharedClient.hgetall "k" (hsetall "k" fresher busy).2).1 = inl fresher.
Proof.
  apply (hsetall_then_hgetall "k" fresher busy).
  - vm_compute. reflexivity.
  - vm_compute. reflexivity.
  - apply (bool_decide_unpack _). vm_compute. exact I.
Defined.

(** Unlinked, then read. *)
Lemma unlink_then_hgetall_witness :
  (SharedClient.hgetall "k" (SharedClient.unlink "k" busy).2).1 = inl ∅.
Proof.
  apply (unlink_then_hgetall "k" busy).
  - vm_compute. reflexivity.
  - vm_compute. reflexivity.
  - apply (bool_decide_unpack _). vm_compute. exact I.
Defined.

(** [{ f: undefined }] with the field [f: boolean]. *)
Lemma undefined_match_witness :
  knownFieldToJson (H := helpers) 1%positive
    ("f", {| type := TBoolean; path := None |}) undefinedHeap
    = (Ok tt, undefinedHeap)
  /\ (knownFieldFromJson (H := helpers) 1%positive
        ("f", {| type := TBoolean; path := None |}) undefinedHeap).1
    = Throw (ThrownError
        "Expected a value of true, false, or null from RedisJSON for a boolean but received: undefined").
Proof.
  destruct (undefined_match (H := helpers) 1%positive "f"
              {| type := TBoolean; path := None |} undefinedHeap
              {| value := VUndefined; parent := VRef 1%positive;
                 parentProperty := KName "f" |}) as [Hencode Hdecode].
  - vm_compute. reflexivity.
  - reflexivity.
  - split; [exact Hencode|]. rewrite Hdecode. vm_compute. reflexivity.
Defined.

(** [{ a: [1, 2] }] with a [string[]] field at [$.a[*]]: the array holds
    the strings afterwards. *)
Lemma string_array_elements_stringified_witness :
  (knownFieldToJson (H := helpers) 1%positive ("f", manyField TStringArray)
     manyHeap).2 !! 2%positive
    = Some (OArray [VString "1"; VString "2"])
  /\ (knownFieldFromJson (H := helpers) 1%positive
        ("f", manyField TStringArray) manyHeap).2 !! 2%positive
    = Some (OArray [VString "1"; VString "2"]).
Proof.
  destruct (string_array_elements_stringified (H := helpers) 1%positive "f"
              (manyField TStringArray) manyHeap 2%positive
              [VNumber 1%Z; VNumber 2%Z]) as [Hencode Hdecode].
  - reflexivity.
  - vm_compute. reflexivity.
  - simpl. lia.
  - vm_compute. reflexivity.
  - repeat constructor.
  - rewrite Hencode, Hdecode. split; vm_compute; reflexivity.
Defined.

(** [{ f: new Date(1704067200000) }] with a schema that has the field
    [tags] only. *)
Lemma uncovered_date_stays_a_number_witness :
  exists json h1 result h2,
    toRedisJson (H := helpers) 2 tagsSchema 1%positive dateHeap = (Ok json, h1)
    /\ h1 !! json = Some (OObject {["f" := VNumber 1704067200%Z]})
    /\ fromRedisJson (H := helpers) 2 tagsSchema json h1 = (Ok result, h2)
    /\ h2 !! result = Some (OObject {["f" := VNumber 1704067200%Z]}).
Proof.
  apply (uncovered_date_stays_a_number (H := helpers) 0 tagsSchema "f"
           1%positive 2%positive 1704067200000%Z dateHeap).
  - constructor; [|constructor]. split_and!; [reflexivity..|discriminate].
  - vm_compute. reflexivity.
  - vm_compute. reflexivity.
Defined.

(** [{ tags: [1, undefined] }], stored, with a [string[]] field at
    [$.tags[*]]: the first element is converted, the second ends the
    decoding. *)
Lemma undefined_among_many_matches_witness :
  (knownFieldFromJson (H := helpers) 1%positive
     ("f", {| type := TStringArray; path := Some "$.tags[*]" |})
     undefinedTagHeap).1
  = Throw (ThrownError "Expected a string but received: undefined").
Proof.
  destruct (undefined_among_many_matches (H := helpers) 1%positive "f"
              {| type := TStringArray; path := Some "$.tags[*]" |}
              undefinedTagHeap
              [ {| value := VNumber 1%Z; parent := VRef 2%positive;
                   parentProperty := KIndex 0 |} ]
              {| value := VUndefined; parent := VRef 2%positive;
                 parentProperty := KIndex 1 |}
              []
              (<[2%positive := OArray [VString "1"; VUndefined]]>
                 undefinedTagHeap)) as [_ Hdecode].
  - reflexivity.
  - vm_compute. reflexivity.
  - simpl. lia.
  - reflexivity.
  - rewrite Hdecode; [|vm_compute; reflexivity]. vm_compute. reflexivity.
Defined.
End FurtherWitnesses.
